(** * django-structured-field: the relation cache engine

    A shallow embedding of [structured/cache/engine.py] and of the two
    primary-key validators of [structured/pydantic/fields.py], with the
    properties of the batch cache, the reference collector and the
    lazy placeholder proved over it.

    Python values are an inductive type, dictionaries that are iterated in
    insertion order are association lists, the [Cache] (a dict keyed by model
    class whose order is never observed) is a [gmap], exceptions are the
    [Raise] outcome of a result type, and the process-wide state (the
    singleton cache and the calls made to the persistence layer) is threaded
    explicitly. *)

From Stdlib Require Import ZArith String Ascii List Decimal DecimalString DecimalNat DecimalFacts.
From stdpp Require Import base option list gmap strings countable.

Set Warnings "-register-all".
Local Open Scope Z_scope.
Local Open Scope string_scope.
Local Open Scope list_scope.

(** ** Data of the persistence layer *)

(** A Django model class: its app label and [__name__], the attribute name of
    its primary key ([_meta.pk.attname]) and [_meta.abstract]. *)
Record model := Model {
  app_label : string;
  model_name : string;
  pk_attname : string;
  abstract : bool
}.

#[global] Instance model_eq_dec : EqDecision model.
Proof. solve_decision. Defined.

#[global] Instance model_countable : Countable model.
Proof.
  refine (inj_countable'
            (fun m => (app_label m, model_name m, pk_attname m, abstract m))
            (fun t => match t with (a, n, p, b) => Model a n p b end) _).
  by intros [].
Defined.

(** A primary key: [Union[str, int]]. *)
Inductive key :=
| KInt (z : Z)
| KStr (s : string).

#[global] Instance key_eq_dec : EqDecision key.
Proof. solve_decision. Defined.

#[global] Instance key_countable : Countable key.
Proof.
  refine (inj_countable'
            (fun k => match k with KInt z => inl z | KStr s => inr s end)
            (fun t => match t with inl z => KInt z | inr s => KStr s end) _).
  by intros [].
Defined.

(** A model instance.  Only its class and primary key are observed by the
    engine; the remaining columns are one opaque string. *)
Record entity := Entity {
  e_model : model;
  e_pk : key;
  e_body : string
}.

#[global] Instance entity_eq_dec : EqDecision entity.
Proof. solve_decision. Defined.

(** The persistence layer: for each model, the row stored under a primary
    key.  Keys are compared as Python values, so [KInt 5] and [KStr "5"]
    address different rows (the coercion a database backend may apply to a
    lookup value is not part of this model). *)
Definition database := model -> key -> option string.

Definition db_get (db : database) (m : model) (k : key) : option entity :=
  Entity m k <$> db m k.

(** ** Exceptions *)

Inductive exn :=
| RecursionError
| TypeError
| AttributeError
| PathError
| DoesNotExist
| ValueError.

Inductive result (A : Type) :=
| Ok (a : A)
| Raise (e : exn).
Arguments Ok {A} a.
Arguments Raise {A} e.

#[global] Instance result_ret : MRet result := fun A a => Ok a.
#[global] Instance result_bind : MBind result := fun A B f r =>
  match r with
  | Ok a => f a
  | Raise e => Raise e
  end.

#[global] Instance result_fmap : FMap result := fun A B f r =>
  match r with
  | Ok a => Ok (f a)
  | Raise e => Raise e
  end.

Definition is_ok {A} (r : result A) : bool :=
  match r with Ok _ => true | Raise _ => false end.

(** ** The batch cache *)

(** [class Cache(dict)]: model class to (primary key to instance). *)
Abbreviation Cache := (gmap model (gmap key entity)).

(** What a [ValueWithCache] holds in [self.cache]: the [Cache()] object made
    by the build pass that created it (nothing else keeps a reference to that
    object, so it is carried by value), or the [ThreadSafeCache] singleton,
    which lives in the process state and is read when the value is
    resolved. *)
Inductive cache_ref :=
| OwnCache (c : Cache)
| SharedCache.

(** ** Python values *)

Inductive value :=
| VNone
| VInt (z : Z)
| VStr (s : string)
| VList (l : list value)
| VDict (d : list (string * value))
| VInst (e : entity)
| VLazy (c : cache_ref) (m : model) (v : value).

Definition value_of_key (k : key) : value :=
  match k with
  | KInt z => VInt z
  | KStr s => VStr s
  end.

Definition as_key (v : value) : option key :=
  match v with
  | VInt z => Some (KInt z)
  | VStr s => Some (KStr s)
  | _ => None
  end.

(** [bool(v)] *)
Definition truthy (v : value) : bool :=
  match v with
  | VNone => false
  | VInt z => negb (Z.eqb z 0)
  | VStr s => negb (String.eqb s "")
  | VList l => match l with [] => false | _ => true end
  | VDict d => match d with [] => false | _ => true end
  | VInst _ => true
  | VLazy _ _ _ => true
  end.

(** [isinstance(v, ValueWithCache)] *)
Definition is_lazy (v : value) : bool :=
  match v with
  | VLazy _ _ _ => true
  | _ => false
  end.

(** [isinstance(v, model)] *)
Definition isinstance_model (v : value) (m : model) : bool :=
  match v with
  | VInst e => bool_decide (e_model e = m)
  | _ => false
  end.

(** Lists and dicts cannot be hashed. *)
Definition hashable (v : value) : bool :=
  match v with
  | VList _ | VDict _ => false
  | _ => true
  end.

(** [a == b] between hashable values, as a set or an [in] test applies it.
    Model instances are equal when class and primary key are.  A
    [ValueWithCache] has identity equality; object identity is not part of
    this model and two placeholders never compare equal. *)
Definition py_eq (a b : value) : bool :=
  match a, b with
  | VNone, VNone => true
  | VInt x, VInt y => Z.eqb x y
  | VStr x, VStr y => String.eqb x y
  | VInst e1, VInst e2 =>
      bool_decide (e_model e1 = e_model e2) && bool_decide (e_pk e1 = e_pk e2)
  | _, _ => false
  end.

(** A mapping lookup [d.get(k)] and the assignment [d[k] = v] on a dict kept
    in insertion order. *)
Fixpoint dict_get (k : string) (d : list (string * value)) : option value :=
  match d with
  | [] => None
  | (k', v) :: r => if String.eqb k' k then Some v else dict_get k r
  end.

Fixpoint dict_set (k : string) (v : value) (d : list (string * value))
  : list (string * value) :=
  match d with
  | [] => [(k, v)]
  | (k', v') :: r =>
      if String.eqb k' k then (k', v) :: r else (k', v') :: dict_set k v r
  end.

(** ** Paths *)

(** [path.split(".")] *)
Fixpoint split_path (s : string) : list string :=
  match s with
  | EmptyString => [EmptyString]
  | String c r =>
      if Ascii.eqb c "." then EmptyString :: split_path r
      else match split_path r with
           | [] => [String c EmptyString]
           | h :: t => String c h :: t
           end
  end.

(** A segment holds no dot; the dotted string of a list of segments. *)
Fixpoint no_dot (s : string) : bool :=
  match s with
  | EmptyString => true
  | String c r => negb (Ascii.eqb c ".") && no_dot r
  end.

Fixpoint dotted (segs : list string) : string :=
  match segs with
  | [] => ""
  | [s] => s
  | s :: r => s +:+ "." +:+ dotted r
  end.

(** [f"{index}"] and its inverse on a path segment. *)
Definition str_of_index (i : nat) : string :=
  NilZero.string_of_uint (Nat.to_uint i).

Definition index_of_str (s : string) : option nat :=
  Nat.of_uint <$> NilZero.uint_of_string s.

(** One step down a path: a mapping key, a sequence index, or an attribute.
    The only attribute of a model instance in this model is its primary
    key. *)
Definition path_step (obj : value) (seg : string) : option value :=
  match obj with
  | VDict d => dict_get seg d
  | VList l => i ← index_of_str seg; l !! i
  | VInst e =>
      if String.eqb seg (pk_attname (e_model e))
      then Some (value_of_key (e_pk e)) else None
  | _ => None
  end.

Fixpoint get_segs (segs : list string) (obj : value) : option value :=
  match segs with
  | [] => Some obj
  | seg :: rest => child ← path_step obj seg; get_segs rest child
  end.

(** Modelled from the spec: [structured.utils.getter.pointed_getter] is not
    among the sources.  The spec has a path as a dotted string of field names
    and numeric indices that is used to read the value at a location, with
    attribute-style and mapping-style access; a location that does not exist
    reads as the default. *)
Definition pointed_getter (obj : value) (path : string) (dflt : value) : value :=
  default dflt (get_segs (split_path path) obj).

(** The assignment at the last segment: [obj[seg] = v].  Assigning an
    attribute of a model instance or of a placeholder is outside this model
    (they carry no attribute store here) and is reported as a failed write,
    like a write into a scalar. *)
Definition path_assign (obj : value) (seg : string) (v : value) : option value :=
  match obj with
  | VDict d => Some (VDict (dict_set seg v d))
  | VList l =>
      i ← index_of_str seg;
      if decide (i < length l)%nat then Some (VList (<[i:=v]> l)) else None
  | _ => None
  end.

Fixpoint set_segs (segs : list string) (v : value) (obj : value) : option value :=
  match segs with
  | [] => None
  | [seg] => path_assign obj seg v
  | seg :: rest =>
      child ← path_step obj seg;
      child' ← set_segs rest v child;
      path_assign obj seg child'
  end.

(** Modelled from the spec: [structured.utils.setter.pointed_setter] is not
    among the sources.  The spec has the value at a recorded path overwritten;
    the Python helper mutates the tree in place, here the updated tree is
    returned, and [None] stands for a path that cannot be followed or
    written. *)
Definition pointed_setter (obj : value) (path : string) (v : value) : option value :=
  set_segs (split_path path) v obj.

(** ** [class Cache(dict)] *)

(** The argument of [Cache.flush]: [None], a model class, or a name. *)
Inductive flush_arg :=
| FNone
| FClass (m : model)
| FStr (s : string).

(** [model in self]: the keys of a [Cache] are model classes, so neither
    [None] nor a string is ever one of them. *)
Definition cache_contains (self : Cache) (model : flush_arg) : bool :=
  match model with
  | FClass m => bool_decide (is_Some (self !! m))
  | _ => false
  end.

(** [next((m.__name__ for m in self.keys() if m.__name__ == model), None)] *)
Definition next_name (self : Cache) (model : string) : flush_arg :=
  match filter (fun n => n = model) (model_name <$> (map_to_list self).*1) with
  | n :: _ => FStr n
  | [] => FNone
  end.

Definition flush (model : flush_arg) (self : Cache) : Cache :=
  let given :=
    match model with
    | FNone => false
    | FClass _ => true
    | FStr s => negb (String.eqb s "")
    end in
  if given then
    let model :=
      match model with
      | FStr s => next_name self s
      | _ => model
      end in
    if cache_contains self model then
      match model with
      | FClass m => delete m self
      | _ => self
      end
    else self
  else ∅.

(** ** Process state *)

Inductive db_call :=
| BatchFetch (m : model) (pks : list value)
| SingleGet (m : model) (pk : value).

(** The [ThreadSafeCache] singleton and the queries sent to the persistence
    layer so far, oldest first. *)
Record process := Process {
  shared : Cache;
  calls : list db_call
}.

Definition cache_of (p : process) (c : cache_ref) : Cache :=
  match c with
  | OwnCache c => c
  | SharedCache => shared p
  end.

(** ** [class ValueWithCache] *)

(** A Django queryset as far as the engine touches it: the model, the
    [pk__in] filter, whether it is ordered by position in the filter, and
    [_result_cache] (the rows a queryset hands out without querying once it
    is set). *)
Record queryset := QuerySet {
  qs_model : model;
  qs_pk_in : value;
  qs_ordered : bool;
  qs_result_cache : option (list entity)
}.

Inductive resolved :=
| REntity (e : entity)
| RQuerySet (qs : queryset).

(** [hasattr(v, "__iter__") and not isinstance(v, str)], with the items the
    iteration yields. *)
Definition iter_items (v : value) : option (list value) :=
  match v with
  | VList l => Some l
  | VDict d => Some (VStr <$> d.*1)
  | _ => None
  end.

(** [[cache[i] for i in items if i in cache]] *)
Fixpoint cached_hits (cache : gmap key entity) (items : list value)
  : result (list entity) :=
  match items with
  | [] => Ok []
  | i :: r =>
      if hashable i then
        rest ← cached_hits cache r;
        match as_key i ≫= (cache !!.) with
        | Some e => Ok (e :: rest)
        | None => Ok rest
        end
      else Raise TypeError
  end.

(** [model._default_manager.get(pk=v)] *)
Definition manager_get (db : database) (m : model) (v : value) : result entity :=
  match v with
  | VNone => Raise DoesNotExist
  | _ =>
      match as_key v with
      | Some k =>
          match db_get db m k with
          | Some e => Ok e
          | None => Raise DoesNotExist
          end
      | None => Raise TypeError
      end
  end.

Definition retrieve (db : database) (p : process)
    (self_cache : cache_ref) (self_model : model) (self_value : value)
  : result resolved * process :=
  let cache := cache_of p self_cache !! self_model in
  match iter_items self_value with
  | Some items =>
      let result_cache : result (list entity) :=
        match cache with
        | Some c => if decide (c = ∅) then Ok [] else cached_hits c items
        | None => Ok []
        end in
      (rc ← result_cache;
       Ok (RQuerySet (QuerySet self_model self_value false (Some rc))), p)
  | None =>
      match cache with
      | None => (Raise AttributeError, p)
      | Some c =>
          match as_key self_value ≫= (c !!.) with
          | Some val => (Ok (REntity val), p)
          | None =>
              (REntity <$> manager_get db self_model self_value,
               Process (shared p) (calls p ++ [SingleGet self_model self_value]))
          end
      end
  end.

(** ** [class RelInfo] *)

(** A structured type (a [BaseModel] subclass), named. *)
Definition schema := string.

(** The classification of one relation field.  [info.type] is the
    constructor and [info.model] its argument: a Django model for the
    reference kinds ["fk"] and ["qs"], a structured type for the nested kinds
    ["rel_l"] and ["rel"].  The field descriptor [info.field] is never read
    by the engine. *)
Inductive RelInfo :=
| FKField (m : model)
| QSField (m : model)
| RLField (s : schema)
| RIField (s : schema).

(** ** [class CacheEngine] *)

(** [fk_data]: a [defaultdict(list)] from model to (path, key or keys)
    tuples, in insertion order. *)
Abbreviation tuple := (string * value)%type.
Abbreviation fk_map := (list (model * list (string * value))).

(** [fk_data[m] += ts] on a [defaultdict(list)] *)
Fixpoint fk_extend (m : model) (ts : list tuple) (fk_data : fk_map) : fk_map :=
  match fk_data with
  | [] => [(m, ts)]
  | (m', ts') :: r =>
      if decide (m' = m) then (m', ts' ++ ts) :: r
      else (m', ts') :: fk_extend m ts r
  end.

(** [for model, touples in child.items():
       fk_data[model] += [(prefix(t[0]), t[1]) for t in touples]] *)
Definition fk_merge (prefix : string -> string) (child : fk_map) (fk_data : fk_map)
  : fk_map :=
  fold_left
    (fun acc mt => fk_extend mt.1 ((fun t : tuple => (prefix t.1, t.2)) <$> mt.2) acc)
    child fk_data.

Section Collector.
(** [inspect_related_fields], the relation map of every structured type.
    It is computed from the static annotations of the type alone; the
    reflection that computes it is taken as given. *)
Variable inspect_related_fields : schema -> list (string * RelInfo).

Section Node.
(** [self.from_model(info.model).get_all_fk_data], the recursive call. *)
Variable from_model_get_all_fk_data : schema -> value -> result fk_map.

(** The body of the [for index in range(len(values))] loop of the
    ["rel_l"] branch. *)
Fixpoint rl_loop (s : schema) (field_name : string) (values : list value)
    (index : nat) (fk_data : fk_map) : result fk_map :=
  match values with
  | [] => Ok fk_data
  | v :: r =>
      child ← from_model_get_all_fk_data s v;
      rl_loop s field_name r (S index)
        (fk_merge
           (fun t0 => field_name +:+ "." +:+ str_of_index index +:+ "." +:+ t0)
           child fk_data)
  end.

(** The [for field_name, info in self.__related_fields__.items()] loop.
    The two [fk_data = {}; break] exits return the empty map at once. *)
Fixpoint fields_loop (data : value) (fields : list (string * RelInfo))
    (fk_data : fk_map) : result fk_map :=
  match fields with
  | [] => Ok fk_data
  | (field_name, info) :: rest =>
      match info with
      | FKField m =>
          let value := pointed_getter data field_name VNone in
          let value :=
            match value with
            | VDict d => default VNone (dict_get (pk_attname m) d)
            | _ => value
            end in
          if truthy value then
            if is_lazy value then Ok []
            else
              fields_loop data rest
                (fk_extend m
                   [(field_name, pointed_getter value (pk_attname m) value)]
                   fk_data)
          else fields_loop data rest fk_data
      | QSField m =>
          let value := pointed_getter data field_name (VList []) in
          match value with
          | VList l =>
              if existsb is_lazy l then Ok []
              else
                fields_loop data rest
                  (fk_extend m
                     [(field_name,
                       VList ((fun i => pointed_getter i (pk_attname m) i)
                                <$> filter (fun i => truthy i = true) l))]
                     fk_data)
          | _ => fields_loop data rest fk_data
          end
      | RLField s =>
          let values := pointed_getter data field_name (VList []) in
          match values with
          | VList l =>
              fk_data ← rl_loop s field_name l 0 fk_data;
              fields_loop data rest fk_data
          | _ => fields_loop data rest fk_data
          end
      | RIField s =>
          let value := pointed_getter data field_name VNone in
          child_fk_data ← from_model_get_all_fk_data s value;
          fields_loop data rest
            (fk_merge (fun t0 => field_name +:+ "." +:+ t0) child_fk_data fk_data)
      end
  end.

Definition get_fk_data (self : schema) (data : value) : result fk_map :=
  if negb (truthy data) then Ok []
  else fields_loop data (inspect_related_fields self) [].

(** The [for index in range(len(data))] loop of [get_all_fk_data]. *)
Fixpoint seq_loop (self : schema) (items : list value) (index : nat)
    (fk_data : fk_map) : result fk_map :=
  match items with
  | [] => Ok fk_data
  | v :: r =>
      child_fk_data ← from_model_get_all_fk_data self v;
      seq_loop self r (S index)
        (fk_merge (fun t0 => str_of_index index +:+ "." +:+ t0)
           child_fk_data fk_data)
  end.
End Node.

(** [isinstance(data, Sequence)], with the items [data[index]]: a list, or
    a string, whose items are its one-character strings. *)
Definition sequence_items (data : value) : option (list value) :=
  match data with
  | VList l => Some l
  | VStr s => Some ((fun c => VStr (String c EmptyString)) <$> list_ascii_of_string s)
  | _ => None
  end.

(** [get_all_fk_data].  The first argument bounds the depth of the
    recursion, as the interpreter's recursion limit does: when it is used
    up the call raises [RecursionError]. *)
Fixpoint get_all_fk_data (limit : nat) (self : schema) (data : value)
  : result fk_map :=
  match limit with
  | O => Raise RecursionError
  | S limit =>
      match sequence_items data with
      | Some items => seq_loop (get_all_fk_data limit) self items 0 []
      | None => get_fk_data (get_all_fk_data limit) self data
      end
  end.
End Collector.

(** [structured.settings] *)
Record settings := Settings {
  STRUCTURED_FIELD_CACHE_ENABLED : bool;
  STRUCTURED_FIELD_SHARED_CACHE : bool
}.

(** [plainset]: a [defaultdict(set)].  A set is kept as a list without
    [==]-duplicates, in the order of first insertion (the order in which
    Python iterates a set is not specified; no statement below depends on
    it). *)
Abbreviation plainset_t := (list (model * list value)).

(** [s.add(v)] *)
Definition set_add (v : value) (s : list value) : result (list value) :=
  if hashable v then Ok (if existsb (py_eq v) s then s else s ++ [v])
  else Raise TypeError.

(** [s.update(items)] *)
Fixpoint set_update (items : list value) (s : list value) : result (list value) :=
  match items with
  | [] => Ok s
  | v :: r => s ← set_add v s; set_update r s
  end.

(** [plainset[m]] followed by the change [f] of that set; the access creates
    the entry. *)
Fixpoint plainset_at (m : model) (f : list value -> result (list value))
    (plainset : plainset_t) : result plainset_t :=
  match plainset with
  | [] => s ← f []; Ok [(m, s)]
  | (m', s') :: r =>
      if decide (m' = m) then s ← f s'; Ok ((m', s) :: r)
      else r ← plainset_at m f r; Ok ((m', s') :: r)
  end.

(** The body of [for t in touples]. *)
Fixpoint plainset_tuples (m : model) (touples : list tuple) (plainset : plainset_t)
  : result plainset_t :=
  match touples with
  | [] => Ok plainset
  | t :: r =>
      plainset ←
        match sequence_items t.2 with
        | Some items => plainset_at m (set_update items) plainset
        | None => plainset_at m (set_add t.2) plainset
        end;
      plainset_tuples m r plainset
  end.

(** [for model, touples in fk_data.items()], first loop. *)
Fixpoint build_plainset (fk_data : fk_map) (plainset : plainset_t)
  : result plainset_t :=
  match fk_data with
  | [] => Ok plainset
  | (m, touples) :: r =>
      plainset ← plainset_tuples m touples plainset;
      build_plainset r plainset
  end.

(** [list(model.objects.filter(pk__in=pks))]: the rows of the model whose
    primary key is among [pks].  The persistence layer takes scalar keys
    only and rejects any other lookup value. *)
Fixpoint objects_filter (db : database) (m : model) (pks : list value)
  : result (list entity) :=
  match pks with
  | [] => Ok []
  | pk :: r =>
      match as_key pk with
      | Some k =>
          rest ← objects_filter db m r;
          match db_get db m k with
          | Some e => Ok (e :: rest)
          | None => Ok rest
          end
      | None => Raise TypeError
      end
  end.

(** [{obj.pk: obj for obj in models}] *)
Definition by_pk (models : list entity) : gmap key entity :=
  fold_left (fun acc obj => <[e_pk obj := obj]> acc) models ∅.

(** [for value in values]: instances of the model go to [models], the rest
    to [pks]. *)
Fixpoint split_values (m : model) (values : list value)
    (models : list entity) (pks : list value) : list entity * list value :=
  match values with
  | [] => (models, pks)
  | v :: r =>
      match v with
      | VInst e =>
          if bool_decide (e_model e = m) then split_values m r (models ++ [e]) pks
          else split_values m r models (pks ++ [v])
      | _ => split_values m r models (pks ++ [v])
      end
  end.

(** [for model, values in plainset.items()], the fetch loop.  The cache and
    the calls made so far are returned also when the loop raises: with the
    shared cache the types handled before the failure stay stored. *)
Fixpoint fetch_loop (db : database) (plainset : plainset_t)
    (cache : Cache) (log : list db_call) : option exn * Cache * list db_call :=
  match plainset with
  | [] => (None, cache, log)
  | (m, values) :: r =>
      let models := (map_to_list (default ∅ (cache !! m))).*2 in
      let '(models, pks) := split_values m values models [] in
      let models_pks := (fun obj => value_of_key (e_pk obj)) <$> models in
      let pks := filter (fun pk => existsb (py_eq pk) models_pks = false) pks in
      match pks with
      | [] => fetch_loop db r (<[m := by_pk models]> cache) log
      | _ =>
          match objects_filter db m pks with
          | Ok found =>
              fetch_loop db r (<[m := by_pk (models ++ found)]> cache)
                (log ++ [BatchFetch m pks])
          | Raise e => (Some e, cache, log)
          end
      end
  end.

(** [for model, touples in fk_data.items(): for t in touples:
       pointed_setter(data, t[0], ValueWithCache(cache, model, t[1]))] *)
Fixpoint substitute_tuples (c : cache_ref) (m : model) (touples : list tuple)
    (data : value) : result value :=
  match touples with
  | [] => Ok data
  | t :: r =>
      match pointed_setter data t.1 (VLazy c m t.2) with
      | Some data => substitute_tuples c m r data
      | None => Raise PathError
      end
  end.

Fixpoint substitute (c : cache_ref) (fk_data : fk_map) (data : value)
  : result value :=
  match fk_data with
  | [] => Ok data
  | (m, touples) :: r =>
      data ← substitute_tuples c m touples data;
      substitute c r data
  end.

Section Engine.
Variable cfg : settings.
Variable inspect_related_fields : schema -> list (string * RelInfo).
Variable limit : nat.
Variable db : database.

Definition build_cache (self : schema) (data : value) (p : process)
  : result value * process :=
  if negb (STRUCTURED_FIELD_CACHE_ENABLED cfg) then (Ok data, p)
  else
    match get_all_fk_data inspect_related_fields limit self data with
    | Raise e => (Raise e, p)
    | Ok fk_data =>
        match build_plainset fk_data [] with
        | Raise e => (Raise e, p)
        | Ok plainset =>
            let cache : Cache :=
              if STRUCTURED_FIELD_SHARED_CACHE cfg then shared p else ∅ in
            let '(failure, cache, log) := fetch_loop db plainset cache (calls p) in
            let p' :=
              Process
                (if STRUCTURED_FIELD_SHARED_CACHE cfg then cache else shared p)
                log in
            match failure with
            | Some e => (Raise e, p')
            | None =>
                let c :=
                  if STRUCTURED_FIELD_SHARED_CACHE cfg then SharedCache
                  else OwnCache cache in
                (substitute c fk_data data, p')
            end
        end
    end.
End Engine.

(** ** [structured/pydantic/fields.py] *)

(** [ForeignKey.validate_from_pk], in the closure of the field declared with
    target [source]: [is_abstract] is read from the declared target,
    [model_class] defaults to it. *)
Definition validate_from_pk (db : database) (source : model)
    (pk : key) (model_class : model) : result entity :=
  if abstract source then Raise ValueError
  else manager_get db model_class (value_of_key pk).

(** [QuerySet.validate_from_pk_list]: the queryset filtered on the keys and
    ordered by their position; it is not evaluated here. *)
Definition validate_from_pk_list (source : model) (values : list key)
  : result queryset :=
  if abstract source then Raise ValueError
  else Ok (QuerySet source (VList (value_of_key <$> values)) true None).

(** ** Specification-side definitions *)

(** The resolution of a key sequence as the specification words it: cached
    hits for the keys present in the cache, one batch fetch for the remaining
    keys, the two merged in the original key order. *)
Definition merged_in_key_order (db : database) (cache : gmap key entity)
    (m : model) (keys : list key) : list entity :=
  let remaining := filter (fun k => cache !! k = None) keys in
  let fetched := by_pk (omap (db_get db m) remaining) in
  omap (fun k => match cache !! k with
                 | Some e => Some e
                 | None => fetched !! k
                 end) keys.

(** The value the single-reference branch works on: the field's value, or
    the primary-key entry of a mapping found there. *)
Definition fk_value (m : model) (data : value) (field_name : string) : value :=
  let value := pointed_getter data field_name VNone in
  match value with
  | VDict d => default VNone (dict_get (pk_attname m) d)
  | _ => value
  end.

(** The recursion guard of one field of a node: a single reference whose
    value is already a placeholder, or a reference collection one of whose
    elements is. *)
Definition guard_hit (data : value) (field : string * RelInfo) : bool :=
  match field.2 with
  | FKField m =>
      truthy (fk_value m data field.1) && is_lazy (fk_value m data field.1)
  | QSField m =>
      match pointed_getter data field.1 (VList []) with
      | VList l => existsb is_lazy l
      | _ => false
      end
  | _ => false
  end.

(** The list held by a reference-collection field has no placeholder among
    its elements. *)
Definition qs_quiet (data : value) (field_name : string) : Prop :=
  match pointed_getter data field_name (VList []) with
  | VList l => existsb is_lazy l = false
  | _ => True
  end.

(** [[pointed_getter(i, attname, i) for i in value if i]] *)
Definition qs_keys (m : model) (l : list value) : value :=
  VList ((fun i => pointed_getter i (pk_attname m) i)
           <$> filter (fun i => truthy i = true) l).

(** A tuple recorded for a model, and a value a pass needs for a model: the
    key of one of its tuples, or a member of the key list of one. *)
Definition has_tuple (fk_data : fk_map) (m : model) (t : tuple) : Prop :=
  exists ts, (m, ts) ∈ fk_data /\ t ∈ ts.

Definition required (fk_data : fk_map) (m : model) (v : value) : Prop :=
  exists t, has_tuple fk_data m t /\ (t.2 = v \/ exists l, t.2 = VList l /\ v ∈ l).

Section Relations.
Variable inspect : schema -> list (string * RelInfo).

Definition guard_free (self : schema) (data : value) : Prop :=
  existsb (guard_hit data) (inspect self) = false.

(** What the collector records, stated on the tree: [collected self data
    segs m k] says that under the relation map of [self] the node [data]
    yields, for model [m], the key (or keys) [k] at the path made of the
    segments [segs]. *)
Inductive collected : schema -> value -> list string -> model -> value -> Prop :=
| col_seq self data items index x segs m k :
    sequence_items data = Some items ->
    items !! index = Some x ->
    collected self x segs m k ->
    collected self data (str_of_index index :: segs) m k
| col_fk self data field_name m :
    sequence_items data = None ->
    truthy data = true ->
    guard_free self data ->
    (field_name, FKField m) ∈ inspect self ->
    truthy (fk_value m data field_name) = true ->
    collected self data [field_name] m
      (pointed_getter (fk_value m data field_name) (pk_attname m)
         (fk_value m data field_name))
| col_qs self data field_name m l :
    sequence_items data = None ->
    truthy data = true ->
    guard_free self data ->
    (field_name, QSField m) ∈ inspect self ->
    pointed_getter data field_name (VList []) = VList l ->
    collected self data [field_name] m (qs_keys m l)
| col_rl self data field_name s l index x segs m k :
    sequence_items data = None ->
    truthy data = true ->
    guard_free self data ->
    (field_name, RLField s) ∈ inspect self ->
    pointed_getter data field_name (VList []) = VList l ->
    l !! index = Some x ->
    collected s x segs m k ->
    collected self data (field_name :: str_of_index index :: segs) m k
| col_ri self data field_name s segs m k :
    sequence_items data = None ->
    truthy data = true ->
    guard_free self data ->
    (field_name, RIField s) ∈ inspect self ->
    collected s (pointed_getter data field_name VNone) segs m k ->
    collected self data (field_name :: segs) m k.

(** What one field of a node contributes to the record of the node. *)
Definition contributes (data : value) (field : string * RelInfo)
    (segs : list string) (m : model) (k : value) : Prop :=
  match field.2 with
  | FKField m' =>
      m = m' /\ segs = [field.1]
      /\ truthy (fk_value m' data field.1) = true
      /\ k = pointed_getter (fk_value m' data field.1) (pk_attname m')
               (fk_value m' data field.1)
  | QSField m' =>
      m = m' /\ segs = [field.1]
      /\ exists l, pointed_getter data field.1 (VList []) = VList l
                   /\ k = qs_keys m' l
  | RLField s =>
      exists l index x rest,
        pointed_getter data field.1 (VList []) = VList l
        /\ l !! index = Some x
        /\ segs = field.1 :: str_of_index index :: rest
        /\ collected s x rest m k
  | RIField s =>
      exists rest,
        segs = field.1 :: rest
        /\ collected s (pointed_getter data field.1 VNone) rest m k
  end.

(** A collected map records exactly what the relation says of the node. *)
Definition records (self : schema) (data : value) (fk_data : fk_map) : Prop :=
  forall m p k,
    has_tuple fk_data m (p, k)
    <-> exists segs, p = dotted segs /\ collected self data segs m k.

(** A path that the relation maps designate as the place of a reference:
    it walks the tree through nested fields of truthy nodes and through
    sequence indices, and ends at a single-reference or reference-collection
    field.  For a reference-collection field the list found there holds no
    placeholder. *)
Inductive designated : schema -> value -> list string -> Prop :=
| des_seq self l index x segs :
    l !! index = Some x ->
    designated self x segs ->
    designated self (VList l) (str_of_index index :: segs)
| des_fk self data field_name m :
    sequence_items data = None ->
    truthy data = true ->
    (field_name, FKField m) ∈ inspect self ->
    designated self data [field_name]
| des_qs self data field_name m :
    sequence_items data = None ->
    truthy data = true ->
    (field_name, QSField m) ∈ inspect self ->
    qs_quiet data field_name ->
    designated self data [field_name]
| des_rl self data field_name s l index x segs :
    sequence_items data = None ->
    truthy data = true ->
    (field_name, RLField s) ∈ inspect self ->
    path_step data field_name = Some (VList l) ->
    l !! index = Some x ->
    designated s x segs ->
    designated self data (field_name :: str_of_index index :: segs)
| des_ri self data field_name s child segs :
    sequence_items data = None ->
    truthy data = true ->
    (field_name, RIField s) ∈ inspect self ->
    path_step data field_name = Some child ->
    designated s child segs ->
    designated self data (field_name :: segs).

(** The relation maps are dictionaries keyed by field name, and a field name
    is an identifier. *)
Definition fields_wf : Prop :=
  forall self,
    NoDup (inspect self).*1
    /\ forall field, field ∈ inspect self -> no_dot field.1 = true.

Section Visit.
Variable rec : schema -> value -> result fk_map.

(** Whether the recursive calls one field makes all return, and whether the
    loop over the fields does: it stops at the first field that trips the
    guard. *)
Definition child_ok (data : value) (field : string * RelInfo) : bool :=
  match field.2 with
  | RLField s =>
      match pointed_getter data field.1 (VList []) with
      | VList l => forallb (fun x => is_ok (rec s x)) l
      | _ => true
      end
  | RIField s => is_ok (rec s (pointed_getter data field.1 VNone))
  | _ => true
  end.

Fixpoint fields_ok (data : value) (fields : list (string * RelInfo)) : bool :=
  match fields with
  | [] => true
  | field :: rest =>
      guard_hit data field || (child_ok data field && fields_ok data rest)
  end.
End Visit.
End Relations.

(** The tuples recorded for one model: [fk_data[m]], empty when absent. *)
Fixpoint fk_lookup (m : model) (fk_data : fk_map) : list tuple :=
  match fk_data with
  | [] => []
  | (m', ts) :: r => if decide (m' = m) then ts else fk_lookup m r
  end.

(** The entities the cache holds for a model, and the statement that the
    entity of key [k] is among them. *)
Definition cached_entities (cache : Cache) (m : model) : list entity :=
  (map_to_list (default ∅ (cache !! m))).*2.

Definition holds_pk (cache : Cache) (m : model) (k : key) : Prop :=
  exists e, e ∈ cached_entities cache m /\ e_pk e = k.



(** The set a [plainset] holds for a model, empty when absent. *)
Fixpoint plainset_get (m : model) (plainset : plainset_t) : list value :=
  match plainset with
  | [] => []
  | (m', s) :: r => if decide (m' = m) then s else plainset_get m r
  end.

(** What one turn of the fetch loop sorts out of the values of a model: the
    instances of the model, and the keys it asks the persistence layer
    for. *)
Definition inst_of (m : model) (v : value) : option entity :=
  match v with
  | VInst e => if bool_decide (e_model e = m) then Some e else None
  | _ => None
  end.

Definition batch_models (cache : Cache) (m : model) (values : list value)
  : list entity :=
  cached_entities cache m ++ omap (inst_of m) values.

Definition batch_pks (cache : Cache) (m : model) (values : list value)
  : list value :=
  filter
    (fun pk => existsb (py_eq pk)
                 ((fun obj => value_of_key (e_pk obj)) <$> batch_models cache m values)
               = false)
    (filter (fun v => inst_of m v = None) values).

(** No two members of a set are [==]. *)
Fixpoint py_distinct (s : list value) : Prop :=
  match s with
  | [] => True
  | a :: r => (forall b, b ∈ r -> py_eq a b = false) /\ py_distinct r
  end.

(** The values one tuple adds to the set of its model: the items of a key
    that is a sequence, the key itself otherwise. *)
Definition tuple_values (t : tuple) : list value :=
  match sequence_items t.2 with
  | Some items => items
  | None => [t.2]
  end.

Definition supplies (fk_data : fk_map) (m : model) (v : value) : Prop :=
  exists t, has_tuple fk_data m t /\ v ∈ tuple_values t.

(** What a change of a set does when it adds the values [added]: members
    stay distinct and stay in, every new member is one of [added], and each
    of [added] is in or has a member [==] to it. *)
Definition adds (f : list value -> result (list value)) (added : list value) : Prop :=
  forall s s',
    f s = Ok s' ->
    (py_distinct s -> py_distinct s')
    /\ (forall x, x ∈ s -> x ∈ s')
    /\ (forall x, x ∈ s' -> x ∈ s \/ x ∈ added)
    /\ (forall v, v ∈ added -> exists v', v' ∈ s' /\ (v' = v \/ py_eq v v' = true)).

(** A well-formed [plainset]: one entry per model, each a set. *)
Definition plainset_ok (plainset : plainset_t) : Prop :=
  NoDup plainset.*1 /\ forall m, py_distinct (plainset_get m plainset).

(** The exception a result stands for, if any. *)
Definition failure_of {A} (r : result A) : option exn :=
  match r with
  | Ok _ => None
  | Raise e => Some e
  end.

(** A tree with the cache of every placeholder forgotten: what is left is
    all that reading and writing along paths can tell apart. *)
Fixpoint erase (v : value) : value :=
  match v with
  | VList l => VList (erase <$> l)
  | VDict d => VDict ((fun kv => match kv with (k, x) => (k, erase x) end) <$> d)
  | VLazy c m k => VLazy SharedCache m (erase k)
  | _ => v
  end.

(** The writes of the substitution loops, in order: one per tuple, with the
    model it is recorded for. *)
Definition fk_writes (fk_data : fk_map) : list (model * tuple) :=
  mt ← fk_data; pair mt.1 <$> mt.2.

(** The state of the tree in the course of the substitution, after the
    writes [done] of the tuples of [fk_data], which was collected from [d0]:
    every path the collector recorded in [d0] is still designated; what the
    collector would record now it recorded in [d0], at a path not written
    yet; the collector still returns; and every path written reads as the
    placeholder written there. *)
Definition substituted (inspect : schema -> list (string * RelInfo)) (limit : nat)
    (self : schema) (d0 : value) (fk_data : fk_map) (c : cache_ref)
    (done : list (model * tuple)) (d : value) : Prop :=
  (forall m t, (m, t) ∈ done -> has_tuple fk_data m t)
  /\ (forall q m k, collected inspect self d0 q m k -> designated inspect self d q)
  /\ (forall q m k,
         collected inspect self d q m k ->
         collected inspect self d0 q m k
         /\ forall m' t, (m', t) ∈ done -> split_path t.1 <> q)
  /\ is_ok (get_all_fk_data inspect limit self d) = true
  /\ (forall m t, (m, t) ∈ done -> pointed_getter d t.1 VNone = VLazy c m t.2).

(** ** Fixtures for the closed examples *)

Module Fixture.
Definition User := Model "auth" "User" "id" false.
Definition Item := Model "shop" "Item" "id" false.
Definition Country := Model "geo" "Country" "id" false.
Definition Shape := Model "draw" "Shape" "id" true.

(** [Post]: [owner] and [editor] single references to [User], [items] a
    reference collection of [Item], [address] a nested [Address],
    [children] a list of nested [Post]; [Address]: [country] a single
    reference to [Country]. *)
Definition related (s : schema) : list (string * RelInfo) :=
  if String.eqb s "Post" then
    [("owner", FKField User); ("editor", FKField User);
     ("items", QSField Item); ("address", RIField "Address");
     ("children", RLField "Post")]
  else if String.eqb s "Address" then [("country", FKField Country)]
  else [].

(** Every model has the rows with integer keys 1 to 9. *)
Definition rows : database := fun m k =>
  match k with
  | KInt z => if (0 <? z)%Z && (z <? 10)%Z then Some (model_name m) else None
  | KStr _ => None
  end.

Definition row (m : model) (z : Z) : entity := Entity m (KInt z) (model_name m).

Definition fresh : process := Process ∅ [].

(** Two passes in a row on the shared cache: the first needs [User 5], the
    second [User 5] and [User 6]. *)
Definition pass1 : result value * process :=
  build_cache (Settings true true) related 5 rows "Post"
    (VDict [("owner", VInt 5)]) fresh.

Definition pass2 : result value * process :=
  build_cache (Settings true true) related 5 rows "Post"
    (VDict [("owner", VInt 5); ("editor", VInt 6)]) pass1.2.

(** The key 5 of [User] at two paths of one tree, built on a new cache and
    built on the shared cache that [pass1] left. *)
Definition twice : value :=
  VDict [("owner", VInt 5); ("children", VList [VDict [("owner", VInt 5)]])].

Definition pass_twice : result value * process :=
  build_cache (Settings true false) related 5 rows "Post" twice fresh.


(** Keys 99 are in no table: a single reference and a reference collection
    that name one. *)
Definition pass_missing : result value * process :=
  build_cache (Settings true false) related 5 rows "Post"
    (VDict [("owner", VInt 99)]) fresh.

Definition pass_missing_item : result value * process :=
  build_cache (Settings true false) related 5 rows "Post"
    (VDict [("items", VList [VInt 1; VInt 99])]) fresh.

(** A nested [Address] with the key 9 of [Country]. *)
Definition address_tree : value :=
  VDict [("address", VDict [("country", VInt 9)])].

Definition pass_address : result value * process :=
  build_cache (Settings true false) related 5 rows "Post" address_tree fresh.
End Fixture.

(** ** [CacheEngine.fetch_cache] *)

(** What an attribute of a validated instance holds: a plain value (a
    placeholder is one), an entity or queryset that [retrieve] returned, an
    instance of a [CacheEnabledModel] class with its [model_fields_set] (in
    the order the loop visits it) and its attributes, or a list of such
    objects.  Instances form a tree: no instance is reached along two
    paths, so the assignments made in place are shown in the tree that is
    returned. *)
Inductive pyobj :=
| PVal (v : value)
| PRes (r : resolved)
| PModel (model_fields_set : list string) (attrs : list (string * pyobj))
| PList (l : list pyobj).

(** [getattr(instance, name, dflt)] and [setattr(instance, name, v)] on the
    attributes of an instance. *)
Fixpoint getattr (attrs : list (string * pyobj)) (name : string) (dflt : pyobj)
  : pyobj :=
  match attrs with
  | [] => dflt
  | (k, v) :: r => if String.eqb k name then v else getattr r name dflt
  end.

Fixpoint setattr (name : string) (v : pyobj) (attrs : list (string * pyobj))
  : list (string * pyobj) :=
  match attrs with
  | [] => [(name, v)]
  | (k, v') :: r =>
      if String.eqb k name then (k, v) :: r else (k, v') :: setattr name v r
  end.

Section FetchCache.
Variable db : database.

Section Instance.
(** [CacheEngine.fetch_cache], the recursive call. *)
Variable fetch_cache_rec : pyobj -> process -> option exn * pyobj * process.

(** [for field_name in instance.model_fields_set].  A nested instance is
    changed in place by the recursive call, so what the call did before it
    raised is seen in the attribute also when it raises. *)
Fixpoint fields_set_loop (names : list string) (attrs : list (string * pyobj))
    (p : process) : option exn * list (string * pyobj) * process :=
  match names with
  | [] => (None, attrs, p)
  | field_name :: rest =>
      match getattr attrs field_name (PVal VNone) with
      | PVal (VLazy c m v) =>
          match retrieve db p c m v with
          | (Ok r, p) => fields_set_loop rest (setattr field_name (PRes r) attrs) p
          | (Raise e, p) => (Some e, attrs, p)
          end
      | PModel fs a =>
          match fetch_cache_rec (PModel fs a) p with
          | (None, val, p) => fields_set_loop rest (setattr field_name val attrs) p
          | (Some e, val, p) => (Some e, setattr field_name val attrs, p)
          end
      | _ => fields_set_loop rest attrs p
      end
  end.
End Instance.

(** [fetch_cache(instance)]: the exception raised, if any, the instance and
    the process state.  The first argument bounds the depth of the
    recursion, as for the collector; an object without [model_fields_set]
    raises [AttributeError]. *)
Fixpoint fetch_cache (limit : nat) (instance : pyobj) (p : process)
  : option exn * pyobj * process :=
  match limit with
  | O => (Some RecursionError, instance, p)
  | S limit =>
      match instance with
      | PModel fs attrs =>
          let '(failure, attrs, p) :=
            fields_set_loop (fetch_cache limit) fs attrs p in
          (failure, PModel fs attrs, p)
      | _ => (Some AttributeError, instance, p)
      end
  end.
End FetchCache.

(** How deep instances are nested in the attributes of an instance. *)
Fixpoint depth (o : pyobj) : nat :=
  match o with
  | PModel _ attrs =>
      S ((fix attrs_depth (l : list (string * pyobj)) : nat :=
            match l with
            | [] => 0%nat
            | (_, x) :: r => Nat.max (depth x) (attrs_depth r)
            end) attrs)
  | _ => 0%nat
  end.

Fixpoint attrs_depth (l : list (string * pyobj)) : nat :=
  match l with
  | [] => 0%nat
  | (_, x) :: r => Nat.max (depth x) (attrs_depth r)
  end.

(** An attribute value the loop has nothing left to do with: no
    placeholder, and an instance only if the recursive call returns it as
    it is. *)
Definition settled (rec : pyobj -> process -> option exn * pyobj * process)
    (x : pyobj) : Prop :=
  match x with
  | PVal (VLazy _ _ _) => False
  | PModel _ _ => forall q, rec x q = (None, x, q)
  | _ => True
  end.

(** ** [validate_from_dict] of the relation fields *)

(** The exceptions of the validators that take mappings: those of the
    engine, and those of a missing mapping key, of a local variable read
    before it is bound, and of the model registry. *)
Inductive py_error :=
| Engine (e : exn)
| KeyError
| UnboundLocalError
| LookupError.

Inductive outcome (A : Type) :=
| Returns (a : A)
| Raises (e : py_error).
Arguments Returns {A} a.
Arguments Raises {A} e.

(** [data[k]] with a string [k]: a mapping has the entry or raises
    [KeyError]; nothing else in this model takes a string subscript. *)
Definition getitem (data : value) (k : string) : outcome value :=
  match data with
  | VDict d =>
      match dict_get k d with
      | Some v => Returns v
      | None => Raises KeyError
      end
  | _ => Raises (Engine TypeError)
  end.

(** What a validator of a reference collection returns: a queryset, or the
    union of a first queryset with others. *)
Inductive qs_value :=
| QSOne (q : queryset)
| QSUnion (first : queryset) (others : list queryset).

(** [stack[mclass].append(pk)] on a [defaultdict(list)] kept in insertion
    order. *)
Fixpoint stack_append (mclass : model) (pk : value)
    (stack : list (model * list value)) : list (model * list value) :=
  match stack with
  | [] => [(mclass, [pk])]
  | (m, pks) :: r =>
      if decide (m = mclass) then (m, pks ++ [pk]) :: r
      else (m, pks) :: stack_append mclass pk r
  end.

Section Validators.
(** [apps.get_model] applied to the unpacked [names]: the unpacking of the
    argument and the model registry of Django are taken as given. *)
Variable apps_get_model : value -> outcome model.
Variable db : database.
(** [get_type(source)], the declared target of the field. *)
Variable source : model.

(** [ForeignKey.validate_from_pk] as [validate_from_dict] calls it: with a
    value that did not go through the int-or-str schema, and with the
    model class given. *)
Definition validate_pk_of_dict (pk : value) (model_class : model)
  : result entity :=
  if abstract source then Raise ValueError
  else manager_get db model_class pk.

(** [ForeignKey.validate_from_dict].  The function assigns [model_class],
    so the name is local to it: it is bound only when the branch of the
    abstract target has run ([Some]), and reading it unbound raises
    [UnboundLocalError]. *)
Definition fk_validate_from_dict (data : value) : outcome (option entity) :=
  match data with
  | VNone => Returns None
  | _ =>
      let model_class : outcome (option model) :=
        if abstract source then
          match getitem data "model" with
          | Returns names =>
              match apps_get_model names with
              | Returns cls => Returns (Some cls)
              | Raises e => Raises e
              end
          | Raises e => Raises e
          end
        else Returns None in
      match model_class with
      | Raises e => Raises e
      | Returns None => Raises UnboundLocalError
      | Returns (Some model_class) =>
          match getitem data (pk_attname model_class) with
          | Returns pk =>
              match validate_pk_of_dict pk model_class with
              | Ok obj => Returns (Some obj)
              | Raise e => Raises (Engine e)
              end
          | Raises e => Raises e
          end
      end
  end.

(** [[data[pk_attname] for data in values]] *)
Fixpoint pk_entries (pk_attname : string) (values : list value)
  : outcome (list value) :=
  match values with
  | [] => Returns []
  | data :: r =>
      match getitem data pk_attname with
      | Returns pk =>
          match pk_entries pk_attname r with
          | Returns pks => Returns (pk :: pks)
          | Raises e => Raises e
          end
      | Raises e => Raises e
      end
  end.

(** [QuerySet.validate_from_pk_list] as [validate_from_dict] calls it, with
    values that did not go through the int-or-str schema. *)
Definition validate_pk_list_of_dict (values : list value) : result queryset :=
  if abstract source then Raise ValueError
  else Ok (QuerySet source (VList values) true None).

(** [for value in values] of the branch of the abstract target. *)
Fixpoint stack_loop (values : list value) (stack : list (model * list value))
  : outcome (list (model * list value)) :=
  match values with
  | [] => Returns stack
  | value :: r =>
      match getitem value "model" with
      | Returns names =>
          match apps_get_model names with
          | Returns mclass =>
              match getitem value (pk_attname mclass) with
              | Returns pk => stack_loop r (stack_append mclass pk stack)
              | Raises e => Raises e
              end
          | Raises e => Raises e
          end
      | Raises e => Raises e
      end
  end.

(** [QuerySet.union] called on the class with the unpacked [querysets]:
    with no queryset the call lacks [self] and raises [TypeError]. *)
Definition queryset_union (querysets : list queryset) : outcome qs_value :=
  match querysets with
  | [] => Raises (Engine TypeError)
  | first :: others => Returns (QSUnion first others)
  end.

(** [QuerySet.validate_from_dict] *)
Definition qs_validate_from_dict (values : list value) : outcome qs_value :=
  if negb (abstract source) then
    match pk_entries (pk_attname source) values with
    | Returns pks =>
        match validate_pk_list_of_dict pks with
        | Ok qs => Returns (QSOne qs)
        | Raise e => Raises (Engine e)
        end
    | Raises e => Raises e
    end
  else
    match stack_loop values [] with
    | Returns stack =>
        queryset_union
          ((fun entry => QuerySet entry.1 (VList entry.2) false None) <$> stack)
    | Raises e => Raises e
    end.
End Validators.

(** The keys that the mappings of a list give for one model class, in the
    order of the list: each mapping paired with the class its ["model"]
    entry names. *)
Definition keys_of (mclass : model) (pairs : list (model * value)) : list value :=
  (filter (fun mv => mv.1 = mclass) pairs).*2.

(** A process state reached from [p] by direct single-key queries only,
    with the shared cache as it was. *)
Definition queried_from (p p' : process) : Prop :=
  shared p' = shared p
  /\ exists new,
      calls p' = calls p ++ new
      /\ Forall (fun q => exists m v, q = SingleGet m v) new.

(** The entity type a query is sent for. *)
Definition call_model (c : db_call) : model :=
  match c with
  | BatchFetch m _ => m
  | SingleGet m _ => m
  end.

(** Further closed examples. *)
Module Sample.
(** A cache that holds [User 5], and a process whose shared cache is it. *)
Definition user5 : Cache :=
  {[ Fixture.User := {[ KInt 5 := Fixture.row Fixture.User 5 ]} ]}.

Definition warm : process := Process user5 [].

(** A shared cache that holds [User 5] and [Country 9], and a validated
    [Post] instance whose placeholders are bound to it: [owner], [address]
    and [children] were set, [editor] was not; [address] is a nested
    instance, [children] a list with one. *)
Definition ready : process :=
  Process {[ Fixture.User := {[ KInt 5 := Fixture.row Fixture.User 5 ]};
             Fixture.Country := {[ KInt 9 := Fixture.row Fixture.Country 9 ]} ]}
    [].

Definition post : pyobj :=
  PModel ["owner"; "address"; "children"]
    [("owner", PVal (VLazy SharedCache Fixture.User (VInt 5)));
     ("editor", PVal (VLazy SharedCache Fixture.User (VInt 6)));
     ("address",
      PModel ["country"]
        [("country", PVal (VLazy SharedCache Fixture.Country (VInt 9)))]);
     ("children",
      PList [PModel ["owner"]
               [("owner", PVal (VLazy SharedCache Fixture.User (VInt 5)))]])].

(** A model registry that knows [User] and [Item], and mappings that name
    their class. *)
Definition registry (names : value) : outcome model :=
  match names with
  | VList [VStr "auth"; VStr "User"] => Returns Fixture.User
  | VList [VStr "shop"; VStr "Item"] => Returns Fixture.Item
  | _ => Raises LookupError
  end.

Definition tagged (app name : string) (pk : Z) : value :=
  VDict [("model", VList [VStr app; VStr name]); ("id", VInt pk)].

Definition mixed : list value :=
  [tagged "auth" "User" 5; tagged "shop" "Item" 1; tagged "auth" "User" 6].

(** [Order]: a nested [Address], then a single reference to [User], then
    another nested [Address]; every other type as in [Fixture.related]. *)
Definition orders (s : schema) : list (string * RelInfo) :=
  if String.eqb s "Order" then
    [("address", RIField "Address"); ("buyer", FKField Fixture.User);
     ("notes", RIField "Address")]
  else Fixture.related s.



Definition gone99 : entity := Entity Fixture.User (KInt 99) "deleted since".

Definition ghost : process :=
  Process {[ Fixture.User := {[ KInt 99 := gone99 ]} ]} [].


End Sample.

(** * Properties *)

(** ** Disabled pass-through *)

(** C4: with the cache-enabled flag false, [build_cache] returns its input
    unchanged for every input, and the process state (the shared cache and
    the queries made) is unchanged too: nothing is collected, fetched or
    substituted. *)
Theorem build_cache_disabled :
  forall (shared_flag : bool) (inspect : schema -> list (string * RelInfo))
         (limit : nat) (db : database) (self : schema) (data : value) (p : process),
    build_cache (Settings false shared_flag) inspect limit db self data p
    = (Ok data, p).
Proof. reflexivity. Qed.

(** ** Abstract targets *)

(** C10: when the declared target is abstract, validating a bare primary key
    raises, and so does validating a list of bare primary keys. *)
Theorem abstract_target_raises :
  forall (db : database) (source : model),
    abstract source = true ->
    (forall pk model_class,
        validate_from_pk db source pk model_class = Raise ValueError)
    /\ (forall values, validate_from_pk_list source values = Raise ValueError).
Proof.
  intros db source Habs; split; intros;
    [unfold validate_from_pk | unfold validate_from_pk_list];
    now rewrite Habs.
Qed.

Lemma abstract_target_raises_witness :
  abstract Fixture.Shape = true
  /\ validate_from_pk Fixture.rows Fixture.Shape (KInt 3) Fixture.Shape
     = Raise ValueError
  /\ validate_from_pk_list Fixture.Shape [KInt 3; KInt 4] = Raise ValueError.
Proof.
  split; [reflexivity |].
  destruct (abstract_target_raises Fixture.rows Fixture.Shape eq_refl) as [H1 H2].
  split; [apply H1 | apply H2].
Defined.

(** ** [Cache.flush] *)

Lemma flush_none (self : Cache) : flush FNone self = ∅.
Proof. reflexivity. Qed.

Lemma flush_class (self : Cache) (m : model) : flush (FClass m) self = delete m self.
Proof.
  unfold flush; simpl. case_bool_decide as H; [reflexivity |].
  symmetry; apply delete_id.
  destruct (self !! m) eqn:E; [exfalso; apply H; eauto | reflexivity].
Qed.

(** Flushing by class removes that class and leaves every other entry. *)
Lemma flush_class_lookup (self : Cache) (m m' : model) :
  flush (FClass m) self !! m' = if decide (m = m') then None else self !! m'.
Proof. rewrite flush_class. apply lookup_delete. Qed.

(** Flushing by a non-empty name looks the name up among the cached classes
    and then tests the name itself, not the class, for membership: no entry
    is removed. *)
Lemma flush_name (self : Cache) (s : string) :
  flush (FStr s) self = if String.eqb s "" then ∅ else self.
Proof.
  unfold flush; simpl. destruct (String.eqb s ""); simpl; [reflexivity |].
  unfold next_name. now destruct (filter _ _).
Qed.

(** C7, at the failing input: the cache holds one [User] entry and is
    flushed by the name ["User"]; the entry is still there afterwards, while
    flushing by the class object removes it. *)
Theorem flush_by_name_keeps_entry :
  let cache : Cache := {[ Fixture.User := {[ KInt 5 := Fixture.row Fixture.User 5 ]} ]} in
  flush (FStr "User") cache = cache
  /\ flush (FStr "User") cache !! Fixture.User
     = Some {[ KInt 5 := Fixture.row Fixture.User 5 ]}
  /\ flush (FClass Fixture.User) cache !! Fixture.User = None.
Proof.
  intros cache. rewrite flush_name; simpl.
  split; [reflexivity |]. split.
  - subst cache. apply lookup_singleton_eq.
  - rewrite flush_class_lookup. now rewrite decide_True.
Qed.

(** ** [ValueWithCache.retrieve] on a key sequence *)

Lemma cached_hits_keys (cache : gmap key entity) (keys : list key) :
  cached_hits cache (value_of_key <$> keys)
  = Ok (omap (fun k => cache !! k) keys).
Proof.
  induction keys as [| k keys IH]; [reflexivity |].
  rewrite fmap_cons. cbn [cached_hits omap list_omap].
  assert (Hh : hashable (value_of_key k) = true) by now destruct k.
  assert (Hk : as_key (value_of_key k) = Some k) by now destruct k.
  rewrite Hh, IH, Hk; simpl. now destruct (cache !! k).
Qed.

Lemma omap_lookup_empty (keys : list key) :
  omap (fun k => (∅ : gmap key entity) !! k) keys = [].
Proof. induction keys; simpl; [reflexivity |]. now rewrite lookup_empty. Qed.

(** C1, as the code has it: resolving a placeholder bound to a sequence of
    keys yields the queryset whose rows are the cached entities of the keys
    that the batch cache holds for the target type, in the original key
    order and with duplicates kept; a key the cache does not hold is left
    out, and no query is sent to the persistence layer. *)
Theorem retrieve_key_sequence :
  forall (db : database) (p : process) (c : cache_ref) (m : model)
         (keys : list key),
    retrieve db p c m (VList (value_of_key <$> keys))
    = (Ok (RQuerySet
             (QuerySet m (VList (value_of_key <$> keys)) false
                (Some (omap (fun k => default ∅ (cache_of p c !! m) !! k) keys)))),
       p).
Proof.
  intros db p c m keys. unfold retrieve; simpl.
  destruct (cache_of p c !! m) as [cm |]; simpl.
  - destruct (decide (cm = ∅)) as [-> | Hne]; simpl.
    + now rewrite omap_lookup_empty.
    + now rewrite cached_hits_keys.
  - now rewrite omap_lookup_empty.
Qed.

(** C1, counterexample: the cache holds [Item 1], the keys are [1, 2, 1] and
    the persistence layer has [Item 2].  The resolved rows are the two cached
    hits only; the merge of cached hits with a fetch of the remaining key
    would have three rows. *)
Lemma retrieve_omits_uncached_key :
  let cache : Cache := {[ Fixture.Item := {[ KInt 1 := Fixture.row Fixture.Item 1 ]} ]} in
  let keys := [KInt 1; KInt 2; KInt 1] in
  exists qs,
    retrieve Fixture.rows Fixture.fresh (OwnCache cache) Fixture.Item
      (VList (value_of_key <$> keys))
    = (Ok (RQuerySet qs), Fixture.fresh)
    /\ qs_result_cache qs
       = Some [Fixture.row Fixture.Item 1; Fixture.row Fixture.Item 1]
    /\ merged_in_key_order Fixture.rows {[ KInt 1 := Fixture.row Fixture.Item 1 ]}
         Fixture.Item keys
       = [Fixture.row Fixture.Item 1; Fixture.row Fixture.Item 2;
          Fixture.row Fixture.Item 1]
    /\ qs_result_cache qs
       <> Some (merged_in_key_order Fixture.rows
                  {[ KInt 1 := Fixture.row Fixture.Item 1 ]} Fixture.Item keys).
Proof.
  intros cache keys.
  exists (QuerySet Fixture.Item (VList (value_of_key <$> keys)) false
            (Some [Fixture.row Fixture.Item 1; Fixture.row Fixture.Item 1])).
  split; [apply retrieve_key_sequence |].
  split; [reflexivity |].
  split; [vm_compute; reflexivity |].
  vm_compute. discriminate.
Qed.

(** ** The recursion guard *)

Section Guard.
Variable inspect : schema -> list (string * RelInfo).
Variable rec : schema -> value -> result fk_map.

(** Once a field of the node trips the guard, the loop over the fields can
    only end with the empty map, whatever was accumulated before. *)
Lemma fields_loop_guard (data : value) (fields : list (string * RelInfo)) :
  forall (acc fk : fk_map),
    fields_loop rec data fields acc = Ok fk ->
    existsb (guard_hit data) fields = true ->
    fk = [].
Proof.
  induction fields as [| [field_name info] rest IH]; intros acc fk Hloop Hhit;
    [discriminate |].
  simpl in Hhit. apply orb_true_iff in Hhit.
  destruct info as [m | m | s | s]; cbn [fields_loop] in Hloop;
    unfold guard_hit, fk_value in Hhit; cbn [fst snd] in Hhit.
  - destruct (truthy _) eqn:Ht; cbn [andb] in Hhit.
    + destruct (is_lazy _) eqn:Hl.
      * now inversion Hloop.
      * destruct Hhit as [Hhit | Hhit]; [discriminate | eauto].
    + destruct Hhit as [Hhit | Hhit]; [discriminate | eauto].
  - destruct (pointed_getter data field_name (VList [])) eqn:Hv;
      try (destruct Hhit as [Hhit | Hhit]; [discriminate | eauto]).
    destruct (existsb is_lazy l) eqn:Hl.
    + now inversion Hloop.
    + destruct Hhit as [Hhit | Hhit]; [discriminate | eauto].
  - destruct Hhit as [Hhit | Hhit]; [discriminate |].
    destruct (pointed_getter data field_name (VList [])); eauto.
    destruct (rl_loop rec s field_name l 0 acc) eqn:Hrl; [| discriminate].
    simpl in Hloop. eauto.
  - destruct Hhit as [Hhit | Hhit]; [discriminate |].
    destruct (rec s (pointed_getter data field_name VNone)); [| discriminate].
    simpl in Hloop. eauto.
Qed.

End Guard.

(** C8, counterexample: [owner] holds the raw key 5 and [editor] already
    holds a placeholder.  On its own [owner] is collected; with [editor]
    next to it the node yields nothing, so the reference of the other field
    is not returned. *)
Lemma guard_drops_other_fields :
  let lazy := VLazy SharedCache Fixture.User (VInt 6) in
  get_all_fk_data Fixture.related 3 "Post" (VDict [("owner", VInt 5)])
  = Ok [(Fixture.User, [("owner", VInt 5)]); (Fixture.Item, [("items", VList [])])]
  /\ get_all_fk_data Fixture.related 3 "Post"
       (VDict [("owner", VInt 5); ("editor", lazy)])
     = Ok []
  /\ ~ (exists fk,
           get_all_fk_data Fixture.related 3 "Post"
             (VDict [("owner", VInt 5); ("editor", lazy)]) = Ok fk
           /\ In ("owner", VInt 5) (fk_lookup Fixture.User fk)).
Proof.
  intros lazy.
  split; [vm_compute; reflexivity |].
  split; [vm_compute; reflexivity |].
  intros [fk [Hfk Hin]].
  assert (H : get_all_fk_data Fixture.related 3 "Post"
                (VDict [("owner", VInt 5); ("editor", lazy)]) = Ok [])
    by (vm_compute; reflexivity).
  rewrite H in Hfk. inversion Hfk; subst fk. exact Hin.
Qed.

(** ** The fetch loop and the shared cache *)

Lemma py_eq_key_refl (k : key) : py_eq (value_of_key k) (value_of_key k) = true.
Proof. destruct k; simpl; [apply Z.eqb_refl | apply String.eqb_refl]. Qed.

Lemma by_pk_fold_lookup (l : list entity) :
  forall (acc : gmap key entity) (k : key) (e : entity),
    fold_left (fun acc obj => <[e_pk obj := obj]> acc) l acc !! k = Some e ->
    (e ∈ l /\ e_pk e = k) \/ acc !! k = Some e.
Proof.
  induction l as [| x l IH]; intros acc k e H; simpl in H; [now right |].
  apply IH in H as [[Hin Hk] | H].
  - left; split; [now apply list_elem_of_further | exact Hk].
  - rewrite lookup_insert in H. case_decide as Hd.
    + inversion H; subst. left; split; [apply list_elem_of_here | reflexivity].
    + now right.
Qed.

Lemma by_pk_fold_dom (l : list entity) :
  forall (acc : gmap key entity) (k : key),
    (is_Some (acc !! k) \/ exists e, e ∈ l /\ e_pk e = k) ->
    is_Some (fold_left (fun acc obj => <[e_pk obj := obj]> acc) l acc !! k).
Proof.
  induction l as [| x l IH]; intros acc k H; simpl.
  - destruct H as [H | [e [Hin _]]]; [exact H | now apply elem_of_nil in Hin].
  - apply IH. destruct H as [H | [e [Hin Hk]]].
    + left. rewrite lookup_insert. case_decide; [eauto | exact H].
    + apply elem_of_cons in Hin as [-> | Hin].
      * left. rewrite <- Hk. rewrite lookup_insert_eq. eauto.
      * right; eauto.
Qed.

Lemma by_pk_lookup (l : list entity) (k : key) (e : entity) :
  by_pk l !! k = Some e -> e ∈ l /\ e_pk e = k.
Proof.
  intros H. apply by_pk_fold_lookup in H as [H | H]; [exact H |].
  now rewrite lookup_empty in H.
Qed.

Lemma by_pk_dom (l : list entity) (e : entity) :
  e ∈ l -> is_Some (by_pk l !! e_pk e).
Proof. intros H. apply by_pk_fold_dom. right; eauto. Qed.

Lemma cached_entities_insert (cache : Cache) (m : model) (cm : gmap key entity)
    (e : entity) :
  e ∈ cached_entities (<[m := cm]> cache) m <-> exists k, cm !! k = Some e.
Proof.
  unfold cached_entities. rewrite lookup_insert_eq; simpl.
  rewrite list_elem_of_fmap. split.
  - intros [[k e'] [-> Hin]]. apply elem_of_map_to_list in Hin. eauto.
  - intros [k Hk]. exists (k, e). split; [reflexivity |].
    now apply elem_of_map_to_list.
Qed.

Lemma cached_entities_insert_ne (cache : Cache) (m m' : model)
    (cm : gmap key entity) :
  m <> m' -> cached_entities (<[m := cm]> cache) m' = cached_entities cache m'.
Proof. intros H. unfold cached_entities. now rewrite lookup_insert_ne. Qed.

(** Storing [by_pk models] for a model keeps every key that one of the
    [models] carries. *)
Lemma holds_pk_by_pk (cache : Cache) (m : model) (models : list entity) (k : key) :
  (exists e, e ∈ models /\ e_pk e = k) ->
  holds_pk (<[m := by_pk models]> cache) m k.
Proof.
  intros [e [Hin Hk]]. destruct (by_pk_dom models e Hin) as [e' He'].
  exists e'. split.
  - apply cached_entities_insert. eauto.
  - apply by_pk_lookup in He' as [_ He']. congruence.
Qed.

Lemma split_values_models (m : model) (values : list value) :
  forall models pks models' pks',
    split_values m values models pks = (models', pks') ->
    forall e, e ∈ models -> e ∈ models'.
Proof.
  induction values as [| v values IH]; intros models pks models' pks' H e He;
    simpl in H.
  - now inversion H; subst.
  - destruct v; try (eapply IH; [exact H | exact He]).
    case_bool_decide; (eapply IH; [exact H |]); [| exact He].
    apply elem_of_app; now left.
Qed.

Lemma as_key_value_of_key (k : key) : as_key (value_of_key k) = Some k.
Proof. now destruct k. Qed.

Lemma as_key_Some (v : value) (k : key) : as_key v = Some k -> v = value_of_key k.
Proof. destruct v; simpl; intros H; inversion H; reflexivity. Qed.

Lemma objects_filter_found (db : database) (m : model) (pks : list value) :
  forall found k e,
    objects_filter db m pks = Ok found ->
    value_of_key k ∈ pks ->
    db_get db m k = Some e ->
    e ∈ found.
Proof.
  induction pks as [| pk pks IH]; intros found k e H Hin Hdb.
  - now apply elem_of_nil in Hin.
  - simpl in H. destruct (as_key pk) as [k' |] eqn:Hk; [| discriminate].
    destruct (objects_filter db m pks) as [rest |]; [| discriminate].
    simpl in H. apply elem_of_cons in Hin as [Heq | Hin].
    + subst pk. rewrite as_key_value_of_key in Hk. inversion Hk; subst k'.
      rewrite Hdb in H. inversion H. apply list_elem_of_here.
    + specialize (IH rest k e eq_refl Hin Hdb).
      destruct (db_get db m k'); inversion H; subst;
        [now apply list_elem_of_further | exact IH].
Qed.

Lemma db_get_pk (db : database) (m : model) (k : key) (e : entity) :
  db_get db m k = Some e -> e_pk e = k /\ e_model e = m.
Proof.
  unfold db_get. destruct (db m k); simpl; intros H; inversion H; now split.
Qed.

(** One turn of the fetch loop keeps every key the cache held. *)
Lemma holds_pk_step (cache : Cache) (m m' : model) (models : list entity) (k : key) :
  (forall e, e ∈ cached_entities cache m -> e ∈ models) ->
  holds_pk cache m' k ->
  holds_pk (<[m := by_pk models]> cache) m' k.
Proof.
  intros Hsub [e [Hin Hk]]. destruct (decide (m = m')) as [<- | Hne].
  - apply holds_pk_by_pk. eauto.
  - exists e. now rewrite cached_entities_insert_ne.
Qed.

(** The fetch loop only adds batch fetches to the log; it keeps what the
    cache held, never asks for a key the cache held when the loop started,
    and ends up holding every row it was given. *)
Lemma fetch_loop_log (db : database) (plainset : plainset_t) :
  forall cache log failure cache' log',
    fetch_loop db plainset cache log = (failure, cache', log') ->
    exists new,
      log' = log ++ new
      /\ (forall m k, holds_pk cache m k -> holds_pk cache' m k)
      /\ (forall m pks,
             BatchFetch m pks ∈ new ->
             (forall k, holds_pk cache m k -> value_of_key k ∉ pks)
             /\ (forall k e, value_of_key k ∈ pks -> db_get db m k = Some e ->
                             holds_pk cache' m k))
      /\ (forall m pk, SingleGet m pk ∉ new).
Proof.
  induction plainset as [| [m values] rest IH]; intros cache log failure cache' log' H.
  - inversion H; subst. exists []. rewrite app_nil_r.
    split; [reflexivity |]. split; [auto |].
    split; intros ? ? Hin; now apply elem_of_nil in Hin.
  - cbn [fetch_loop] in H.
    destruct (split_values m values (map_to_list (default ∅ (cache !! m))).*2 [])
      as [models pks0] eqn:Hsplit.
    assert (Hsub : forall e, e ∈ cached_entities cache m -> e ∈ models)
      by (intros e He; eapply split_values_models; eauto).
    set (pks := filter
                  (fun pk => existsb (py_eq pk)
                               ((fun obj => value_of_key (e_pk obj)) <$> models) = false)
                  pks0) in *.
    assert (Hspared : forall k, holds_pk cache m k -> value_of_key k ∉ pks).
    { intros k [e [Hin Hk]] Hmem. apply list_elem_of_filter in Hmem as [Hno _].
      assert (Hex : existsb (py_eq (value_of_key k))
                      ((fun obj => value_of_key (e_pk obj)) <$> models) = true).
      { apply existsb_exists. exists (value_of_key k). split.
        - apply list_elem_of_In, list_elem_of_fmap. exists e.
          split; [now rewrite Hk | now apply Hsub].
        - apply py_eq_key_refl. }
      congruence. }
    destruct pks as [| pk pks'] eqn:Hpks.
    + apply IH in H as [new [Hlog [Hmono [Hcalls Hsingle]]]].
      exists new. split; [exact Hlog |]. split; [| split; [| exact Hsingle]].
      * intros m' k Hh. apply Hmono. now apply holds_pk_step.
      * intros m' pks1 Hin. destruct (Hcalls m' pks1 Hin) as [Hc1 Hc2].
        split; [| exact Hc2].
        intros k Hh. apply Hc1. now apply holds_pk_step.
    + destruct (objects_filter db m (pk :: pks')) as [found | e] eqn:Hfound.
      * apply IH in H as [new [Hlog [Hmono [Hcalls Hsingle]]]].
        assert (Hsub' : forall e, e ∈ cached_entities cache m -> e ∈ models ++ found)
          by (intros e He; apply elem_of_app; left; now apply Hsub).
        exists (BatchFetch m (pk :: pks') :: new).
        split; [now rewrite Hlog, <- app_assoc |].
        split; [| split].
        -- intros m' k Hh. apply Hmono. now apply holds_pk_step.
        -- intros m' pks1 Hin. apply elem_of_cons in Hin as [Heq | Hin].
           ++ inversion Heq; subst m' pks1. split; [exact Hspared |].
              intros k e Hk Hdb. apply Hmono. apply holds_pk_by_pk.
              exists e. split.
              ** apply elem_of_app; right. eapply objects_filter_found; eauto.
              ** now apply db_get_pk in Hdb as [? _].
           ++ destruct (Hcalls m' pks1 Hin) as [Hc1 Hc2]. split; [| exact Hc2].
              intros k Hh. apply Hc1. now apply holds_pk_step.
        -- intros m' pk' Hin. apply elem_of_cons in Hin as [Heq | Hin];
             [discriminate | now apply (Hsingle m' pk')].
      * inversion H; subst. exists []. rewrite app_nil_r.
        split; [reflexivity |]. split; [auto |].
        split; intros ? ? Hin; now apply elem_of_nil in Hin.
Qed.

(** The cache a build pass works on: the singleton, or a new empty one. *)
Lemma build_cache_log (cfg : settings) (inspect : schema -> list (string * RelInfo))
    (limit : nat) (db : database) (self : schema) (data : value)
    (p p' : process) (r : result value) :
  build_cache cfg inspect limit db self data p = (r, p') ->
  let used : Cache := if STRUCTURED_FIELD_SHARED_CACHE cfg then shared p else ∅ in
  exists new,
    calls p' = calls p ++ new
    /\ (forall m pks,
           BatchFetch m pks ∈ new ->
           forall k, holds_pk used m k -> value_of_key k ∉ pks)
    /\ (STRUCTURED_FIELD_SHARED_CACHE cfg = true ->
        forall m pks k e,
          BatchFetch m pks ∈ new -> value_of_key k ∈ pks ->
          db_get db m k = Some e -> holds_pk (shared p') m k)
    /\ (forall m pk, SingleGet m pk ∉ new).
Proof.
  intros H used. unfold build_cache in H.
  assert (Hnone : forall q : process, exists new : list db_call,
             calls q = calls q ++ new
             /\ (forall m pks, BatchFetch m pks ∈ new ->
                               forall k, holds_pk used m k -> value_of_key k ∉ pks)
             /\ (STRUCTURED_FIELD_SHARED_CACHE cfg = true ->
                 forall m pks k e,
                   BatchFetch m pks ∈ new -> value_of_key k ∈ pks ->
                   db_get db m k = Some e -> holds_pk (shared q) m k)
             /\ (forall m pk, SingleGet m pk ∉ new)).
  { intros q. exists []. rewrite app_nil_r. split; [reflexivity |].
    split; [| split].
    - intros ? ? Hin; now apply elem_of_nil in Hin.
    - intros _ ? ? ? ? Hin; now apply elem_of_nil in Hin.
    - intros ? ? Hin; now apply elem_of_nil in Hin. }
  destruct (negb (STRUCTURED_FIELD_CACHE_ENABLED cfg));
    [inversion H; subst; apply Hnone |].
  destruct (get_all_fk_data inspect limit self data) as [fk_data |];
    [| inversion H; subst; apply Hnone].
  destruct (build_plainset fk_data []) as [plainset |];
    [| inversion H; subst; apply Hnone].
  fold used in H.
  destruct (fetch_loop db plainset used (calls p)) as [[failure cache] log] eqn:Hloop.
  apply fetch_loop_log in Hloop as [new [Hlog [Hmono [Hcalls Hsingle]]]].
  assert (Hp' : calls p' = log
                /\ shared p' = if STRUCTURED_FIELD_SHARED_CACHE cfg then cache
                               else shared p)
    by (destruct failure; inversion H; subst; now split).
  destruct Hp' as [Hp1 Hp2].
  exists new. split; [congruence |]. split; [| split; [| exact Hsingle]].
  - intros m pks Hin. now apply Hcalls.
  - intros Hshared m pks k e Hin Hk Hdb. rewrite Hp2, Hshared.
    destruct (Hcalls m pks Hin) as [_ Hc]. eauto.
Qed.

(** C6: two build passes in a row on the shared cache.  What the first pass
    fetched and found is held by the shared cache when it ends, and the
    second pass sends no fetch for a key whose entity the shared cache holds
    at that point: none of its batch fetches for that type names the key,
    and a build pass makes no single-key query at all. *)
Theorem shared_cache_no_refetch :
  forall (inspect : schema -> list (string * RelInfo)) (limit : nat) (db : database)
         (self1 self2 : schema) (data1 data2 : value)
         (p0 p1 p2 : process) (r1 r2 : result value),
    build_cache (Settings true true) inspect limit db self1 data1 p0 = (r1, p1) ->
    build_cache (Settings true true) inspect limit db self2 data2 p1 = (r2, p2) ->
    exists new1 new2,
      calls p1 = calls p0 ++ new1
      /\ calls p2 = calls p1 ++ new2
      /\ (forall m pks k e,
             BatchFetch m pks ∈ new1 -> value_of_key k ∈ pks ->
             db_get db m k = Some e -> holds_pk (shared p1) m k)
      /\ (forall m k,
             holds_pk (shared p1) m k ->
             forall pks, BatchFetch m pks ∈ new2 -> value_of_key k ∉ pks)
      /\ (forall m pk, SingleGet m pk ∉ new2).
Proof.
  intros inspect limit db self1 self2 data1 data2 p0 p1 p2 r1 r2 H1 H2.
  apply build_cache_log in H1 as [new1 [Hl1 [_ [Hheld _]]]].
  apply build_cache_log in H2 as [new2 [Hl2 [Hspared [_ Hsingle]]]].
  simpl in Hheld, Hspared.
  exists new1, new2. repeat split; eauto.
Qed.

Lemma shared_cache_no_refetch_witness :
  calls Fixture.pass2.2
  = [BatchFetch Fixture.User [VInt 5]; BatchFetch Fixture.User [VInt 6]]
  /\ exists new1 new2,
      calls Fixture.pass1.2 = calls Fixture.fresh ++ new1
      /\ calls Fixture.pass2.2 = calls Fixture.pass1.2 ++ new2
      /\ (forall m pks k e,
             BatchFetch m pks ∈ new1 -> value_of_key k ∈ pks ->
             db_get Fixture.rows m k = Some e ->
             holds_pk (shared Fixture.pass1.2) m k)
      /\ (forall m k,
             holds_pk (shared Fixture.pass1.2) m k ->
             forall pks, BatchFetch m pks ∈ new2 -> value_of_key k ∉ pks)
      /\ (forall m pk, SingleGet m pk ∉ new2).
Proof.
  split; [vm_compute; reflexivity |].
  apply (shared_cache_no_refetch Fixture.related 5 Fixture.rows "Post" "Post"
           (VDict [("owner", VInt 5)])
           (VDict [("owner", VInt 5); ("editor", VInt 6)])
           Fixture.fresh Fixture.pass1.2 Fixture.pass2.2
           Fixture.pass1.1 Fixture.pass2.1);
    vm_compute; reflexivity.
Defined.

(** ** Deduplication of the keys of a pass *)

Lemma py_eq_sym (a b : value) : py_eq a b = py_eq b a.
Proof.
  destruct a, b; simpl; try reflexivity.
  - apply Z.eqb_sym.
  - apply String.eqb_sym.
  - f_equal; apply bool_decide_ext; split; congruence.
Qed.


Lemma py_eq_int (z : Z) (v : value) : py_eq (VInt z) v = true -> v = VInt z.
Proof.
  destruct v; simpl; try discriminate. intros H. apply Z.eqb_eq in H. now subst.
Qed.

Lemma py_distinct_snoc (s : list value) (v : value) :
  py_distinct s -> existsb (py_eq v) s = false -> py_distinct (s ++ [v]).
Proof.
  induction s as [| a s IH]; simpl; intros Hd Hex.
  - split; [intros b Hb; now apply elem_of_nil in Hb | exact I].
  - apply orb_false_iff in Hex as [Hva Hex]. destruct Hd as [Ha Hd].
    split; [| now apply IH].
    intros b Hb. apply elem_of_app in Hb as [Hb | Hb]; [now apply Ha |].
    apply list_elem_of_singleton in Hb; subst b. now rewrite py_eq_sym.
Qed.



Lemma filter_length_le {A} (P Q : A -> Prop) `{forall x, Decision (P x)}
    `{forall x, Decision (Q x)} (l : list A) :
  (length (filter P (filter Q l)) <= length (filter P l))%nat.
Proof.
  induction l as [| a l IH]; [simpl; lia |].
  rewrite (filter_cons Q). rewrite (filter_cons P a l).
  destruct (decide (Q a)); [rewrite filter_cons |];
    destruct (decide (P a)); simpl; lia.
Qed.


Lemma set_add_adds (v : value) : adds (set_add v) [v].
Proof.
  intros s s' H. unfold set_add in H.
  destruct (hashable v); [| discriminate].
  destruct (existsb (py_eq v) s) eqn:Hex; inversion H; subst s'; clear H.
  - split; [auto |]. split; [auto |]. split; [auto |].
    intros v' Hv'. apply list_elem_of_singleton in Hv'; subst v'.
    apply existsb_exists in Hex as [a [Ha Hva]].
    exists a. split; [now apply list_elem_of_In | now right].
  - split; [intros Hd; now apply py_distinct_snoc |].
    split; [intros x Hx; apply elem_of_app; now left |].
    split; [intros x Hx; now apply elem_of_app in Hx |].
    intros v' Hv'. apply list_elem_of_singleton in Hv'; subst v'.
    exists v. split; [apply elem_of_app; right; apply list_elem_of_here | now left].
Qed.

Lemma set_update_adds (items : list value) : adds (set_update items) items.
Proof.
  induction items as [| v items IH]; intros s s' H; simpl in H.
  - inversion H; subst s'. split; [auto |]. split; [auto |]. split; [auto |].
    intros v Hv. now apply elem_of_nil in Hv.
  - destruct (set_add v s) as [s1 |] eqn:Hadd; [| discriminate]. simpl in H.
    destruct (set_add_adds v s s1 Hadd) as [Hd1 [Hin1 [Hout1 Hnew1]]].
    destruct (IH s1 s' H) as [Hd2 [Hin2 [Hout2 Hnew2]]].
    split; [auto |]. split; [auto |]. split.
    + intros x Hx. apply Hout2 in Hx as [Hx | Hx].
      * apply Hout1 in Hx as [Hx | Hx]; [now left |].
        apply list_elem_of_singleton in Hx; subst x. right; apply list_elem_of_here.
      * right; now apply list_elem_of_further.
    + intros v' Hv'. apply elem_of_cons in Hv' as [-> | Hv']; [| now apply Hnew2].
      destruct (Hnew1 v (list_elem_of_here _ _)) as [a [Ha Hva]].
      exists a. split; [now apply Hin2 | exact Hva].
Qed.

(** The change one tuple makes to the set of its model. *)
Lemma plainset_tuples_step (m : model) (t : tuple) (r : list tuple)
    (plainset : plainset_t) :
  plainset_tuples m (t :: r) plainset
  = (plainset_at m (set_update (tuple_values t)) plainset
       ≫= plainset_tuples m r).
Proof.
  cbn [plainset_tuples]. unfold tuple_values.
  destruct (sequence_items t.2) as [items |]; [reflexivity |].
  assert (Heq : forall ps, plainset_at m (set_add t.2) ps
                           = plainset_at m (set_update [t.2]) ps).
  { induction ps as [| [m' s'] ps IHps]; simpl.
    - now destruct (set_add t.2 []).
    - destruct (decide (m' = m)); [now destruct (set_add t.2 s') |].
      now rewrite IHps. }
  now rewrite Heq.
Qed.

Lemma plainset_at_get (m : model) (f : list value -> result (list value))
    (plainset plainset' : plainset_t) :
  plainset_at m f plainset = Ok plainset' ->
  f (plainset_get m plainset) = Ok (plainset_get m plainset')
  /\ (forall m', m' <> m -> plainset_get m' plainset' = plainset_get m' plainset)
  /\ (forall m', m' ∈ plainset'.*1 <-> m' = m \/ m' ∈ plainset.*1)
  /\ (NoDup plainset.*1 -> NoDup plainset'.*1).
Proof.
  revert plainset'. induction plainset as [| [m0 s0] ps IH]; intros ps' H; simpl in H.
  - destruct (f []) as [s |] eqn:Hf; [| discriminate]. inversion H; subst ps'.
    simpl. rewrite decide_True by reflexivity.
    split; [exact Hf |]. split; [| split].
    + intros m' Hne. now rewrite decide_False by congruence.
    + intros m'. rewrite list_elem_of_singleton, elem_of_nil. tauto.
    + intros _. apply NoDup_singleton.
  - destruct (decide (m0 = m)) as [-> | Hne].
    + destruct (f s0) as [s |] eqn:Hf; [| discriminate]. inversion H; subst ps'.
      simpl. destruct (decide (m = m)) as [_ | ?]; [| congruence].
      split; [exact Hf |]. split; [| split].
      * intros m' Hne. now rewrite !decide_False by congruence.
      * intros m'. rewrite elem_of_cons. tauto.
      * auto.
    + destruct (plainset_at m f ps) as [ps1 |] eqn:Hat; [| discriminate].
      inversion H; subst ps'. destruct (IH ps1 eq_refl) as [Hg [Hother [Hmods Hnd]]].
      simpl. rewrite !decide_False by exact Hne.
      split; [exact Hg |]. split; [| split].
      * intros m' Hm'. destruct (decide (m0 = m')); [reflexivity | now apply Hother].
      * intros m'. rewrite !elem_of_cons, Hmods. tauto.
      * intros Hd. pose proof (NoDup_cons_1_1 _ _ Hd) as Hnot.
        apply NoDup_cons_1_2 in Hd.
        apply NoDup_cons_2; [| now apply Hnd].
        rewrite Hmods. intros [-> | Hin]; [now apply Hne | now apply Hnot].
Qed.

Lemma plainset_at_adds (m : model) (f : list value -> result (list value))
    (added : list value) (plainset plainset' : plainset_t) :
  adds f added ->
  plainset_at m f plainset = Ok plainset' ->
  (plainset_ok plainset -> plainset_ok plainset')
  /\ (forall m' x, x ∈ plainset_get m' plainset -> x ∈ plainset_get m' plainset')
  /\ (forall m' x, x ∈ plainset_get m' plainset' ->
                   x ∈ plainset_get m' plainset \/ (m' = m /\ x ∈ added))
  /\ (forall v, v ∈ added ->
                exists v', v' ∈ plainset_get m plainset'
                           /\ (v' = v \/ py_eq v v' = true)).
Proof.
  intros Hadds Hat.
  destruct (plainset_at_get m f plainset plainset' Hat) as [Hf [Hother [_ Hnd]]].
  destruct (Hadds _ _ Hf) as [Hd [Hin [Hout Hnew]]].
  split; [| split; [| split]].
  - intros [Hnd0 Hd0]. split; [now apply Hnd |].
    intros m'. destruct (decide (m' = m)) as [-> | Hne]; [now apply Hd |].
    rewrite Hother by exact Hne. apply Hd0.
  - intros m' x Hx. destruct (decide (m' = m)) as [-> | Hne]; [now apply Hin |].
    now rewrite Hother.
  - intros m' x Hx. destruct (decide (m' = m)) as [-> | Hne].
    + apply Hout in Hx as [Hx | Hx]; [now left | now right].
    + left. now rewrite <- Hother.
  - exact Hnew.
Qed.

Lemma plainset_tuples_spec (m : model) (touples : list tuple) :
  forall plainset plainset',
    plainset_tuples m touples plainset = Ok plainset' ->
    (plainset_ok plainset -> plainset_ok plainset')
    /\ (forall m' x, x ∈ plainset_get m' plainset -> x ∈ plainset_get m' plainset')
    /\ (forall m' x, x ∈ plainset_get m' plainset' ->
                     x ∈ plainset_get m' plainset
                     \/ (m' = m /\ exists t, t ∈ touples /\ x ∈ tuple_values t))
    /\ (forall t v, t ∈ touples -> v ∈ tuple_values t ->
                    exists v', v' ∈ plainset_get m plainset'
                               /\ (v' = v \/ py_eq v v' = true)).
Proof.
  induction touples as [| t r IH]; intros ps ps' H.
  - inversion H; subst ps'. split; [auto |]. split; [auto |]. split; [auto |].
    intros t v Ht. now apply elem_of_nil in Ht.
  - rewrite plainset_tuples_step in H.
    destruct (plainset_at m (set_update (tuple_values t)) ps) as [ps1 |] eqn:Hat;
      [| discriminate].
    simpl in H.
    destruct (plainset_at_adds m _ _ ps ps1 (set_update_adds _) Hat)
      as [Hok1 [Hin1 [Hout1 Hnew1]]].
    destruct (IH ps1 ps' H) as [Hok2 [Hin2 [Hout2 Hnew2]]].
    split; [auto |]. split; [auto |]. split.
    + intros m' x Hx. apply Hout2 in Hx as [Hx | [-> [t' [Ht' Hx]]]].
      * apply Hout1 in Hx as [Hx | [-> Hx]]; [now left |].
        right. split; [reflexivity |]. exists t. split; [apply list_elem_of_here | exact Hx].
      * right. split; [reflexivity |]. exists t'.
        split; [now apply list_elem_of_further | exact Hx].
    + intros t' v Ht' Hv. apply elem_of_cons in Ht' as [-> | Ht']; [| eauto].
      destruct (Hnew1 v Hv) as [v' [Hv' Heq]]. exists v'. split; [auto | exact Heq].
Qed.

Lemma build_plainset_spec (fk_data : fk_map) :
  forall plainset plainset',
    build_plainset fk_data plainset = Ok plainset' ->
    (plainset_ok plainset -> plainset_ok plainset')
    /\ (forall m x, x ∈ plainset_get m plainset -> x ∈ plainset_get m plainset')
    /\ (forall m x, x ∈ plainset_get m plainset' ->
                    x ∈ plainset_get m plainset \/ supplies fk_data m x)
    /\ (forall m v, supplies fk_data m v ->
                    exists v', v' ∈ plainset_get m plainset'
                               /\ (v' = v \/ py_eq v v' = true)).
Proof.
  induction fk_data as [| [m ts] r IH]; intros ps ps' H.
  - inversion H; subst ps'. split; [auto |]. split; [auto |]. split; [auto |].
    intros m v [t [[ts [Hts _]] _]]. now apply elem_of_nil in Hts.
  - cbn [build_plainset] in H.
    destruct (plainset_tuples m ts ps) as [ps1 |] eqn:Htup; [| discriminate].
    simpl in H.
    destruct (plainset_tuples_spec m ts ps ps1 Htup) as [Hok1 [Hin1 [Hout1 Hnew1]]].
    destruct (IH ps1 ps' H) as [Hok2 [Hin2 [Hout2 Hnew2]]].
    split; [auto |]. split; [auto |]. split.
    + intros m' x Hx. apply Hout2 in Hx as [Hx | [t [[ts' [Hts' Ht]] Hx]]].
      * apply Hout1 in Hx as [Hx | [-> [t [Ht Hx]]]]; [now left |].
        right. exists t. split; [| exact Hx].
        exists ts. split; [apply list_elem_of_here | exact Ht].
      * right. exists t. split; [| exact Hx].
        exists ts'. split; [now apply list_elem_of_further | exact Ht].
    + intros m' v [t [[ts' [Hts' Ht]] Hv]].
      apply elem_of_cons in Hts' as [Heq | Hts'].
      * inversion Heq; subst m' ts'.
        destruct (Hnew1 t v Ht Hv) as [v' [Hv' Heq']].
        exists v'. split; [auto | exact Heq'].
      * apply Hnew2. exists t. split; [| exact Hv]. exists ts'. now split.
Qed.

Lemma split_values_spec (m : model) (values : list value) :
  forall models pks,
    split_values m values models pks
    = (models ++ omap (inst_of m) values,
       pks ++ filter (fun v => inst_of m v = None) values).
Proof.
  induction values as [| v values IH]; intros models pks.
  - simpl. now rewrite !app_nil_r.
  - cbn [split_values]. rewrite filter_cons. cbn [omap list_omap].
    destruct v; cbn [inst_of]; try (rewrite IH, decide_True by reflexivity;
                                    now rewrite <- app_assoc).
    destruct (bool_decide (e_model e = m)).
    + rewrite IH, decide_False by discriminate. now rewrite <- app_assoc.
    + rewrite IH, decide_True by reflexivity. now rewrite <- app_assoc.
Qed.

(** One turn of the fetch loop, in terms of [batch_models] and
    [batch_pks]. *)
Lemma fetch_loop_cons (db : database) (m : model) (values : list value)
    (rest : plainset_t) (cache : Cache) (log : list db_call) :
  fetch_loop db ((m, values) :: rest) cache log
  = match batch_pks cache m values with
    | [] => fetch_loop db rest (<[m := by_pk (batch_models cache m values)]> cache) log
    | _ =>
        match objects_filter db m (batch_pks cache m values) with
        | Ok found =>
            fetch_loop db rest
              (<[m := by_pk (batch_models cache m values ++ found)]> cache)
              (log ++ [BatchFetch m (batch_pks cache m values)])
        | Raise e => (Some e, cache, log)
        end
    end.
Proof.
  cbn [fetch_loop]. rewrite split_values_spec. cbn [app].
  unfold batch_pks, batch_models, cached_entities. reflexivity.
Qed.





Lemma plainset_get_in (m : model) (plainset : plainset_t) (values : list value) :
  NoDup plainset.*1 -> (m, values) ∈ plainset -> plainset_get m plainset = values.
Proof.
  induction plainset as [| [m0 s0] ps IH]; intros Hnd Hin.
  - now apply elem_of_nil in Hin.
  - simpl in *. pose proof (NoDup_cons_1_1 _ _ Hnd) as Hnot.
    apply NoDup_cons_1_2 in Hnd.
    apply elem_of_cons in Hin as [Heq | Hin].
    + inversion Heq; subst. now rewrite decide_True.
    + destruct (decide (m0 = m)) as [-> | Hne]; [| now apply IH].
      exfalso. apply Hnot. apply list_elem_of_fmap. now exists (m, values).
Qed.

Lemma plainset_get_absent (m : model) (plainset : plainset_t) :
  m ∉ plainset.*1 -> plainset_get m plainset = [].
Proof.
  induction plainset as [| [m0 s0] ps IH]; intros Hnot; [reflexivity |].
  simpl in *. apply not_elem_of_cons in Hnot as [Hne Hnot].
  rewrite decide_False by congruence. now apply IH.
Qed.


Lemma supplies_required (fk_data : fk_map) (m : model) (v : value) :
  sequence_items v = None ->
  supplies fk_data m v <-> required fk_data m v.
Proof.
  intros Hv. split; intros [t [Ht H]]; exists t; (split; [exact Ht |]).
  - unfold tuple_values in H. destruct (t.2) eqn:Ht2; simpl in H;
      try (apply list_elem_of_singleton in H; now left).
    + apply list_elem_of_fmap in H as [c [-> _]]. discriminate.
    + right. eauto.
  - unfold tuple_values. destruct H as [H | [l [H Hl]]].
    + rewrite H, Hv. apply list_elem_of_here.
    + now rewrite H.
Qed.



Lemma batch_models_elem (cache : Cache) (m : model) (values : list value)
    (e : entity) :
  e ∈ batch_models cache m values
  <-> e ∈ cached_entities cache m \/ (VInst e ∈ values /\ e_model e = m).
Proof.
  unfold batch_models. rewrite elem_of_app, list_elem_of_omap. split.
  - intros [H | [v [Hv Hinst]]]; [now left | right].
    destruct v; simpl in Hinst; try discriminate.
    case_bool_decide; [| discriminate]. inversion Hinst; subst. now split.
  - intros [H | [H Hm]]; [now left | right].
    exists (VInst e). split; [exact H |]. simpl. now rewrite bool_decide_eq_true_2.
Qed.


(** The stages of an enabled build pass. *)
Lemma build_cache_stages (shared_flag : bool)
    (inspect : schema -> list (string * RelInfo)) (limit : nat) (db : database)
    (self : schema) (data : value) (p p' : process) (r : result value) :
  build_cache (Settings true shared_flag) inspect limit db self data p = (r, p') ->
  (exists e, r = Raise e /\ p' = p
             /\ (get_all_fk_data inspect limit self data = Raise e
                 \/ exists fk_data,
                     get_all_fk_data inspect limit self data = Ok fk_data
                     /\ build_plainset fk_data [] = Raise e))
  \/ (exists fk_data plainset failure cache log,
         get_all_fk_data inspect limit self data = Ok fk_data
         /\ build_plainset fk_data [] = Ok plainset
         /\ fetch_loop db plainset (if shared_flag then shared p else ∅) (calls p)
            = (failure, cache, log)
         /\ p' = Process (if shared_flag then cache else shared p) log
         /\ r = match failure with
                | Some e => Raise e
                | None =>
                    substitute (if shared_flag then SharedCache else OwnCache cache)
                      fk_data data
                end).
Proof.
  unfold build_cache; simpl. intros H.
  destruct (get_all_fk_data inspect limit self data) as [fk_data | e] eqn:Hfk;
    [| inversion H; subst; left; eauto 10].
  destruct (build_plainset fk_data []) as [plainset | e] eqn:Hps;
    [| inversion H; subst; left; eauto 10].
  destruct (fetch_loop db plainset _ (calls p)) as [[failure cache] log] eqn:Hloop.
  right. exists fk_data, plainset, failure, cache, log.
  destruct failure; inversion H; subst; repeat split; auto.
Qed.


Lemma plainset_ok_nil : plainset_ok [].
Proof. split; [apply NoDup_nil_2 | intros m; exact I]. Qed.

(** ** Paths as segments *)

Lemma split_path_no_dot (f : string) : no_dot f = true -> split_path f = [f].
Proof.
  induction f as [| c f IH]; simpl; intros H; [reflexivity |].
  destruct (Ascii.eqb c "."); [discriminate |]. simpl in H.
  now rewrite IH.
Qed.

Lemma split_path_join (f p : string) :
  no_dot f = true -> split_path (f +:+ "." +:+ p) = f :: split_path p.
Proof.
  induction f as [| c f IH]; simpl; intros H; [reflexivity |].
  destruct (Ascii.eqb c "."); [discriminate |]. simpl in H.
  now rewrite IH.
Qed.

Lemma split_path_dotted (segs : list string) :
  segs <> [] -> forallb no_dot segs = true -> split_path (dotted segs) = segs.
Proof.
  induction segs as [| s r IH]; intros Hne Hnd; [congruence |].
  simpl in Hnd. apply andb_true_iff in Hnd as [Hs Hr].
  destruct r as [| s' r']; [now apply split_path_no_dot |].
  change (dotted (s :: s' :: r')) with (s +:+ "." +:+ dotted (s' :: r')).
  rewrite split_path_join by exact Hs. f_equal. now apply IH.
Qed.

Lemma no_dot_uint (d : Decimal.uint) : no_dot (NilEmpty.string_of_uint d) = true.
Proof. induction d; simpl; auto. Qed.

Lemma str_of_index_no_dot (i : nat) : no_dot (str_of_index i) = true.
Proof.
  unfold str_of_index, NilZero.string_of_uint.
  destruct (Nat.to_uint i); try reflexivity; apply no_dot_uint.
Qed.

Lemma to_uint_nonnil (i : nat) : Nat.to_uint i <> Decimal.Nil.
Proof.
  intros H. pose proof (DecimalNat.Unsigned.to_of (Nat.to_uint i)) as Hto.
  rewrite DecimalNat.Unsigned.of_to in Hto. rewrite H in Hto at 1.
  symmetry in Hto. now apply DecimalFacts.unorm_nonnil in Hto.
Qed.

Lemma index_of_str_of_index (i : nat) : index_of_str (str_of_index i) = Some i.
Proof.
  unfold index_of_str, str_of_index.
  rewrite NilZero.usu by apply to_uint_nonnil. simpl.
  now rewrite DecimalNat.Unsigned.of_to.
Qed.

Lemma str_of_index_inj (i j : nat) : str_of_index i = str_of_index j -> i = j.
Proof.
  intros H. apply (f_equal index_of_str) in H.
  rewrite !index_of_str_of_index in H. now inversion H.
Qed.

(** ** Reading and writing one field of a node *)

Lemma pointed_getter_field (obj : value) (f : string) (dflt : value) :
  no_dot f = true ->
  pointed_getter obj f dflt = default dflt (path_step obj f).
Proof.
  intros H. unfold pointed_getter. rewrite split_path_no_dot by exact H.
  simpl. now destruct (path_step obj f).
Qed.

Lemma dict_get_set (d : list (string * value)) (f g : string) (v : value) :
  dict_get g (dict_set f v d) = if String.eqb f g then Some v else dict_get g d.
Proof.
  induction d as [| [k x] d IH]; simpl.
  - destruct (String.eqb f g); reflexivity.
  - destruct (String.eqb k f) eqn:Hkf; simpl.
    + apply String.eqb_eq in Hkf; subst k.
      destruct (String.eqb f g); reflexivity.
    + rewrite IH. destruct (String.eqb k g) eqn:Hkg; [| reflexivity].
      apply String.eqb_eq in Hkg; subst k. now rewrite String.eqb_sym, Hkf.
Qed.

(** ** Membership in the collected map *)

Lemma has_tuple_nil (m : model) (t : tuple) : ~ has_tuple [] m t.
Proof. intros [ts [H _]]. now apply elem_of_nil in H. Qed.

Lemma has_tuple_cons (m0 : model) (ts0 : list tuple) (fk_data : fk_map)
    (m : model) (t : tuple) :
  has_tuple ((m0, ts0) :: fk_data) m t
  <-> (m = m0 /\ t ∈ ts0) \/ has_tuple fk_data m t.
Proof.
  unfold has_tuple. split.
  - intros [ts [Hin Ht]]. apply elem_of_cons in Hin as [Heq | Hin].
    + inversion Heq; subst. now left.
    + right; eauto.
  - intros [[-> Ht] | [ts [Hin Ht]]].
    + exists ts0. split; [apply list_elem_of_here | exact Ht].
    + exists ts. split; [now apply list_elem_of_further | exact Ht].
Qed.

Lemma has_tuple_extend (m : model) (ts : list tuple) (fk_data : fk_map)
    (m' : model) (t : tuple) :
  has_tuple (fk_extend m ts fk_data) m' t
  <-> has_tuple fk_data m' t \/ (m' = m /\ t ∈ ts).
Proof.
  induction fk_data as [| [m0 ts0] r IH]; simpl.
  - rewrite has_tuple_cons. split.
    + intros [H | H]; [now right | now apply has_tuple_nil in H].
    + intros [H | H]; [now apply has_tuple_nil in H | now left].
  - destruct (decide (m0 = m)) as [-> | Hne]; rewrite !has_tuple_cons.
    + rewrite elem_of_app. tauto.
    + rewrite IH. tauto.
Qed.

Lemma has_tuple_merge (prefix : string -> string) (child : fk_map) :
  forall (fk_data : fk_map) (m : model) (t : tuple),
    has_tuple (fk_merge prefix child fk_data) m t
    <-> has_tuple fk_data m t
        \/ exists t0, has_tuple child m t0 /\ t = (prefix t0.1, t0.2).
Proof.
  unfold fk_merge.
  induction child as [| [m0 ts0] r IH]; intros fk_data m t; simpl.
  - split; [now left |]. intros [H | [t0 [H _]]]; [exact H |].
    now apply has_tuple_nil in H.
  - rewrite IH, has_tuple_extend. split.
    + intros [[H | [-> H]] | [t0 [H Ht]]].
      * now left.
      * right. apply list_elem_of_fmap in H as [t0 [-> H0]].
        exists t0. split; [apply has_tuple_cons; now left | reflexivity].
      * right. exists t0. split; [apply has_tuple_cons; now right | exact Ht].
    + intros [H | [t0 [H ->]]]; [now left; left |].
      apply has_tuple_cons in H as [[-> H] | H].
      * left; right. split; [reflexivity |].
        apply list_elem_of_fmap. now exists t0.
      * right. now exists t0.
Qed.

(** ** The collector records what the relation says *)

Lemma dotted_cons (s : string) (segs : list string) :
  segs <> [] -> dotted (s :: segs) = s +:+ "." +:+ dotted segs.
Proof. destruct segs; [congruence | reflexivity]. Qed.

Section Records.
Variable inspect : schema -> list (string * RelInfo).

Lemma collected_nonempty self data segs m k :
  collected inspect self data segs m k -> segs <> [].
Proof. intros H; inversion H; discriminate. Qed.

(** A node that is not a sequence yields what its fields contribute, when it
    is truthy and no field trips the guard. *)
Lemma collected_node self data segs m k :
  sequence_items data = None ->
  collected inspect self data segs m k
  <-> truthy data = true /\ guard_free inspect self data
      /\ exists field, field ∈ inspect self
                       /\ contributes inspect data field segs m k.
Proof.
  intros Hseq. split.
  - intros H. inversion H; subst; try congruence.
    + split; [assumption |]. split; [assumption |].
      exists (field_name, FKField m). split; [assumption |]. now repeat split.
    + split; [assumption |]. split; [assumption |].
      exists (field_name, QSField m). split; [assumption |].
      split; [reflexivity |]. split; [reflexivity |]. eauto.
    + split; [assumption |]. split; [assumption |].
      exists (field_name, RLField s). split; [assumption |].
      exists l, index, x, segs0. now repeat split.
    + split; [assumption |]. split; [assumption |].
      exists (field_name, RIField s). split; [assumption |].
      exists segs0. now split.
  - intros [Ht [Hg [[f info] [Hin Hc]]]].
    destruct info as [m' | m' | s | s]; unfold contributes in Hc; simpl in Hc.
    + destruct Hc as [-> [-> [Htv ->]]]. now apply col_fk.
    + destruct Hc as [-> [-> [l [Hl ->]]]]. now apply col_qs.
    + destruct Hc as [l [index [x [rest [Hl [Hx [-> Hc]]]]]]].
      eapply col_rl; eauto.
    + destruct Hc as [rest [-> Hc]]. eapply col_ri; eauto.
Qed.

Lemma collected_seq self data items segs m k :
  sequence_items data = Some items ->
  collected inspect self data segs m k
  <-> exists index x rest,
        items !! index = Some x /\ segs = str_of_index index :: rest
        /\ collected inspect self x rest m k.
Proof.
  intros Hseq. split.
  - intros H. inversion H; subst; try congruence.
    rewrite Hseq in H0. inversion H0; subst. eauto 10.
  - intros [index [x [rest [Hx [-> Hc]]]]]. eapply col_seq; eauto.
Qed.
End Records.

Section Loops.
Variable inspect : schema -> list (string * RelInfo).
Variable rec : schema -> value -> result fk_map.
Hypothesis rec_records :
  forall s v fk_data, rec s v = Ok fk_data -> records inspect s v fk_data.

Lemma seq_loop_records (self : schema) (items : list value) :
  forall index acc fk_data,
    seq_loop rec self items index acc = Ok fk_data ->
    forall m p k,
      has_tuple fk_data m (p, k)
      <-> has_tuple acc m (p, k)
          \/ exists j x segs,
              items !! j = Some x
              /\ p = dotted (str_of_index (index + j) :: segs)
              /\ collected inspect self x segs m k.
Proof.
  induction items as [| v r IH]; intros index acc fk H m p k.
  - inversion H; subst. split; [now left |].
    intros [Hacc | [j [x [segs [Hj _]]]]]; [exact Hacc | discriminate].
  - cbn [seq_loop] in H. destruct (rec self v) as [child |] eqn:Hchild;
      [| discriminate].
    simpl in H. rewrite (IH _ _ _ H), has_tuple_merge. split.
    + intros [[Hacc | [t0 [Ht0 Heq]]] | [j [x [segs [Hj [-> Hc]]]]]].
      * now left.
      * right. destruct t0 as [p0 k0]. inversion Heq; subst.
        apply (rec_records _ _ _ Hchild) in Ht0 as [segs [-> Hc]].
        exists 0%nat, v, segs. split; [reflexivity |].
        rewrite Nat.add_0_r, dotted_cons by (eapply collected_nonempty; eauto).
        now split.
      * right. exists (S j), x, segs. split; [exact Hj |].
        now rewrite Nat.add_succ_r.
    + intros [Hacc | [j [x [segs [Hj [-> Hc]]]]]]; [now left; left |].
      destruct j as [| j]; simpl in Hj.
      * inversion Hj; subst x. left; right. exists (dotted segs, k).
        split; [apply (rec_records _ _ _ Hchild); eauto |].
        rewrite Nat.add_0_r, dotted_cons by (eapply collected_nonempty; eauto).
        reflexivity.
      * right. exists j, x, segs. split; [exact Hj |].
        now rewrite Nat.add_succ_r.
Qed.

Lemma rl_loop_records (s : schema) (field_name : string) (values : list value) :
  forall index acc fk_data,
    rl_loop rec s field_name values index acc = Ok fk_data ->
    forall m p k,
      has_tuple fk_data m (p, k)
      <-> has_tuple acc m (p, k)
          \/ exists j x segs,
              values !! j = Some x
              /\ p = dotted (field_name :: str_of_index (index + j) :: segs)
              /\ collected inspect s x segs m k.
Proof.
  induction values as [| v r IH]; intros index acc fk H m p k.
  - inversion H; subst. split; [now left |].
    intros [Hacc | [j [x [segs [Hj _]]]]]; [exact Hacc | discriminate].
  - cbn [rl_loop] in H. destruct (rec s v) as [child |] eqn:Hchild;
      [| discriminate].
    simpl in H. rewrite (IH _ _ _ H), has_tuple_merge.
    assert (Hdot : forall i segs,
               segs <> [] ->
               dotted (field_name :: str_of_index i :: segs)
               = field_name +:+ "." +:+ str_of_index i +:+ "." +:+ dotted segs).
    { intros i segs Hne. rewrite dotted_cons by discriminate.
      now rewrite dotted_cons by exact Hne. }
    split.
    + intros [[Hacc | [t0 [Ht0 Heq]]] | [j [x [segs [Hj [-> Hc]]]]]].
      * now left.
      * right. destruct t0 as [p0 k0]. inversion Heq; subst.
        apply (rec_records _ _ _ Hchild) in Ht0 as [segs [-> Hc]].
        exists 0%nat, v, segs. split; [reflexivity |].
        rewrite Nat.add_0_r, Hdot by (eapply collected_nonempty; eauto).
        now split.
      * right. exists (S j), x, segs. split; [exact Hj |].
        now rewrite Nat.add_succ_r.
    + intros [Hacc | [j [x [segs [Hj [-> Hc]]]]]]; [now left; left |].
      destruct j as [| j]; simpl in Hj.
      * inversion Hj; subst x. left; right. exists (dotted segs, k).
        split; [apply (rec_records _ _ _ Hchild); eauto |].
        rewrite Nat.add_0_r, Hdot by (eapply collected_nonempty; eauto).
        reflexivity.
      * right. exists j, x, segs. split; [exact Hj |].
        now rewrite Nat.add_succ_r.
Qed.
End Loops.

Section FieldsLoop.
Variable inspect : schema -> list (string * RelInfo).
Variable rec : schema -> value -> result fk_map.
Hypothesis rec_records :
  forall s v fk_data, rec s v = Ok fk_data -> records inspect s v fk_data.

Lemma fields_loop_step_fk (data : value) (field_name : string) (m : model)
    (rest : list (string * RelInfo)) (acc : fk_map) :
  fields_loop rec data ((field_name, FKField m) :: rest) acc
  = if truthy (fk_value m data field_name) then
      if is_lazy (fk_value m data field_name) then Ok []
      else fields_loop rec data rest
             (fk_extend m
                [(field_name,
                  pointed_getter (fk_value m data field_name) (pk_attname m)
                    (fk_value m data field_name))] acc)
    else fields_loop rec data rest acc.
Proof. reflexivity. Qed.

Lemma fields_loop_records (data : value) (fields : list (string * RelInfo)) :
  forall acc fk_data,
    fields_loop rec data fields acc = Ok fk_data ->
    existsb (guard_hit data) fields = false ->
    forall m p k,
      has_tuple fk_data m (p, k)
      <-> has_tuple acc m (p, k)
          \/ exists field segs,
              field ∈ fields /\ p = dotted segs
              /\ contributes inspect data field segs m k.
Proof.
  induction fields as [| [f info] rest IH]; intros acc fk Hloop Hguard m p k.
  - inversion Hloop; subst. split; [now left |].
    intros [H | [field [segs [Hin _]]]]; [exact H | now apply elem_of_nil in Hin].
  - simpl in Hguard. apply orb_false_iff in Hguard as [Hhit Hguard].
    assert (Hrest : forall acc',
               fields_loop rec data rest acc' = Ok fk ->
               (has_tuple acc' m (p, k)
                <-> has_tuple acc m (p, k)
                    \/ exists segs, p = dotted segs
                                    /\ contributes inspect data (f, info) segs m k) ->
               has_tuple fk m (p, k)
               <-> has_tuple acc m (p, k)
                   \/ exists field segs,
                       field ∈ (f, info) :: rest /\ p = dotted segs
                       /\ contributes inspect data field segs m k).
    { intros acc' Hloop' Hacc'. rewrite (IH _ _ Hloop' Hguard), Hacc'. split.
      - intros [[H | [segs [Hp Hc]]] | [field [segs [Hin [Hp Hc]]]]].
        + now left.
        + right. exists (f, info), segs. split; [apply list_elem_of_here | now split].
        + right. exists field, segs. split; [now apply list_elem_of_further | now split].
      - intros [H | [field [segs [Hin [Hp Hc]]]]]; [now left; left |].
        apply elem_of_cons in Hin as [-> | Hin].
        + left; right. now exists segs.
        + right. now exists field, segs. }
    destruct info as [m' | m' | s | s].
    + rewrite fields_loop_step_fk in Hloop.
      unfold guard_hit in Hhit; simpl in Hhit.
      destruct (truthy (fk_value m' data f)) eqn:Ht.
      * simpl in Hhit. rewrite Hhit in Hloop.
        apply (Hrest _ Hloop). rewrite has_tuple_extend.
        unfold contributes; simpl. split.
        -- intros [H | [-> H]]; [now left | right].
           apply list_elem_of_singleton in H. inversion H; subst.
           exists [f]. now repeat split.
        -- intros [H | [segs [-> [-> [-> [_ ->]]]]]]; [now left | right].
           split; [reflexivity | apply list_elem_of_here].
      * apply (Hrest _ Hloop). unfold contributes; simpl. split; [now left |].
        intros [H | [segs [_ [_ [_ [Htrue _]]]]]]; [exact H | congruence].
    + cbn [fields_loop] in Hloop. unfold guard_hit in Hhit; simpl in Hhit.
      destruct (pointed_getter data f (VList [])) as [| | | l | | |] eqn:Hv;
        try (apply (Hrest _ Hloop); unfold contributes; simpl; rewrite Hv;
             split; [now left |];
             intros [H | [segs [_ [_ [_ [l' [Hl _]]]]]]]; [exact H | discriminate]).
      rewrite Hhit in Hloop. apply (Hrest _ Hloop). rewrite has_tuple_extend.
      unfold contributes; simpl. rewrite Hv. split.
      * intros [H | [-> H]]; [now left | right].
        apply list_elem_of_singleton in H. inversion H; subst.
        exists [f]. repeat split. now exists l.
      * intros [H | [segs [-> [-> [-> [l' [Hl ->]]]]]]]; [now left | right].
        inversion Hl; subst l'. split; [reflexivity | apply list_elem_of_here].
    + cbn [fields_loop] in Hloop.
      destruct (pointed_getter data f (VList [])) as [| | | l | | |] eqn:Hv;
        try (apply (Hrest _ Hloop); unfold contributes; simpl; rewrite Hv;
             split; [now left |];
             intros [H | [segs [_ [l' [index [x [rest' [Hl _]]]]]]]];
             [exact H | discriminate]).
      destruct (rl_loop rec s f l 0 acc) as [fk1 |] eqn:Hrl; [| discriminate].
      simpl in Hloop. apply (Hrest _ Hloop).
      rewrite (rl_loop_records inspect rec rec_records _ _ _ _ _ _ Hrl).
      unfold contributes; simpl. rewrite Hv. split.
      * intros [H | [j [x [segs [Hj [-> Hc]]]]]]; [now left | right].
        exists (f :: str_of_index j :: segs). split; [reflexivity |].
        exists l, j, x, segs. now repeat split.
      * intros [H | [segs [-> [l' [index [x [rest' [Hl [Hx [-> Hc]]]]]]]]]];
          [now left | right].
        inversion Hl; subst l'. exists index, x, rest'. now repeat split.
    + cbn [fields_loop] in Hloop.
      destruct (rec s (pointed_getter data f VNone)) as [child |] eqn:Hchild;
        [| discriminate].
      simpl in Hloop. apply (Hrest _ Hloop). rewrite has_tuple_merge.
      unfold contributes; simpl. split.
      * intros [H | [t0 [Ht0 Heq]]]; [now left | right].
        destruct t0 as [p0 k0]. inversion Heq; subst.
        apply (rec_records _ _ _ Hchild) in Ht0 as [segs [-> Hc]].
        exists (f :: segs). split.
        -- now rewrite dotted_cons by (eapply collected_nonempty; eauto).
        -- exists segs. now split.
      * intros [H | [segs [-> [rest' [-> Hc]]]]]; [now left | right].
        exists (dotted rest', k). split.
        -- apply (rec_records _ _ _ Hchild). eauto.
        -- now rewrite dotted_cons by (eapply collected_nonempty; eauto).
Qed.
End FieldsLoop.

(** The map [get_all_fk_data] returns holds, for each model, exactly the
    tuples the relation [collected] gives, each under the dotted string of
    its segments. *)
Lemma get_all_fk_data_records (inspect : schema -> list (string * RelInfo))
    (limit : nat) :
  forall self data fk_data,
    get_all_fk_data inspect limit self data = Ok fk_data ->
    records inspect self data fk_data.
Proof.
  induction limit as [| limit IH]; intros self data fk H; [discriminate |].
  cbn [get_all_fk_data] in H. intros m p k.
  destruct (sequence_items data) as [items |] eqn:Hseq.
  - rewrite (seq_loop_records inspect _ IH _ _ _ _ _ H). split.
    + intros [Hnil | [j [x [segs [Hj [-> Hc]]]]]];
        [now apply has_tuple_nil in Hnil |].
      exists (str_of_index j :: segs). split; [reflexivity |].
      eapply col_seq; eauto.
    + intros [segs [-> Hc]]. right.
      apply (collected_seq inspect _ _ items) in Hc as [j [x [rest [Hj [-> Hc]]]]];
        [| exact Hseq].
      exists j, x, rest. now repeat split.
  - unfold get_fk_data in H. destruct (truthy data) eqn:Ht; simpl in H.
    + destruct (existsb (guard_hit data) (inspect self)) eqn:Hg.
      * assert (fk = []) by (eapply fields_loop_guard; eauto). subst fk. split.
        -- intros Hnil. now apply has_tuple_nil in Hnil.
        -- intros [segs [_ Hc]]. apply collected_node in Hc as [_ [Hfree _]];
             [| exact Hseq].
           unfold guard_free in Hfree. congruence.
      * rewrite (fields_loop_records inspect _ IH _ _ _ _ H Hg). split.
        -- intros [Hnil | [field [segs [Hin [-> Hc]]]]];
             [now apply has_tuple_nil in Hnil |].
           exists segs. split; [reflexivity |].
           apply collected_node; [exact Hseq |]. eauto.
        -- intros [segs [-> Hc]]. right.
           apply collected_node in Hc as [_ [_ [field [Hin Hc]]]]; [| exact Hseq].
           eauto.
    + inversion H; subst fk. split.
      * intros Hnil. now apply has_tuple_nil in Hnil.
      * intros [segs [_ Hc]]. apply collected_node in Hc as [Htrue _];
          [congruence | exact Hseq].
Qed.

(** ** What the cache holds after the fetch loop *)

Lemma objects_filter_in_db (db : database) (m : model) (pks : list value) :
  forall found e,
    objects_filter db m pks = Ok found -> e ∈ found ->
    db_get db m (e_pk e) = Some e.
Proof.
  induction pks as [| pk pks IH]; intros found e H Hin; simpl in H.
  - inversion H; subst. now apply elem_of_nil in Hin.
  - destruct (as_key pk) as [k |]; [| discriminate].
    destruct (objects_filter db m pks) as [rest |]; [| discriminate].
    simpl in H. destruct (db_get db m k) as [e0 |] eqn:Hdb; inversion H; subst.
    + apply elem_of_cons in Hin as [-> | Hin]; [| now apply (IH rest)].
      destruct (db_get_pk _ _ _ _ Hdb) as [-> _]. exact Hdb.
    + now apply (IH found).
Qed.

Lemma batch_models_insert_ne (cache : Cache) (m m' : model) (cm : gmap key entity)
    (values : list value) :
  m <> m' -> batch_models (<[m := cm]> cache) m' values = batch_models cache m' values.
Proof. intros H. unfold batch_models. now rewrite cached_entities_insert_ne. Qed.

(** When the loop ends without failure, a model without an entry keeps what
    the cache held for it, and a model with an entry holds, by primary key,
    what the cache held for it, the instances supplied and the rows found. *)
Lemma fetch_loop_cache (db : database) (plainset : plainset_t) :
  NoDup plainset.*1 ->
  forall cache log cache' log',
    fetch_loop db plainset cache log = (None, cache', log') ->
    (forall m, m ∉ plainset.*1 -> cache' !! m = cache !! m)
    /\ (forall m, m ∈ plainset.*1 ->
          exists found,
            cache' !! m
            = Some (by_pk (batch_models cache m (plainset_get m plainset) ++ found))
            /\ forall e, e ∈ found -> db_get db m (e_pk e) = Some e).
Proof.
  induction plainset as [| [m0 values] rest IH]; intros Hnd cache log cache' log' H.
  - inversion H; subst. split; [auto |]. intros m Hm. now apply elem_of_nil in Hm.
  - pose proof (NoDup_cons_1_1 _ _ Hnd) as Hnot. apply NoDup_cons_1_2 in Hnd.
    rewrite fetch_loop_cons in H.
    assert (Hturn : forall found,
               (forall e, e ∈ found -> db_get db m0 (e_pk e) = Some e) ->
               forall log1,
                 fetch_loop db rest
                   (<[m0 := by_pk (batch_models cache m0 values ++ found)]> cache) log1
                 = (None, cache', log') ->
                 (forall m, m ∉ ((m0, values) :: rest).*1 -> cache' !! m = cache !! m)
                 /\ (forall m, m ∈ ((m0, values) :: rest).*1 ->
                       exists found',
                         cache' !! m
                         = Some (by_pk (batch_models cache m
                                          (plainset_get m ((m0, values) :: rest))
                                        ++ found'))
                         /\ forall e, e ∈ found' -> db_get db m (e_pk e) = Some e)).
    { intros found Hfound log1 Hloop.
      destruct (IH Hnd _ _ _ _ Hloop) as [Hout Hin]. split.
      - intros m Hm. simpl in Hm. apply not_elem_of_cons in Hm as [Hne Hm].
        rewrite (Hout m Hm). now rewrite lookup_insert_ne by congruence.
      - intros m Hm. simpl in Hm. cbn [plainset_get].
        destruct (decide (m0 = m)) as [<- | Hne].
        + exists found. split; [| exact Hfound].
          rewrite (Hout m0 Hnot). apply lookup_insert_eq.
        + apply elem_of_cons in Hm as [-> | Hm]; [congruence |].
          destruct (Hin m Hm) as [found' [Hc Hf]]. exists found'.
          split; [| exact Hf]. now rewrite batch_models_insert_ne in Hc. }
    destruct (batch_pks cache m0 values) as [| pk pks'] eqn:Hpks.
    + apply (Hturn [] ltac:(intros e He; now apply elem_of_nil in He) log).
      now rewrite app_nil_r.
    + destruct (objects_filter db m0 (pk :: pks')) as [found | e] eqn:Hfound;
        [| discriminate].
      apply (Hturn found
               ltac:(intros e He; eapply objects_filter_in_db; eauto) _ H).
Qed.

(** ** Writes do not depend on the cache a placeholder carries *)

Lemma dict_get_erase (d : list (string * value)) (s : string) :
  dict_get s ((fun kv => match kv with (k, x) => (k, erase x) end) <$> d)
  = erase <$> dict_get s d.
Proof.
  induction d as [| [k x] d IH]; [reflexivity |].
  rewrite fmap_cons. cbn [dict_get].
  destruct (String.eqb k s); [reflexivity | exact IH].
Qed.

Lemma dict_set_erase (d : list (string * value)) (s : string) (v : value) :
  dict_set s (erase v) ((fun kv => match kv with (k, x) => (k, erase x) end) <$> d)
  = (fun kv => match kv with (k, x) => (k, erase x) end) <$> dict_set s v d.
Proof.
  induction d as [| [k x] d IH]; [reflexivity |].
  rewrite fmap_cons. cbn [dict_set].
  destruct (String.eqb k s); rewrite !fmap_cons; [reflexivity | now rewrite IH].
Qed.

Lemma erase_key (k : key) : erase (value_of_key k) = value_of_key k.
Proof. now destruct k. Qed.

Lemma path_step_erase (obj : value) (seg : string) :
  path_step (erase obj) seg = erase <$> path_step obj seg.
Proof.
  destruct obj; simpl; try reflexivity.
  - destruct (index_of_str seg) as [i |]; simpl; [| reflexivity].
    apply list_lookup_fmap.
  - apply dict_get_erase.
  - destruct (String.eqb seg (pk_attname (e_model e))); simpl; [| reflexivity].
    now rewrite erase_key.
Qed.

Lemma path_assign_erase (obj : value) (seg : string) (v : value) :
  path_assign (erase obj) seg (erase v) = erase <$> path_assign obj seg v.
Proof.
  destruct obj; simpl; try reflexivity.
  - destruct (index_of_str seg) as [i |]; simpl; [| reflexivity].
    rewrite length_fmap. destruct (decide (i < length l)%nat); simpl; [| reflexivity].
    now rewrite list_fmap_insert.
  - now rewrite dict_set_erase.
Qed.

Lemma set_segs_erase (segs : list string) (v : value) :
  forall obj, set_segs segs (erase v) (erase obj) = erase <$> set_segs segs v obj.
Proof.
  induction segs as [| seg rest IH]; intros obj; [reflexivity |].
  destruct rest as [| seg' rest'].
  - apply path_assign_erase.
  - change (set_segs (seg :: seg' :: rest') (erase v) (erase obj))
      with (path_step (erase obj) seg
              ≫= fun child => set_segs (seg' :: rest') (erase v) child
              ≫= fun child' => path_assign (erase obj) seg child').
    change (set_segs (seg :: seg' :: rest') v obj)
      with (path_step obj seg
              ≫= fun child => set_segs (seg' :: rest') v child
              ≫= fun child' => path_assign obj seg child').
    rewrite path_step_erase.
    destruct (path_step obj seg) as [child |];
      cbn [fmap option_fmap option_map mbind option_bind]; [| reflexivity].
    rewrite IH.
    destruct (set_segs (seg' :: rest') v child) as [child' |];
      cbn [fmap option_fmap option_map mbind option_bind]; [| reflexivity].
    apply path_assign_erase.
Qed.

Lemma substitute_tuples_erase (c1 c2 : cache_ref) (m : model) (touples : list tuple) :
  forall d1 d2,
    erase d1 = erase d2 ->
    match substitute_tuples c1 m touples d1, substitute_tuples c2 m touples d2 with
    | Ok a, Ok b => erase a = erase b
    | Raise e1, Raise e2 => e1 = e2
    | _, _ => False
    end.
Proof.
  induction touples as [| t r IH]; intros d1 d2 Hd; simpl; [exact Hd |].
  unfold pointed_setter.
  pose proof (set_segs_erase (split_path t.1) (VLazy c1 m t.2) d1) as H1.
  pose proof (set_segs_erase (split_path t.1) (VLazy c2 m t.2) d2) as H2.
  simpl erase in H1, H2. rewrite Hd in H1. rewrite H1 in H2.
  destruct (set_segs (split_path t.1) (VLazy c1 m t.2) d1) as [a |],
           (set_segs (split_path t.1) (VLazy c2 m t.2) d2) as [b |];
    simpl in H2; try discriminate; [| reflexivity].
  apply IH. now inversion H2.
Qed.

Lemma substitute_erase (c1 c2 : cache_ref) (fk_data : fk_map) :
  forall d1 d2,
    erase d1 = erase d2 ->
    match substitute c1 fk_data d1, substitute c2 fk_data d2 with
    | Ok a, Ok b => erase a = erase b
    | Raise e1, Raise e2 => e1 = e2
    | _, _ => False
    end.
Proof.
  induction fk_data as [| [m ts] r IH]; intros d1 d2 Hd; simpl; [exact Hd |].
  pose proof (substitute_tuples_erase c1 c2 m ts d1 d2 Hd) as H.
  destruct (substitute_tuples c1 m ts d1) as [a | e1],
           (substitute_tuples c2 m ts d2) as [b | e2]; simpl; try contradiction.
  - now apply IH.
  - exact H.
Qed.

Lemma substitute_failure (c1 c2 : cache_ref) (fk_data : fk_map) (data : value) :
  failure_of (substitute c1 fk_data data) = failure_of (substitute c2 fk_data data).
Proof.
  pose proof (substitute_erase c1 c2 fk_data data data eq_refl) as H.
  destruct (substitute c1 fk_data data), (substitute c2 fk_data data);
    simpl; try contradiction; congruence.
Qed.

(** ** Keys the persistence layer does not have *)

Lemma objects_filter_failure (db db' : database) (m : model) (pks : list value) :
  failure_of (objects_filter db m pks) = failure_of (objects_filter db' m pks).
Proof.
  induction pks as [| pk pks IH]; simpl; [reflexivity |].
  destruct (as_key pk) as [k |]; [| reflexivity].
  destruct (objects_filter db m pks), (objects_filter db' m pks);
    simpl in *; try discriminate; [| exact IH].
  now destruct (db_get db m k), (db_get db' m k).
Qed.

Lemma batch_same (c1 c2 : Cache) (m : model) (values : list value) :
  c1 !! m = c2 !! m ->
  batch_models c1 m values = batch_models c2 m values
  /\ batch_pks c1 m values = batch_pks c2 m values.
Proof.
  intros H. unfold batch_pks, batch_models, cached_entities. now rewrite H.
Qed.

(** Whether the fetch loop fails, and how, does not depend on the rows the
    persistence layer has. *)
Lemma fetch_loop_failure (db1 db2 : database) (plainset : plainset_t) :
  NoDup plainset.*1 ->
  forall c1 c2 l1 l2,
    (forall m, m ∈ plainset.*1 -> c1 !! m = c2 !! m) ->
    (fetch_loop db1 plainset c1 l1).1.1 = (fetch_loop db2 plainset c2 l2).1.1.
Proof.
  induction plainset as [| [m0 values] rest IH]; intros Hnd c1 c2 l1 l2 Hsame;
    [reflexivity |].
  pose proof (NoDup_cons_1_1 _ _ Hnd) as Hnot. apply NoDup_cons_1_2 in Hnd.
  rewrite !fetch_loop_cons.
  destruct (batch_same c1 c2 m0 values) as [Hmodels Hpks].
  { apply Hsame. simpl. apply list_elem_of_here. }
  rewrite Hmodels, Hpks.
  assert (Hnext : forall cm1 cm2 m,
             m ∈ rest.*1 -> <[m0 := cm1]> c1 !! m = <[m0 := cm2]> c2 !! m).
  { intros cm1 cm2 m Hm. assert (m0 <> m) by (intros ->; now apply Hnot).
    rewrite !lookup_insert_ne by assumption.
    apply Hsame. simpl. now apply list_elem_of_further. }
  destruct (batch_pks c2 m0 values) as [| pk pks'].
  - apply (IH Hnd). apply Hnext.
  - pose proof (objects_filter_failure db1 db2 m0 (pk :: pks')) as Hf.
    destruct (objects_filter db1 m0 (pk :: pks')),
             (objects_filter db2 m0 (pk :: pks')); simpl in Hf; try discriminate.
    + apply (IH Hnd). apply Hnext.
    + simpl. congruence.
Qed.

(** Whether a build pass raises, and what, does not depend on the rows the
    persistence layer has. *)
Lemma build_cache_failure_db (cfg : settings)
    (inspect : schema -> list (string * RelInfo)) (limit : nat)
    (db db' : database) (self : schema) (data : value) (p : process) :
  failure_of (build_cache cfg inspect limit db self data p).1
  = failure_of (build_cache cfg inspect limit db' self data p).1.
Proof.
  unfold build_cache.
  destruct (negb (STRUCTURED_FIELD_CACHE_ENABLED cfg)); [reflexivity |].
  destruct (get_all_fk_data inspect limit self data) as [fk |]; [| reflexivity].
  destruct (build_plainset fk []) as [ps |] eqn:Hps; [| reflexivity].
  destruct (build_plainset_spec fk [] ps Hps) as [Hok _].
  destruct (Hok plainset_ok_nil) as [Hnd _].
  set (used := if STRUCTURED_FIELD_SHARED_CACHE cfg then shared p else ∅).
  pose proof (fetch_loop_failure db db' ps Hnd used used (calls p) (calls p)
                (fun _ _ => eq_refl)) as Hf.
  destruct (fetch_loop db ps used (calls p)) as [[f1 c1] l1],
           (fetch_loop db' ps used (calls p)) as [[f2 c2] l2].
  simpl in Hf. subst f2. destruct f1; [reflexivity |]. simpl.
  apply substitute_failure.
Qed.

Lemma plainset_tuples_models (m : model) (touples : list tuple) :
  forall plainset plainset',
    plainset_tuples m touples plainset = Ok plainset' ->
    forall m', m' ∈ plainset.*1 \/ (m' = m /\ touples <> []) -> m' ∈ plainset'.*1.
Proof.
  induction touples as [| t r IH]; intros ps ps' H m' Hm'.
  - inversion H; subst. destruct Hm' as [Hm' | [_ Hm']]; [exact Hm' | congruence].
  - rewrite plainset_tuples_step in H.
    destruct (plainset_at m (set_update (tuple_values t)) ps) as [ps1 |] eqn:Hat;
      [| discriminate].
    simpl in H. apply (IH ps1 ps' H). left.
    destruct (plainset_at_get _ _ _ _ Hat) as [_ [_ [Hmods _]]].
    apply Hmods. destruct Hm' as [Hm' | [-> _]]; [now right | now left].
Qed.

Lemma build_plainset_models (fk_data : fk_map) :
  forall plainset plainset',
    build_plainset fk_data plainset = Ok plainset' ->
    forall m, m ∈ plainset.*1 \/ (exists t, has_tuple fk_data m t) ->
              m ∈ plainset'.*1.
Proof.
  induction fk_data as [| [m0 ts] r IH]; intros ps ps' H m Hm.
  - inversion H; subst. destruct Hm as [Hm | [t Ht]]; [exact Hm |].
    now apply has_tuple_nil in Ht.
  - cbn [build_plainset] in H.
    destruct (plainset_tuples m0 ts ps) as [ps1 |] eqn:Htup; [| discriminate].
    simpl in H. apply (IH ps1 ps' H).
    destruct Hm as [Hm | [t Ht]].
    + left. eapply plainset_tuples_models; eauto.
    + apply has_tuple_cons in Ht as [[-> Ht] | Ht].
      * left. eapply plainset_tuples_models; eauto. right. split; [reflexivity |].
        intros ->. now apply elem_of_nil in Ht.
      * right. eauto.
Qed.

(** After a pass that succeeds, the cache the placeholders are bound to has
    an entry for every model with a tuple, and what it holds under a key is
    an entity with that key that the cache in use already held, that the
    tree supplied as an instance, or that is the row of the key. *)
Lemma build_cache_cache (shared_flag : bool)
    (inspect : schema -> list (string * RelInfo)) (limit : nat) (db : database)
    (self : schema) (data data' : value) (p p' : process) (fk_data : fk_map) :
  build_cache (Settings true shared_flag) inspect limit db self data p
  = (Ok data', p') ->
  get_all_fk_data inspect limit self data = Ok fk_data ->
  let used : Cache := if shared_flag then shared p else ∅ in
  exists c,
    substitute c fk_data data = Ok data'
    /\ forall m,
        (exists t, has_tuple fk_data m t) ->
        exists cm,
          cache_of p' c !! m = Some cm
          /\ forall k e,
              cm !! k = Some e ->
              e_pk e = k
              /\ (e ∈ cached_entities used m
                  \/ (required fk_data m (VInst e) /\ e_model e = m)
                  \/ db_get db m k = Some e).
Proof.
  intros H Hfk used.
  apply build_cache_stages in H
    as [[e [Hr _]] | [fk [ps [failure [cache [log [Hfk' [Hps [Hloop [-> Hr]]]]]]]]]];
    [discriminate |].
  rewrite Hfk in Hfk'; inversion Hfk'; subst fk; clear Hfk'.
  fold used in Hloop.
  destruct failure as [e |]; [discriminate |].
  exists (if shared_flag then SharedCache else OwnCache cache).
  split; [now symmetry |].
  intros m Hm.
  destruct (build_plainset_spec fk_data [] ps Hps) as [Hok [_ [Hout _]]].
  destruct (Hok plainset_ok_nil) as [Hnd _].
  assert (Hin : m ∈ ps.*1) by (eapply build_plainset_models; eauto).
  destruct (fetch_loop_cache db ps Hnd _ _ _ _ Hloop) as [_ Hcache].
  destruct (Hcache m Hin) as [found [Hcm Hfound]].
  exists (by_pk (batch_models used m (plainset_get m ps) ++ found)).
  split; [now destruct shared_flag |].
  intros k e Hk. apply by_pk_lookup in Hk as [He Hpk]. split; [exact Hpk |].
  apply elem_of_app in He as [He | He].
  - apply batch_models_elem in He as [He | [He Hmodel]]; [now left |].
    right; left. split; [| exact Hmodel].
    apply supplies_required; [reflexivity |].
    apply Hout in He as [He | He]; [now apply elem_of_nil in He | exact He].
  - right; right. rewrite <- Hpk. now apply Hfound.
Qed.

(** ** Writing a placeholder at a designated path *)

Lemma set_segs_single (f : string) (v obj : value) :
  set_segs [f] v obj = path_assign obj f v.
Proof. reflexivity. Qed.

Lemma set_segs_cons (f : string) (rest : list string) (v obj : value) :
  rest <> [] ->
  set_segs (f :: rest) v obj
  = (path_step obj f ≫= fun child =>
     set_segs rest v child ≫= fun child' => path_assign obj f child').
Proof. destruct rest; [congruence | reflexivity]. Qed.

(** A write of a field into a node that is not a sequence succeeds on a
    mapping only, and sets the key. *)
Lemma path_assign_node (obj : value) (f : string) (v obj' : value) :
  sequence_items obj = None ->
  path_assign obj f v = Some obj' ->
  exists d, obj = VDict d /\ obj' = VDict (dict_set f v d).
Proof.
  intros Hseq H. destruct obj; simpl in *; try discriminate.
  inversion H. eauto.
Qed.

Lemma path_assign_index (l : list value) (i : nat) (v obj' : value) :
  path_assign (VList l) (str_of_index i) v = Some obj' ->
  (i < length l)%nat /\ obj' = VList (<[i := v]> l).
Proof.
  simpl. rewrite index_of_str_of_index. simpl.
  destruct (decide (i < length l)%nat); intros H; inversion H. now split.
Qed.

Lemma path_step_index (l : list value) (i : nat) :
  path_step (VList l) (str_of_index i) = l !! i.
Proof. simpl. now rewrite index_of_str_of_index. Qed.

(** A write below an element of a list rewrites that element. *)
Lemma set_segs_index (l : list value) (i : nat) (rest : list string)
    (v obj' : value) :
  rest <> [] ->
  set_segs (str_of_index i :: rest) v (VList l) = Some obj' ->
  exists x x', l !! i = Some x /\ set_segs rest v x = Some x'
               /\ obj' = VList (<[i := x']> l).
Proof.
  intros Hne H. rewrite set_segs_cons, path_step_index in H by exact Hne.
  destruct (l !! i) as [x |] eqn:Hx; [| discriminate]. simpl in H.
  destruct (set_segs rest v x) as [x' |] eqn:Hset; [| discriminate]. simpl in H.
  apply path_assign_index in H as [_ ->]. eauto.
Qed.

(** A write below a field of a node rewrites the value of that field. *)
Lemma set_segs_field (obj : value) (f : string) (rest : list string)
    (v obj' : value) :
  sequence_items obj = None ->
  rest <> [] ->
  set_segs (f :: rest) v obj = Some obj' ->
  exists d child child',
    obj = VDict d /\ dict_get f d = Some child
    /\ set_segs rest v child = Some child'
    /\ obj' = VDict (dict_set f child' d).
Proof.
  intros Hseq Hne H. rewrite set_segs_cons in H by exact Hne.
  destruct (path_step obj f) as [child |] eqn:Hstep; [| discriminate]. simpl in H.
  destruct (set_segs rest v child) as [child' |] eqn:Hset; [| discriminate].
  simpl in H. apply path_assign_node in H as [d [-> ->]]; [| exact Hseq].
  exists d, child, child'. now repeat split.
Qed.

Lemma pointed_getter_dict_set (d : list (string * value)) (f g : string)
    (v dflt : value) :
  no_dot g = true ->
  pointed_getter (VDict (dict_set f v d)) g dflt
  = if String.eqb f g then v else pointed_getter (VDict d) g dflt.
Proof.
  intros Hg. rewrite !pointed_getter_field by exact Hg. simpl.
  rewrite dict_get_set. now destruct (String.eqb f g).
Qed.

Lemma same_getter_guard (d d' : value) (field : string * RelInfo) :
  (forall dflt, pointed_getter d' field.1 dflt = pointed_getter d field.1 dflt) ->
  guard_hit d' field = guard_hit d field.
Proof.
  intros H. unfold guard_hit, fk_value. destruct field.2; now rewrite ?H.
Qed.

Lemma same_getter_contributes (inspect : schema -> list (string * RelInfo))
    (d d' : value) (field : string * RelInfo) segs m k :
  (forall dflt, pointed_getter d' field.1 dflt = pointed_getter d field.1 dflt) ->
  contributes inspect d' field segs m k -> contributes inspect d field segs m k.
Proof.
  intros H. unfold contributes, fk_value. destruct field.2; now rewrite ?H.
Qed.

Lemma same_getter_child_ok (rec : schema -> value -> result fk_map)
    (d d' : value) (field : string * RelInfo) :
  (forall dflt, pointed_getter d' field.1 dflt = pointed_getter d field.1 dflt) ->
  child_ok rec d' field = child_ok rec d field.
Proof.
  intros H. unfold child_ok. destruct field.2; now rewrite ?H.
Qed.

Lemma contributes_head (inspect : schema -> list (string * RelInfo))
    (d : value) (field : string * RelInfo) segs m k :
  contributes inspect d field segs m k -> exists rest, segs = field.1 :: rest.
Proof.
  unfold contributes. destruct field.2.
  - intros [_ [-> _]]. eauto.
  - intros [_ [-> _]]. eauto.
  - intros [l [i [x [rest [_ [_ [-> _]]]]]]]. eauto.
  - intros [rest [-> _]]. eauto.
Qed.

Section Writes.
Variable inspect : schema -> list (string * RelInfo).
Hypothesis wf : fields_wf inspect.

Lemma field_no_dot self f info : (f, info) ∈ inspect self -> no_dot f = true.
Proof. intros H. destruct (wf self) as [_ Hnd]. exact (Hnd _ H). Qed.

Lemma field_unique self f info1 info2 :
  (f, info1) ∈ inspect self -> (f, info2) ∈ inspect self -> info1 = info2.
Proof.
  destruct (wf self) as [Hnd _]. revert Hnd.
  induction (inspect self) as [| [g i] l IH]; intros Hnd H1 H2.
  - now apply elem_of_nil in H1.
  - simpl in Hnd. pose proof (NoDup_cons_1_1 _ _ Hnd) as Hnot.
    apply NoDup_cons_1_2 in Hnd.
    assert (Hfst : forall info, (f, info) ∈ l -> g <> f).
    { intros info Hin ->. apply Hnot. apply list_elem_of_fmap. now exists (f, info). }
    apply elem_of_cons in H1 as [H1 | H1], H2 as [H2 | H2].
    + congruence.
    + inversion H1; subst. now destruct (Hfst _ H2).
    + inversion H2; subst. now destruct (Hfst _ H1).
    + now apply IH.
Qed.

Lemma designated_nonempty self d q : designated inspect self d q -> q <> [].
Proof. intros H; inversion H; discriminate. Qed.

Lemma getter_step (d : value) self f info child (dflt : value) :
  (f, info) ∈ inspect self ->
  path_step d f = Some child -> pointed_getter d f dflt = child.
Proof.
  intros Hin Hstep. rewrite pointed_getter_field by (eapply field_no_dot; eauto).
  now rewrite Hstep.
Qed.

(** What the collector records sits at a designated path. *)
Lemma collected_designated self d segs m k :
  collected inspect self d segs m k -> designated inspect self d segs.
Proof.
  induction 1 as [self data items index x segs m k Hseq Hx Hc IH
                 | self data f m Hseq Ht Hg Hin Htv
                 | self data f m l Hseq Ht Hg Hin Hl
                 | self data f s l index x segs m k Hseq Ht Hg Hin Hl Hx Hc IH
                 | self data f s segs m k Hseq Ht Hg Hin Hc IH].
  - destruct data; simpl in Hseq; try discriminate; inversion Hseq; subst items.
    + apply list_lookup_fmap_Some in Hx as [c [-> _]].
      inversion IH; subst; discriminate.
    + now apply des_seq with x.
  - eapply des_fk; eauto.
  - eapply des_qs; eauto. unfold qs_quiet.
    assert (Hhit : guard_hit data (f, QSField m) = false).
    { unfold guard_free in Hg. destruct (guard_hit data (f, QSField m)) eqn:E;
        [| reflexivity].
      assert (existsb (guard_hit data) (inspect self) = true)
        by (apply existsb_exists; exists (f, QSField m);
            split; [now apply list_elem_of_In | exact E]).
      congruence. }
    unfold guard_hit in Hhit; simpl in Hhit. now rewrite Hl in *.
  - eapply des_rl; eauto.
    rewrite pointed_getter_field in Hl by (eapply field_no_dot; eauto).
    destruct (path_step data f) as [child |]; simpl in Hl; [now subst |].
    inversion Hl; subst l. discriminate.
  - destruct (path_step data f) as [child |] eqn:Hstep.
    + eapply des_ri; eauto. now rewrite (getter_step _ _ _ _ _ _ Hin Hstep) in IH.
    + rewrite pointed_getter_field, Hstep in IH by (eapply field_no_dot; eauto).
      simpl in IH. inversion IH; subst; discriminate.
Qed.
End Writes.

Section Shrink.
Variable inspect : schema -> list (string * RelInfo).
Hypothesis wf : fields_wf inspect.

Lemma guard_free_all self d :
  guard_free inspect self d
  <-> forall field, field ∈ inspect self -> guard_hit d field = false.
Proof.
  unfold guard_free. split.
  - intros H field Hin. destruct (guard_hit d field) eqn:E; [| reflexivity].
    assert (existsb (guard_hit d) (inspect self) = true)
      by (apply existsb_exists; exists field;
          split; [now apply list_elem_of_In | exact E]).
    congruence.
  - intros H. destruct (existsb _ _) eqn:E; [| reflexivity].
    apply existsb_exists in E as [field [Hin Hhit]].
    apply list_elem_of_In in Hin. rewrite (H _ Hin) in Hhit. discriminate.
Qed.

Lemma other_field_getter (dd : list (string * value)) self f g info (v dflt : value) :
  (g, info) ∈ inspect self -> g <> f ->
  pointed_getter (VDict (dict_set f v dd)) g dflt = pointed_getter (VDict dd) g dflt.
Proof.
  intros Hin Hne. rewrite pointed_getter_dict_set by (eapply field_no_dot; eauto).
  destruct (String.eqb f g) eqn:E; [| reflexivity].
  apply String.eqb_eq in E. congruence.
Qed.

Lemma same_field_getter (dd : list (string * value)) self f info (v dflt : value) :
  (f, info) ∈ inspect self ->
  pointed_getter (VDict (dict_set f v dd)) f dflt = v.
Proof.
  intros Hin. rewrite pointed_getter_dict_set by (eapply field_no_dot; eauto).
  now rewrite String.eqb_refl.
Qed.

(** After the value of field [f] of a mapping is replaced, what the node
    records comes from [f], or is recorded by the unchanged node too, under
    another field. *)
Lemma node_write_collected self dd f v info_f segs m k :
  (f, info_f) ∈ inspect self ->
  truthy (VDict dd) = true ->
  guard_hit (VDict dd) (f, info_f) = false ->
  collected inspect self (VDict (dict_set f v dd)) segs m k ->
  guard_free inspect self (VDict dd)
  /\ (contributes inspect (VDict (dict_set f v dd)) (f, info_f) segs m k
      \/ (collected inspect self (VDict dd) segs m k
          /\ forall rest, segs <> f :: rest)).
Proof.
  intros Hin Ht Hhit Hc.
  apply collected_node in Hc as [_ [Hg [[g info] [Hin' Hc]]]]; [| reflexivity].
  assert (Hfree : guard_free inspect self (VDict dd)).
  { apply guard_free_all. intros [g' info'] Hin''.
    destruct (decide (g' = f)) as [-> | Hne].
    - now rewrite (field_unique inspect wf _ _ _ _ Hin'' Hin).
    - rewrite <- (same_getter_guard (VDict dd) (VDict (dict_set f v dd))).
      + now apply (proj1 (guard_free_all _ _) Hg).
      + intros dflt. simpl. eapply other_field_getter; eauto. }
  split; [exact Hfree |].
  destruct (decide (g = f)) as [-> | Hne].
  - left. now rewrite (field_unique inspect wf _ _ _ _ Hin Hin').
  - right. split.
    + apply collected_node; [reflexivity |]. split; [exact Ht |].
      split; [exact Hfree |]. exists (g, info). split; [exact Hin' |].
      eapply same_getter_contributes; [| exact Hc].
      intros dflt. simpl. eapply other_field_getter; eauto.
    + intros rest ->. apply contributes_head in Hc as [rest' Heq].
      simpl in Heq. congruence.
Qed.
End Shrink.

Section WriteShrinks.
Variable inspect : schema -> list (string * RelInfo).
Hypothesis wf : fields_wf inspect.

Lemma lazy_not_list (L : value) : is_lazy L = true -> forall l, L <> VList l.
Proof. destruct L; simpl; intros; discriminate. Qed.

(** Writing a placeholder at a designated path can only take away from what
    the collector records, and takes away the record at that path. *)
Lemma write_shrinks self d q :
  designated inspect self d q ->
  forall L d',
    is_lazy L = true ->
    set_segs q L d = Some d' ->
    forall segs m k,
      collected inspect self d' segs m k ->
      collected inspect self d segs m k /\ segs <> q.
Proof.
  induction 1 as [self l index x segs0 Hx Hdes IH
                 | self data f m0 Hseq Ht Hin
                 | self data f m0 Hseq Ht Hin Hquiet
                 | self data f s l index x segs0 Hseq Ht Hin Hstep Hx Hdes IH
                 | self data f s child segs0 Hseq Ht Hin Hstep Hdes IH];
    intros L d' HL Hset segs m k Hc.
  - apply set_segs_index in Hset as [x0 [x' [Hx0 [Hset ->]]]];
      [| eapply designated_nonempty; eauto].
    rewrite Hx in Hx0; inversion Hx0; subst x0.
    apply (collected_seq inspect _ _ (<[index := x']> l)) in Hc
      as [j [y [rest [Hj [-> Hc]]]]]; [| reflexivity].
    destruct (decide (j = index)) as [-> | Hne].
    + rewrite list_lookup_insert_eq in Hj by (eapply lookup_lt_Some; eauto).
      inversion Hj; subst y.
      destruct (IH _ _ HL Hset _ _ _ Hc) as [Hc' Hneq].
      split; [eapply col_seq; eauto; reflexivity | congruence].
    + rewrite list_lookup_insert_ne in Hj by congruence.
      split; [eapply col_seq; eauto; reflexivity |].
      intros Heq. injection Heq as Hidx _.
      apply str_of_index_inj in Hidx. congruence.
  - rewrite set_segs_single in Hset.
    apply path_assign_node in Hset as [dd [-> ->]]; [| exact Hseq].
    apply collected_node in Hc as [_ [Hg _]]; [| reflexivity].
    exfalso. pose proof (proj1 (guard_free_all inspect _ _) Hg _ Hin) as Hhit.
    clear Hg. rename Hhit into Hg. unfold guard_hit, fk_value in Hg; simpl in Hg.
    rewrite (same_field_getter inspect wf dd self f _ L VNone Hin) in Hg.
    destruct L; simpl in HL, Hg; discriminate.
  - rewrite set_segs_single in Hset.
    apply path_assign_node in Hset as [dd [-> ->]]; [| exact Hseq].
    assert (Hhit : guard_hit (VDict dd) (f, QSField m0) = false).
    { unfold guard_hit; simpl. unfold qs_quiet in Hquiet.
      now destruct (pointed_getter (VDict dd) f (VList [])). }
    destruct (node_write_collected inspect wf _ _ _ _ _ _ _ _ Hin Ht Hhit Hc)
      as [_ [Hf | [Hc' Hneq]]].
    + exfalso. unfold contributes in Hf; simpl in Hf.
      destruct Hf as [_ [_ [l [Hl _]]]].
      rewrite (same_field_getter inspect wf dd self f _ L _ Hin) in Hl.
      now apply (lazy_not_list L HL l).
    + split; [exact Hc' | apply Hneq].
  - apply set_segs_field in Hset
      as [dd [child [child' [-> [Hchild [Hset ->]]]]]];
      [| exact Hseq | discriminate].
    simpl in Hstep. rewrite Hstep in Hchild; inversion Hchild; subst child.
    apply set_segs_index in Hset as [x0 [x' [Hx0 [Hset ->]]]];
      [| eapply designated_nonempty; eauto].
    rewrite Hx in Hx0; inversion Hx0; subst x0.
    destruct (node_write_collected inspect wf _ _ _ _ _ _ _ _ Hin Ht eq_refl Hc)
      as [Hfree [Hf | [Hc' Hneq]]]; [| split; [exact Hc' | apply Hneq]].
    unfold contributes in Hf; simpl in Hf.
    destruct Hf as [l' [j [y [rest [Hl' [Hj [-> Hcy]]]]]]].
    rewrite (same_field_getter inspect wf dd self f _ _ _ Hin) in Hl'.
    inversion Hl'; subst l'.
    assert (Hback : forall y', l !! j = Some y' ->
               collected inspect s y' rest m k ->
               collected inspect self (VDict dd)
                 (f :: str_of_index j :: rest) m k).
    { intros y' Hy' Hcy'. eapply col_rl; eauto.
      eapply getter_step; eauto. }
    destruct (decide (j = index)) as [-> | Hne].
    + rewrite list_lookup_insert_eq in Hj by (eapply lookup_lt_Some; eauto).
      inversion Hj; subst y.
      destruct (IH _ _ HL Hset _ _ _ Hcy) as [Hc' Hneq].
      split; [now apply (Hback x) | congruence].
    + rewrite list_lookup_insert_ne in Hj by congruence.
      split; [now apply (Hback y) |].
      intros Heq. injection Heq as Hidx _.
      apply str_of_index_inj in Hidx. congruence.
  - apply set_segs_field in Hset
      as [dd [child0 [child' [-> [Hchild [Hset ->]]]]]];
      [| exact Hseq | eapply designated_nonempty; eauto].
    simpl in Hstep. rewrite Hstep in Hchild; inversion Hchild; subst child0.
    destruct (node_write_collected inspect wf _ _ _ _ _ _ _ _ Hin Ht eq_refl Hc)
      as [Hfree [Hf | [Hc' Hneq]]]; [| split; [exact Hc' | apply Hneq]].
    unfold contributes in Hf; simpl in Hf.
    destruct Hf as [rest [-> Hcy]].
    rewrite (same_field_getter inspect wf dd self f _ _ _ Hin) in Hcy.
    destruct (IH _ _ HL Hset _ _ _ Hcy) as [Hc' Hneq].
    split; [| congruence].
    eapply col_ri; eauto.
    now rewrite (getter_step inspect wf (VDict dd) self f _ child VNone Hin Hstep).
Qed.
End WriteShrinks.

Section WriteKeeps.
Variable inspect : schema -> list (string * RelInfo).
Hypothesis wf : fields_wf inspect.

Lemma truthy_dict_set (dd : list (string * value)) (f : string) (v : value) :
  truthy (VDict (dict_set f v dd)) = true.
Proof. destruct dd as [| [k x] dd]; simpl; [| destruct (String.eqb k f)]; reflexivity. Qed.

Lemma other_field_step (dd : list (string * value)) (f g : string) (v : value) :
  g <> f -> path_step (VDict (dict_set f v dd)) g = path_step (VDict dd) g.
Proof.
  intros Hne. simpl. rewrite dict_get_set.
  destruct (String.eqb f g) eqn:E; [| reflexivity].
  apply String.eqb_eq in E. congruence.
Qed.

Lemma same_field_step (dd : list (string * value)) (f : string) (v : value) :
  path_step (VDict (dict_set f v dd)) f = Some v.
Proof. simpl. now rewrite dict_get_set, String.eqb_refl. Qed.

Lemma designated_list_inv self l q :
  designated inspect self (VList l) q ->
  exists j y rest,
    q = str_of_index j :: rest /\ l !! j = Some y /\ designated inspect self y rest.
Proof. intros H. inversion H; subst; try discriminate. eauto 10. Qed.

Lemma designated_node_inv self d q :
  sequence_items d = None ->
  designated inspect self d q ->
  truthy d = true
  /\ exists f info rest,
      q = f :: rest /\ (f, info) ∈ inspect self
      /\ match info with
         | FKField _ => rest = []
         | QSField _ => rest = [] /\ qs_quiet d f
         | RLField s =>
             exists l j y rest',
               path_step d f = Some (VList l) /\ rest = str_of_index j :: rest'
               /\ l !! j = Some y /\ designated inspect s y rest'
         | RIField s =>
             exists child,
               path_step d f = Some child /\ designated inspect s child rest
         end.
Proof.
  intros Hseq H. inversion H; subst; try discriminate.
  - split; [assumption |]. exists field_name, (FKField m), []. auto.
  - split; [assumption |]. exists field_name, (QSField m), []. auto.
  - split; [assumption |].
    exists field_name, (RLField s), (str_of_index index :: segs).
    split; [reflexivity |]. split; [assumption |]. eauto 10.
  - split; [assumption |]. exists field_name, (RIField s), segs.
    split; [reflexivity |]. split; [assumption |]. eauto.
Qed.

Lemma designated_node_intro self d f info rest :
  sequence_items d = None ->
  truthy d = true ->
  (f, info) ∈ inspect self ->
  match info with
  | FKField _ => rest = []
  | QSField _ => rest = [] /\ qs_quiet d f
  | RLField s =>
      exists l j y rest',
        path_step d f = Some (VList l) /\ rest = str_of_index j :: rest'
        /\ l !! j = Some y /\ designated inspect s y rest'
  | RIField s =>
      exists child, path_step d f = Some child /\ designated inspect s child rest
  end ->
  designated inspect self d (f :: rest).
Proof.
  intros Hseq Ht Hin H. destruct info as [m | m | s | s].
  - subst rest. eapply des_fk; eauto.
  - destruct H as [-> Hq]. eapply des_qs; eauto.
  - destruct H as [l [j [y [rest' [Hstep [-> [Hy Hd]]]]]]]. eapply des_rl; eauto.
  - destruct H as [child [Hstep Hd]]. eapply des_ri; eauto.
Qed.

(** A designated path through another field of a rewritten mapping is still
    designated. *)
Lemma designated_other_field self dd f v g rest :
  g <> f ->
  designated inspect self (VDict dd) (g :: rest) ->
  designated inspect self (VDict (dict_set f v dd)) (g :: rest).
Proof.
  intros Hne H.
  apply designated_node_inv in H as [_ [g' [info [rest' [Heq [Hin H]]]]]];
    [| reflexivity].
  inversion Heq; subst g' rest'.
  apply (designated_node_intro self (VDict (dict_set f v dd)) g info rest eq_refl
           (truthy_dict_set _ _ _) Hin).
  destruct info; unfold qs_quiet in *;
    rewrite ?(other_field_getter inspect wf dd self f g _ v _ Hin Hne),
            ?other_field_step by exact Hne;
    exact H.
Qed.

(** The same, for the field that was rewritten: the kind of the field is
    known, and what is below it is given. *)
Lemma designated_same_field self dd f v info rest :
  (f, info) ∈ inspect self ->
  match info with
  | FKField _ => rest = []
  | QSField _ => rest = [] /\ forall l, v = VList l -> existsb is_lazy l = false
  | RLField s =>
      exists l j y rest',
        v = VList l /\ rest = str_of_index j :: rest'
        /\ l !! j = Some y /\ designated inspect s y rest'
  | RIField s => designated inspect s v rest
  end ->
  designated inspect self (VDict (dict_set f v dd)) (f :: rest).
Proof.
  intros Hin H.
  apply (designated_node_intro self (VDict (dict_set f v dd)) f info rest eq_refl
           (truthy_dict_set _ _ _) Hin).
  destruct info as [m | m | s | s].
  - exact H.
  - destruct H as [-> H]. split; [reflexivity |]. unfold qs_quiet.
    rewrite (same_field_getter inspect wf dd self f _ v _ Hin).
    destruct v; auto.
  - destruct H as [l [j [y [rest' [-> [-> [Hy Hd]]]]]]].
    exists l, j, y, rest'. split; [apply same_field_step | auto].
  - exists v. split; [apply same_field_step | exact H].
Qed.

(** Writing a placeholder at a designated path leaves every designated path
    designated. *)
Lemma write_keeps_designated self d q' :
  designated inspect self d q' ->
  forall L d',
    is_lazy L = true ->
    set_segs q' L d = Some d' ->
    forall q, designated inspect self d q -> designated inspect self d' q.
Proof.
  induction 1 as [self l index x segs0 Hx Hdes IH
                 | self data f m0 Hseq Ht Hin
                 | self data f m0 Hseq Ht Hin Hquiet
                 | self data f s l index x segs0 Hseq Ht Hin Hstep Hx Hdes IH
                 | self data f s child segs0 Hseq Ht Hin Hstep Hdes IH];
    intros L d' HL Hset q Hq.
  - apply set_segs_index in Hset as [x0 [x' [Hx0 [Hset ->]]]];
      [| eapply designated_nonempty; eauto].
    rewrite Hx in Hx0; inversion Hx0; subst x0.
    apply designated_list_inv in Hq as [j [y [rest [-> [Hy Hq]]]]].
    destruct (decide (j = index)) as [-> | Hne].
    + rewrite Hx in Hy; inversion Hy; subst y.
      eapply des_seq; [| eapply IH; eauto].
      apply list_lookup_insert_eq. eapply lookup_lt_Some; eauto.
    + eapply des_seq; [| eauto]. now rewrite list_lookup_insert_ne by congruence.
  - rewrite set_segs_single in Hset.
    apply path_assign_node in Hset as [dd [-> ->]]; [| exact Hseq].
    destruct q as [| g rest]; [now apply designated_nonempty in Hq |].
    destruct (decide (g = f)) as [-> | Hne];
      [| now apply designated_other_field].
    apply designated_node_inv in Hq as [_ [g' [info [rest' [Heq [Hin' Hq]]]]]];
      [| reflexivity].
    inversion Heq; subst g' rest'.
    rewrite <- (field_unique inspect wf _ _ _ _ Hin Hin') in Hq.
    now apply (designated_same_field self dd f L (FKField m0) rest Hin).
  - rewrite set_segs_single in Hset.
    apply path_assign_node in Hset as [dd [-> ->]]; [| exact Hseq].
    destruct q as [| g rest]; [now apply designated_nonempty in Hq |].
    destruct (decide (g = f)) as [-> | Hne];
      [| now apply designated_other_field].
    apply designated_node_inv in Hq as [_ [g' [info [rest' [Heq [Hin' Hq]]]]]];
      [| reflexivity].
    inversion Heq; subst g' rest'.
    rewrite <- (field_unique inspect wf _ _ _ _ Hin Hin') in Hq.
    apply (designated_same_field self dd f L (QSField m0) rest Hin).
    destruct Hq as [-> _]. split; [reflexivity |].
    intros l ->. discriminate.
  - apply set_segs_field in Hset
      as [dd [child [child' [-> [Hchild [Hset ->]]]]]];
      [| exact Hseq | discriminate].
    simpl in Hstep. rewrite Hstep in Hchild; inversion Hchild; subst child.
    apply set_segs_index in Hset as [x0 [x' [Hx0 [Hset ->]]]];
      [| eapply designated_nonempty; eauto].
    rewrite Hx in Hx0; inversion Hx0; subst x0.
    destruct q as [| g rest]; [now apply designated_nonempty in Hq |].
    destruct (decide (g = f)) as [-> | Hne];
      [| now apply designated_other_field].
    apply designated_node_inv in Hq as [_ [g' [info [rest' [Heq [Hin' Hq]]]]]];
      [| reflexivity].
    inversion Heq; subst g' rest'.
    rewrite <- (field_unique inspect wf _ _ _ _ Hin Hin') in Hq.
    destruct Hq as [l' [j [y [rest' [Hstep' [-> [Hy Hq]]]]]]].
    simpl in Hstep'. rewrite Hstep in Hstep'; inversion Hstep'; subst l'.
    apply (designated_same_field self dd f _ (RLField s) _ Hin).
    destruct (decide (j = index)) as [-> | Hne].
    + rewrite Hx in Hy; inversion Hy; subst y.
      exists (<[index := x']> l), index, x', rest'.
      split; [reflexivity |]. split; [reflexivity |].
      split; [| eapply IH; eauto].
      apply list_lookup_insert_eq. eapply lookup_lt_Some; eauto.
    + exists (<[index := x']> l), j, y, rest'.
      split; [reflexivity |]. split; [reflexivity |].
      split; [| exact Hq]. now rewrite list_lookup_insert_ne by congruence.
  - apply set_segs_field in Hset
      as [dd [child0 [child' [-> [Hchild [Hset ->]]]]]];
      [| exact Hseq | eapply designated_nonempty; eauto].
    simpl in Hstep. rewrite Hstep in Hchild; inversion Hchild; subst child0.
    destruct q as [| g rest]; [now apply designated_nonempty in Hq |].
    destruct (decide (g = f)) as [-> | Hne];
      [| now apply designated_other_field].
    apply designated_node_inv in Hq as [_ [g' [info [rest' [Heq [Hin' Hq]]]]]];
      [| reflexivity].
    inversion Heq; subst g' rest'.
    rewrite <- (field_unique inspect wf _ _ _ _ Hin Hin') in Hq.
    destruct Hq as [child0 [Hstep' Hq]].
    simpl in Hstep'. rewrite Hstep in Hstep'; inversion Hstep'; subst child0.
    apply (designated_same_field self dd f _ (RIField s) _ Hin).
    eapply IH; eauto.
Qed.
End WriteKeeps.

(** ** Whether the collector returns *)

Section Returns.
Variable rec : schema -> value -> result fk_map.

Lemma is_ok_seq_loop (self : schema) (items : list value) :
  forall index acc,
    is_ok (seq_loop rec self items index acc)
    = forallb (fun x => is_ok (rec self x)) items.
Proof.
  induction items as [| v r IH]; intros index acc; [reflexivity |].
  cbn [seq_loop forallb]. destruct (rec self v); simpl; [apply IH | reflexivity].
Qed.

Lemma is_ok_rl_loop (s : schema) (field_name : string) (values : list value) :
  forall index acc,
    is_ok (rl_loop rec s field_name values index acc)
    = forallb (fun x => is_ok (rec s x)) values.
Proof.
  induction values as [| v r IH]; intros index acc; [reflexivity |].
  cbn [rl_loop forallb]. destruct (rec s v); simpl; [apply IH | reflexivity].
Qed.

Lemma is_ok_fields_loop (data : value) (fields : list (string * RelInfo)) :
  forall acc, is_ok (fields_loop rec data fields acc) = fields_ok rec data fields.
Proof.
  induction fields as [| [f info] rest IH]; intros acc; [reflexivity |].
  cbn [fields_ok]. unfold guard_hit, child_ok. cbn [fst snd].
  destruct info as [m | m | s | s].
  - rewrite fields_loop_step_fk.
    destruct (truthy (fk_value m data f)); simpl; [| apply IH].
    destruct (is_lazy (fk_value m data f)); simpl; [reflexivity | apply IH].
  - cbn [fields_loop].
    destruct (pointed_getter data f (VList [])); simpl; try apply IH.
    destruct (existsb is_lazy l); simpl; [reflexivity | apply IH].
  - cbn [fields_loop].
    destruct (pointed_getter data f (VList [])); simpl; try apply IH.
    pose proof (is_ok_rl_loop s f l 0 acc) as Hrl.
    destruct (rl_loop rec s f l 0 acc); simpl in *; rewrite <- Hrl; simpl;
      [apply IH | reflexivity].
  - cbn [fields_loop].
    destruct (rec s (pointed_getter data f VNone)); simpl; [apply IH | reflexivity].
Qed.

(** The loop over the fields of a rewritten node returns if it did before,
    when every field that tripped the guard still does and the recursive
    calls of every other field still return. *)
Lemma fields_ok_mono (rec' : schema -> value -> result fk_map) (d d' : value)
    (fields : list (string * RelInfo)) :
  (forall field,
      field ∈ fields ->
      (guard_hit d field = true -> guard_hit d' field = true)
      /\ (guard_hit d field = false -> child_ok rec d field = true ->
          guard_hit d' field = true \/ child_ok rec' d' field = true)) ->
  fields_ok rec d fields = true ->
  fields_ok rec' d' fields = true.
Proof.
  induction fields as [| field rest IH]; intros Hall Hok; [reflexivity |].
  cbn [fields_ok] in *.
  destruct (Hall field (list_elem_of_here _ _)) as [Hhit Hchild].
  assert (Hrest : fields_ok rec d rest = true -> fields_ok rec' d' rest = true).
  { apply IH. intros fld Hin. apply Hall. now apply list_elem_of_further. }
  destruct (guard_hit d field) eqn:Hg.
  - now rewrite Hhit.
  - simpl in Hok. apply andb_true_iff in Hok as [Hc Hr].
    destruct (Hchild eq_refl Hc) as [-> | ->]; [reflexivity |].
    rewrite (Hrest Hr). apply orb_true_r.
Qed.
End Returns.

Lemma is_ok_get_all (inspect : schema -> list (string * RelInfo)) (limit : nat)
    (self : schema) (data : value) :
  is_ok (get_all_fk_data inspect (S limit) self data)
  = match sequence_items data with
    | Some items =>
        forallb (fun x => is_ok (get_all_fk_data inspect limit self x)) items
    | None =>
        negb (truthy data)
        || fields_ok (get_all_fk_data inspect limit) data (inspect self)
    end.
Proof.
  cbn [get_all_fk_data]. destruct (sequence_items data).
  - apply is_ok_seq_loop.
  - unfold get_fk_data. destruct (truthy data); simpl; [| reflexivity].
    apply is_ok_fields_loop.
Qed.

Lemma forallb_insert {A} (P : A -> bool) (l : list A) (i : nat) (x : A) :
  forallb P l = true -> P x = true -> forallb P (<[i := x]> l) = true.
Proof.
  revert i. induction l as [| a l IH]; intros i Hl Hx; [reflexivity |].
  simpl in Hl. apply andb_true_iff in Hl as [Ha Hl].
  destruct i as [| i]; simpl; [now rewrite Hx | now rewrite Ha, IH].
Qed.

Lemma forallb_lookup {A} (P : A -> bool) (l : list A) (i : nat) (x : A) :
  forallb P l = true -> l !! i = Some x -> P x = true.
Proof.
  revert i. induction l as [| a l IH]; intros i Hl Hi; [discriminate |].
  simpl in Hl. apply andb_true_iff in Hl as [Ha Hl].
  destruct i as [| i]; simpl in Hi; [now inversion Hi; subst | eauto].
Qed.

Section WriteOk.
Variable inspect : schema -> list (string * RelInfo).
Hypothesis wf : fields_wf inspect.

(** The loop over the fields of a mapping with the value of field [f]
    replaced returns if it did before, provided field [f] itself is no
    worse off. *)
Lemma node_write_ok self dd f v info_f (rec : schema -> value -> result fk_map) :
  (f, info_f) ∈ inspect self ->
  (guard_hit (VDict dd) (f, info_f) = true ->
   guard_hit (VDict (dict_set f v dd)) (f, info_f) = true) ->
  (guard_hit (VDict dd) (f, info_f) = false ->
   child_ok rec (VDict dd) (f, info_f) = true ->
   guard_hit (VDict (dict_set f v dd)) (f, info_f) = true
   \/ child_ok rec (VDict (dict_set f v dd)) (f, info_f) = true) ->
  fields_ok rec (VDict dd) (inspect self) = true ->
  fields_ok rec (VDict (dict_set f v dd)) (inspect self) = true.
Proof.
  intros Hin Hhit Hchild. apply fields_ok_mono.
  intros [g info] Hin'. destruct (decide (g = f)) as [-> | Hne].
  - rewrite <- (field_unique inspect wf _ _ _ _ Hin Hin'). now split.
  - assert (Hget : forall dflt,
               pointed_getter (VDict (dict_set f v dd)) (g, info).1 dflt
               = pointed_getter (VDict dd) (g, info).1 dflt)
      by (intros dflt; simpl; eapply other_field_getter; eauto).
    rewrite (same_getter_guard _ _ _ Hget), (same_getter_child_ok rec _ _ _ Hget).
    split; [auto | intros _ Hc; now right].
Qed.

(** Writing a placeholder at a designated path keeps the collector
    returning. *)
Lemma write_keeps_ok self d q :
  designated inspect self d q ->
  forall L d',
    is_lazy L = true ->
    set_segs q L d = Some d' ->
    forall limit,
      is_ok (get_all_fk_data inspect limit self d) = true ->
      is_ok (get_all_fk_data inspect limit self d') = true.
Proof.
  induction 1 as [self l index x segs0 Hx Hdes IH
                 | self data f m0 Hseq Ht Hin
                 | self data f m0 Hseq Ht Hin Hquiet
                 | self data f s l index x segs0 Hseq Ht Hin Hstep Hx Hdes IH
                 | self data f s child segs0 Hseq Ht Hin Hstep Hdes IH];
    intros L d' HL Hset limit Hok;
    (destruct limit as [| limit]; [discriminate |]);
    rewrite is_ok_get_all in Hok; rewrite is_ok_get_all.
  - apply set_segs_index in Hset as [x0 [x' [Hx0 [Hset ->]]]];
      [| eapply designated_nonempty; eauto].
    rewrite Hx in Hx0; inversion Hx0; subst x0. simpl in *.
    apply forallb_insert; [exact Hok |].
    eapply IH; eauto.
    apply (forallb_lookup (fun x => is_ok (get_all_fk_data inspect limit self x))
             l index x Hok Hx).
  - rewrite set_segs_single in Hset.
    apply path_assign_node in Hset as [dd [-> ->]]; [| exact Hseq].
    simpl sequence_items in *. rewrite Ht in Hok. rewrite truthy_dict_set.
    simpl in *.
    apply (node_write_ok self dd f L (FKField m0) _ Hin); [| | exact Hok].
    + intros _. unfold guard_hit, fk_value; simpl.
      rewrite (same_field_getter inspect wf dd self f _ L VNone Hin).
      now destruct L.
    + intros _ _. left. unfold guard_hit, fk_value; simpl.
      rewrite (same_field_getter inspect wf dd self f _ L VNone Hin).
      now destruct L.
  - rewrite set_segs_single in Hset.
    apply path_assign_node in Hset as [dd [-> ->]]; [| exact Hseq].
    simpl sequence_items in *. rewrite Ht in Hok. rewrite truthy_dict_set.
    simpl in *.
    apply (node_write_ok self dd f L (QSField m0) _ Hin); [| | exact Hok].
    + intros Hhit. exfalso. unfold guard_hit in Hhit; simpl in Hhit.
      unfold qs_quiet in Hquiet.
      destruct (pointed_getter (VDict dd) f (VList [])); congruence.
    + intros _ _. now right.
  - apply set_segs_field in Hset
      as [dd [child [child' [-> [Hchild [Hset ->]]]]]];
      [| exact Hseq | discriminate].
    simpl in Hstep. rewrite Hstep in Hchild; inversion Hchild; subst child.
    apply set_segs_index in Hset as [x0 [x' [Hx0 [Hset ->]]]];
      [| eapply designated_nonempty; eauto].
    rewrite Hx in Hx0; inversion Hx0; subst x0.
    simpl sequence_items in *. rewrite Ht in Hok. rewrite truthy_dict_set.
    simpl in *.
    apply (node_write_ok self dd f _ (RLField s) _ Hin); [auto | | exact Hok].
    intros _ Hc. right. unfold child_ok in *; simpl in *.
    rewrite (same_field_getter inspect wf dd self f _ _ _ Hin).
    rewrite (getter_step inspect wf (VDict dd) self f _ (VList l) _ Hin Hstep) in Hc.
    apply forallb_insert; [exact Hc |].
    eapply IH; eauto.
    apply (forallb_lookup (fun x => is_ok (get_all_fk_data inspect limit s x))
             l index x Hc Hx).
  - apply set_segs_field in Hset
      as [dd [child0 [child' [-> [Hchild [Hset ->]]]]]];
      [| exact Hseq | eapply designated_nonempty; eauto].
    simpl in Hstep. rewrite Hstep in Hchild; inversion Hchild; subst child0.
    simpl sequence_items in *. rewrite Ht in Hok. rewrite truthy_dict_set.
    simpl in *.
    apply (node_write_ok self dd f _ (RIField s) _ Hin); [auto | | exact Hok].
    intros _ Hc. right. unfold child_ok in *; simpl in *.
    rewrite (same_field_getter inspect wf dd self f _ _ _ Hin).
    rewrite (getter_step inspect wf (VDict dd) self f _ child _ Hin Hstep) in Hc.
    eapply IH; eauto.
Qed.
End WriteOk.

(** ** Reading back what was written *)

Lemma path_assign_step (obj : value) (f : string) (v obj' : value) :
  path_assign obj f v = Some obj' -> path_step obj' f = Some v.
Proof.
  destruct obj; simpl; try discriminate.
  - destruct (index_of_str f) as [i |] eqn:Hi; simpl; [| discriminate].
    destruct (decide (i < length l)%nat); intros H; inversion H; subst.
    simpl. rewrite Hi. simpl. now apply list_lookup_insert_eq.
  - intros H; inversion H; subst. simpl. now rewrite dict_get_set, String.eqb_refl.
Qed.

Lemma get_segs_cons (f : string) (rest : list string) (d : value) :
  get_segs (f :: rest) d = path_step d f ≫= get_segs rest.
Proof. reflexivity. Qed.

(** The value written at a path is the value read there afterwards. *)
Lemma get_set_same (q : list string) (v : value) :
  forall d d', set_segs q v d = Some d' -> get_segs q d' = Some v.
Proof.
  induction q as [| f rest IH]; intros d d' H; [discriminate |].
  destruct rest as [| f' rest'].
  - rewrite set_segs_single in H. simpl. now rewrite (path_assign_step _ _ _ _ H).
  - rewrite set_segs_cons in H by discriminate.
    destruct (path_step d f) as [child |]; cbn [mbind option_bind] in H;
      [| discriminate].
    destruct (set_segs (f' :: rest') v child) as [child' |] eqn:Hset;
      cbn [mbind option_bind] in H; [| discriminate].
    rewrite get_segs_cons, (path_assign_step _ _ _ _ H).
    cbn [mbind option_bind]. now apply (IH child).
Qed.

Section Frame.
Variable inspect : schema -> list (string * RelInfo).
Hypothesis wf : fields_wf inspect.

(** A write at one designated path leaves what is read at another
    designated path. *)
Lemma write_frame self d q' :
  designated inspect self d q' ->
  forall L d',
    set_segs q' L d = Some d' ->
    forall q, designated inspect self d q -> q <> q' ->
              get_segs q d' = get_segs q d.
Proof.
  induction 1 as [self l index x segs0 Hx Hdes IH
                 | self data f m0 Hseq Ht Hin
                 | self data f m0 Hseq Ht Hin Hquiet
                 | self data f s l index x segs0 Hseq Ht Hin Hstep Hx Hdes IH
                 | self data f s child segs0 Hseq Ht Hin Hstep Hdes IH];
    intros L d' Hset q Hq Hne.
  - apply set_segs_index in Hset as [x0 [x' [Hx0 [Hset ->]]]];
      [| eapply designated_nonempty; eauto].
    rewrite Hx in Hx0; inversion Hx0; subst x0.
    apply designated_list_inv in Hq as [j [y [rest [-> [Hy Hq]]]]].
    rewrite !get_segs_cons, !path_step_index.
    destruct (decide (j = index)) as [-> | Hj].
    + rewrite list_lookup_insert_eq by (eapply lookup_lt_Some; eauto).
      rewrite Hx in Hy |- *. inversion Hy; subst y. cbn [mbind option_bind].
      eapply IH; eauto. congruence.
    + now rewrite list_lookup_insert_ne by congruence.
  - rewrite set_segs_single in Hset.
    apply path_assign_node in Hset as [dd [-> ->]]; [| exact Hseq].
    apply designated_node_inv in Hq as [_ [g [info [rest [-> [Hin' Hq]]]]]];
      [| reflexivity].
    rewrite !get_segs_cons.
    destruct (decide (g = f)) as [-> | Hg]; [| now rewrite other_field_step].
    rewrite <- (field_unique inspect wf _ _ _ _ Hin Hin') in Hq. congruence.
  - rewrite set_segs_single in Hset.
    apply path_assign_node in Hset as [dd [-> ->]]; [| exact Hseq].
    apply designated_node_inv in Hq as [_ [g [info [rest [-> [Hin' Hq]]]]]];
      [| reflexivity].
    rewrite !get_segs_cons.
    destruct (decide (g = f)) as [-> | Hg]; [| now rewrite other_field_step].
    rewrite <- (field_unique inspect wf _ _ _ _ Hin Hin') in Hq.
    destruct Hq as [-> _]. congruence.
  - apply set_segs_field in Hset
      as [dd [child [child' [-> [Hchild [Hset ->]]]]]];
      [| exact Hseq | discriminate].
    simpl in Hstep. rewrite Hstep in Hchild; inversion Hchild; subst child.
    apply set_segs_index in Hset as [x0 [x' [Hx0 [Hset ->]]]];
      [| eapply designated_nonempty; eauto].
    rewrite Hx in Hx0; inversion Hx0; subst x0.
    apply designated_node_inv in Hq as [_ [g [info [rest [-> [Hin' Hq]]]]]];
      [| reflexivity].
    rewrite !get_segs_cons.
    destruct (decide (g = f)) as [-> | Hg]; [| now rewrite other_field_step].
    rewrite <- (field_unique inspect wf _ _ _ _ Hin Hin') in Hq.
    destruct Hq as [l' [j [y [rest' [Hstep' [-> [Hy Hq]]]]]]].
    simpl in Hstep'. rewrite Hstep in Hstep'; inversion Hstep'; subst l'.
    rewrite same_field_step.
    change (path_step (VDict dd) f) with (dict_get f dd). rewrite Hstep.
    cbn [mbind option_bind]. rewrite !get_segs_cons, !path_step_index.
    destruct (decide (j = index)) as [-> | Hj].
    + rewrite list_lookup_insert_eq by (eapply lookup_lt_Some; eauto).
      rewrite Hx in Hy |- *. inversion Hy; subst y. cbn [mbind option_bind].
      eapply IH; eauto. congruence.
    + now rewrite list_lookup_insert_ne by congruence.
  - apply set_segs_field in Hset
      as [dd [child0 [child' [-> [Hchild [Hset ->]]]]]];
      [| exact Hseq | eapply designated_nonempty; eauto].
    simpl in Hstep. rewrite Hstep in Hchild; inversion Hchild; subst child0.
    apply designated_node_inv in Hq as [_ [g [info [rest [-> [Hin' Hq]]]]]];
      [| reflexivity].
    rewrite !get_segs_cons.
    destruct (decide (g = f)) as [-> | Hg]; [| now rewrite other_field_step].
    rewrite <- (field_unique inspect wf _ _ _ _ Hin Hin') in Hq.
    destruct Hq as [child0 [Hstep' Hq]].
    simpl in Hstep'. rewrite Hstep in Hstep'; inversion Hstep'; subst child0.
    rewrite same_field_step.
    change (path_step (VDict dd) f) with (dict_get f dd). rewrite Hstep.
    cbn [mbind option_bind]. eapply IH; eauto. congruence.
Qed.
End Frame.

Section Functional.
Variable inspect : schema -> list (string * RelInfo).
Hypothesis wf : fields_wf inspect.

Lemma collected_no_dot self d segs m k :
  collected inspect self d segs m k -> forallb no_dot segs = true.
Proof.
  induction 1; simpl; rewrite ?str_of_index_no_dot, ?IHcollected; simpl;
    try reflexivity;
    try (erewrite field_no_dot by eauto; simpl; try reflexivity; assumption).
Qed.

(** A path holds the reference of one model, with one key. *)
Lemma collected_functional self d segs m k :
  collected inspect self d segs m k ->
  forall m' k', collected inspect self d segs m' k' -> m = m' /\ k = k'.
Proof.
  induction 1 as [self data items index x segs m k Hseq Hx Hc IH
                 | self data f m Hseq Ht Hg Hin Htv
                 | self data f m l Hseq Ht Hg Hin Hl
                 | self data f s l index x segs m k Hseq Ht Hg Hin Hl Hx Hc IH
                 | self data f s segs m k Hseq Ht Hg Hin Hc IH];
    intros m' k' H'.
  - apply (collected_seq inspect _ _ items) in H'
      as [j [y [rest [Hj [Heq H']]]]]; [| exact Hseq].
    injection Heq as Hidx <-. apply str_of_index_inj in Hidx; subst j.
    rewrite Hx in Hj; inversion Hj; subst y. now apply IH.
  - apply collected_node in H' as [_ [_ [[g info] [Hin' H']]]]; [| exact Hseq].
    destruct (contributes_head _ _ _ _ _ _ H') as [rest Heq].
    simpl in Heq. injection Heq as <- <-.
    rewrite <- (field_unique inspect wf _ _ _ _ Hin Hin') in H'.
    unfold contributes in H'; simpl in H'. destruct H' as [-> [_ [_ ->]]]. now split.
  - apply collected_node in H' as [_ [_ [[g info] [Hin' H']]]]; [| exact Hseq].
    destruct (contributes_head _ _ _ _ _ _ H') as [rest Heq].
    simpl in Heq. injection Heq as <- <-.
    rewrite <- (field_unique inspect wf _ _ _ _ Hin Hin') in H'.
    unfold contributes in H'; simpl in H'.
    destruct H' as [-> [_ [l' [Hl' ->]]]].
    rewrite Hl in Hl'; inversion Hl'; subst l'. now split.
  - apply collected_node in H' as [_ [_ [[g info] [Hin' H']]]]; [| exact Hseq].
    destruct (contributes_head _ _ _ _ _ _ H') as [rest Heq].
    simpl in Heq. injection Heq as <- <-.
    rewrite <- (field_unique inspect wf _ _ _ _ Hin Hin') in H'.
    unfold contributes in H'; simpl in H'.
    destruct H' as [l' [j [y [rest' [Hl' [Hj [Heq H']]]]]]].
    rewrite Hl in Hl'; inversion Hl'; subst l'.
    injection Heq as Hidx <-. apply str_of_index_inj in Hidx; subst j.
    rewrite Hx in Hj; inversion Hj; subst y. now apply IH.
  - apply collected_node in H' as [_ [_ [[g info] [Hin' H']]]]; [| exact Hseq].
    destruct (contributes_head _ _ _ _ _ _ H') as [rest Heq].
    simpl in Heq. injection Heq as <- <-.
    rewrite <- (field_unique inspect wf _ _ _ _ Hin Hin') in H'.
    unfold contributes in H'; simpl in H'.
    destruct H' as [rest' [Heq H']]. injection Heq as <-. now apply IH.
Qed.
End Functional.

(** ** The substitution loops *)

Lemma fk_writes_elem (fk_data : fk_map) (m : model) (t : tuple) :
  (m, t) ∈ fk_writes fk_data <-> has_tuple fk_data m t.
Proof.
  unfold fk_writes, has_tuple. rewrite list_elem_of_bind. split.
  - intros [[m' ts] [Hin Hfk]]. simpl in Hin.
    apply list_elem_of_fmap in Hin as [t' [Heq Ht]]. inversion Heq; subst. eauto.
  - intros [ts [Hfk Ht]]. exists (m, ts). split; [| exact Hfk].
    simpl. apply list_elem_of_fmap. eauto.
Qed.

Lemma fk_writes_cons (m : model) (ts : list tuple) (fk_data : fk_map) :
  fk_writes ((m, ts) :: fk_data) = (pair m <$> ts) ++ fk_writes fk_data.
Proof. reflexivity. Qed.

Section Fold.
Variable c : cache_ref.
Variable P : model -> tuple -> Prop.
Variable Inv : list (model * tuple) -> value -> Prop.
Hypothesis step :
  forall done cur m t cur',
    P m t -> Inv done cur ->
    pointed_setter cur t.1 (VLazy c m t.2) = Some cur' ->
    Inv (done ++ [(m, t)]) cur'.

Lemma substitute_tuples_inv (m : model) (touples : list tuple) :
  (forall t, t ∈ touples -> P m t) ->
  forall done d d',
    Inv done d ->
    substitute_tuples c m touples d = Ok d' ->
    Inv (done ++ (pair m <$> touples)) d'.
Proof.
  induction touples as [| t r IH]; intros HP done d d' Hinv H.
  - inversion H; subst. now rewrite app_nil_r.
  - cbn [substitute_tuples] in H.
    destruct (pointed_setter d t.1 (VLazy c m t.2)) as [d1 |] eqn:Hset;
      [| discriminate].
    rewrite fmap_cons, (cons_middle (m, t)), app_assoc.
    apply (IH (fun t' Ht' => HP t' (list_elem_of_further _ _ _ Ht')) _ d1);
      [| exact H].
    eapply step; eauto. apply HP, list_elem_of_here.
Qed.

Lemma substitute_inv (fk_data : fk_map) :
  (forall m t, has_tuple fk_data m t -> P m t) ->
  forall done d d',
    Inv done d ->
    substitute c fk_data d = Ok d' ->
    Inv (done ++ fk_writes fk_data) d'.
Proof.
  induction fk_data as [| [m ts] r IH]; intros HP done d d' Hinv H.
  - inversion H; subst. now rewrite app_nil_r.
  - cbn [substitute] in H.
    destruct (substitute_tuples c m ts d) as [d1 |] eqn:Hts; [| discriminate].
    simpl in H. rewrite fk_writes_cons, app_assoc.
    apply (IH (fun m' t' Ht' => HP m' t' (proj2 (has_tuple_cons _ _ _ _ _)
                                            (or_intror Ht'))) _ d1);
      [| exact H].
    eapply substitute_tuples_inv; eauto.
    intros t Ht. apply HP. apply has_tuple_cons. now left.
Qed.
End Fold.

Section Substituted.
Variable inspect : schema -> list (string * RelInfo).
Hypothesis wf : fields_wf inspect.
Variable limit : nat.
Variable self : schema.
Variable d0 : value.
Variable fk_data : fk_map.
Variable c : cache_ref.
Hypothesis collected_d0 : get_all_fk_data inspect limit self d0 = Ok fk_data.

(** The path of a tuple splits into the segments it was recorded under. *)
Lemma tuple_segs (m : model) (t : tuple) :
  has_tuple fk_data m t ->
  exists segs,
    t.1 = dotted segs /\ split_path t.1 = segs
    /\ collected inspect self d0 segs m t.2.
Proof.
  intros Ht. destruct t as [p k].
  apply (get_all_fk_data_records inspect limit self d0 fk_data collected_d0)
    in Ht as [segs [-> Hc]].
  exists segs. split; [reflexivity |]. split; [| exact Hc].
  apply split_path_dotted.
  - eapply collected_nonempty; eauto.
  - eapply collected_no_dot; eauto.
Qed.

Lemma substituted_start : substituted inspect limit self d0 fk_data c [] d0.
Proof.
  split; [intros m t H; now apply elem_of_nil in H |].
  split; [intros q m k H; eapply collected_designated; eauto |].
  split; [intros q m k H; split; [exact H |];
          intros m' t H'; now apply elem_of_nil in H' |].
  split; [now rewrite collected_d0 |].
  intros m t H; now apply elem_of_nil in H.
Qed.

Lemma substituted_step done cur m t cur' :
  has_tuple fk_data m t ->
  substituted inspect limit self d0 fk_data c done cur ->
  pointed_setter cur t.1 (VLazy c m t.2) = Some cur' ->
  substituted inspect limit self d0 fk_data c (done ++ [(m, t)]) cur'.
Proof.
  intros Ht [Hdone [Hdes [Hcol [Hok Hread]]]] Hset.
  destruct (tuple_segs m t Ht) as [segs [Hpath [Hsplit Hc]]].
  unfold pointed_setter in Hset. rewrite Hsplit in Hset.
  pose proof (Hdes _ _ _ Hc) as Hq.
  split; [| split; [| split; [| split]]].
  - intros m' t' Hin. apply elem_of_app in Hin as [Hin | Hin]; [now apply Hdone |].
    apply list_elem_of_singleton in Hin. now inversion Hin; subst.
  - intros q m' k' Hc'.
    exact (write_keeps_designated inspect wf _ _ _ Hq (VLazy c m t.2) cur'
             eq_refl Hset q (Hdes _ _ _ Hc')).
  - intros q m' k' Hc'.
    destruct (write_shrinks inspect wf _ _ _ Hq (VLazy c m t.2) cur'
                eq_refl Hset _ _ _ Hc')
      as [Hcur Hne].
    destruct (Hcol _ _ _ Hcur) as [Hc0 Hnot]. split; [exact Hc0 |].
    intros m'' t'' Hin. apply elem_of_app in Hin as [Hin | Hin]; [eauto |].
    apply list_elem_of_singleton in Hin. inversion Hin; subst. congruence.
  - exact (write_keeps_ok inspect wf _ _ _ Hq (VLazy c m t.2) cur'
             eq_refl Hset limit Hok).
  - intros m' t' Hin. unfold pointed_getter.
    apply elem_of_app in Hin as [Hin | Hin].
    + destruct (tuple_segs m' t' (Hdone _ _ Hin)) as [segs' [Hpath' [Hsplit' Hc']]].
      rewrite Hsplit'. destruct (decide (segs' = segs)) as [-> | Hne].
      * destruct (collected_functional inspect wf _ _ _ _ _ Hc _ _ Hc') as [<- <-].
        now rewrite (get_set_same _ _ _ _ Hset).
      * rewrite (write_frame inspect wf _ _ _ Hq _ _ Hset _ (Hdes _ _ _ Hc') Hne).
        specialize (Hread _ _ Hin). unfold pointed_getter in Hread.
        now rewrite Hsplit' in Hread.
    + apply list_elem_of_singleton in Hin. inversion Hin; subst m' t'.
      rewrite Hsplit. now rewrite (get_set_same _ _ _ _ Hset).
Qed.

(** The tree the substitution ends with. *)
Lemma substitute_substituted (d' : value) :
  substitute c fk_data d0 = Ok d' ->
  substituted inspect limit self d0 fk_data c (fk_writes fk_data) d'.
Proof.
  intros H.
  apply (substitute_inv c (has_tuple fk_data)
           (substituted inspect limit self d0 fk_data c)
           substituted_step fk_data (fun _ _ Ht => Ht) [] d0 d'
           substituted_start H).
Qed.
End Substituted.

(** ** A second pass on a substituted tree *)

Lemma no_tuples_plainset (fk_data : fk_map) (plainset : plainset_t) :
  (forall m t, ~ has_tuple fk_data m t) ->
  build_plainset fk_data plainset = Ok plainset.
Proof.
  induction fk_data as [| [m ts] r IH]; intros Hnone; [reflexivity |].
  destruct ts as [| t ts].
  - simpl. apply IH. intros m' t' [ts' [Hin Ht]].
    apply (Hnone m' t'). exists ts'. split; [now apply list_elem_of_further | exact Ht].
  - exfalso. apply (Hnone m t). exists (t :: ts).
    split; apply list_elem_of_here.
Qed.

Lemma no_tuples_substitute (c : cache_ref) (fk_data : fk_map) (data : value) :
  (forall m t, ~ has_tuple fk_data m t) ->
  substitute c fk_data data = Ok data.
Proof.
  induction fk_data as [| [m ts] r IH]; intros Hnone; [reflexivity |].
  destruct ts as [| t ts].
  - simpl. apply IH. intros m' t' [ts' [Hin Ht]].
    apply (Hnone m' t'). exists ts'. split; [now apply list_elem_of_further | exact Ht].
  - exfalso. apply (Hnone m t). exists (t :: ts).
    split; apply list_elem_of_here.
Qed.

(** The relation maps of the fixtures are well formed. *)
Lemma related_wf : fields_wf Fixture.related.
Proof.
  intros self. unfold Fixture.related.
  destruct (String.eqb self "Post"); [| destruct (String.eqb self "Address")].
  - split; [apply (bool_decide_unpack _); vm_compute; reflexivity |].
    intros field Hin.
    repeat (apply elem_of_cons in Hin as [-> | Hin]; [reflexivity |]).
    now apply elem_of_nil in Hin.
  - split; [apply (bool_decide_unpack _); vm_compute; reflexivity |].
    intros field Hin.
    repeat (apply elem_of_cons in Hin as [-> | Hin]; [reflexivity |]).
    now apply elem_of_nil in Hin.
  - split; [constructor |]. intros field Hin. now apply elem_of_nil in Hin.
Qed.

(** C3: build_cache is idempotent on the tree it returns.  When a pass with
    the cache enabled returns a tree, the collector run on that tree returns
    a map with no tuple at all (every reference the first pass recorded now
    holds a Lazy Value, and nothing else is recorded either), and a second
    pass on it returns the very same tree, every Lazy Value in place, and
    leaves the process (shared cache and queries sent) as it was. *)
Theorem build_cache_idempotent (shared_flag : bool)
    (inspect : schema -> list (string * RelInfo)) (limit : nat) (db : database)
    (self : schema) (data data' : value) (p p' : process) :
  fields_wf inspect ->
  build_cache (Settings true shared_flag) inspect limit db self data p
  = (Ok data', p') ->
  (exists fk_data',
      get_all_fk_data inspect limit self data' = Ok fk_data'
      /\ forall m t, ~ has_tuple fk_data' m t)
  /\ build_cache (Settings true shared_flag) inspect limit db self data' p'
     = (Ok data', p').
Proof.
  intros wf H. pose proof H as H1.
  apply build_cache_stages in H1
    as [[e [Hr _]] | [fk [ps [failure [cache [log [Hfk [Hps [Hloop [Hp' Hr]]]]]]]]]];
    [discriminate |].
  destruct failure as [e |]; [discriminate |]. symmetry in Hr.
  destruct (substitute_substituted inspect wf limit self data fk _ Hfk data' Hr)
    as [_ [_ [Hcol [Hok _]]]].
  destruct (get_all_fk_data inspect limit self data') as [fk' |] eqn:Hfk';
    [| discriminate].
  assert (Hnone : forall m t, ~ has_tuple fk' m t).
  { intros m [path k] Ht.
    apply (get_all_fk_data_records inspect limit self data' fk' Hfk') in Ht
      as [segs [-> Hc']].
    destruct (Hcol _ _ _ Hc') as [Hc Hnot].
    apply (Hnot m (dotted segs, k)).
    - apply fk_writes_elem.
      apply (get_all_fk_data_records inspect limit self data fk Hfk).
      exists segs. split; [reflexivity | exact Hc].
    - apply split_path_dotted.
      + eapply collected_nonempty; eauto.
      + eapply collected_no_dot; eauto. }
  split; [exists fk'; split; [reflexivity | exact Hnone] |].
  unfold build_cache. simpl. rewrite Hfk'.
  rewrite (no_tuples_plainset fk' [] Hnone). simpl.
  rewrite no_tuples_substitute by exact Hnone.
  subst p'. destruct shared_flag; reflexivity.
Qed.

Lemma build_cache_idempotent_witness :
  exists data' p',
    Fixture.pass_twice = (Ok data', p')
    /\ build_cache (Settings true false) Fixture.related 5 Fixture.rows "Post"
         data' p'
       = (Ok data', p').
Proof.
  destruct Fixture.pass_twice as [r p'] eqn:Hpass.
  assert (Hok : is_ok r = true).
  { replace r with (Fixture.pass_twice.1) by now rewrite Hpass.
    vm_compute; reflexivity. }
  destruct r as [data' | e]; [| discriminate].
  exists data', p'. split; [reflexivity |].
  exact (proj2 (build_cache_idempotent false Fixture.related 5 Fixture.rows "Post"
                  Fixture.twice data' Fixture.fresh p' related_wf Hpass)).
Defined.

(** ** The key recorded for a path *)

Lemma pointed_getter_scalar (k : key) (path : string) :
  pointed_getter (value_of_key k) path (value_of_key k) = value_of_key k.
Proof.
  unfold pointed_getter. destruct (split_path path) as [| seg rest];
    [reflexivity |]. now destruct k.
Qed.

Section RawKey.
Variable inspect : schema -> list (string * RelInfo).
Hypothesis wf : fields_wf inspect.

End RawKey.

(** * Further properties of the engine *)

(** ** [Cache.flush] by class and by name *)

(** X1: flushing by a class object removes the entries of that class and of
    no other class; flushing a class the cache does not hold changes
    nothing, and so does flushing the same class a second time. *)
Theorem flush_class_removes_only_that_class :
  forall (self : Cache) (m : model),
    flush (FClass m) self !! m = None
    /\ (forall m', m' <> m -> flush (FClass m) self !! m' = self !! m')
    /\ (self !! m = None -> flush (FClass m) self = self)
    /\ flush (FClass m) (flush (FClass m) self) = flush (FClass m) self.
Proof.
  intros self m. rewrite !flush_class. split; [apply lookup_delete_eq |].
  split; [intros m' Hne; now apply lookup_delete_ne |].
  split; [apply delete_id | apply delete_delete_eq].
Qed.

(** X2: flushing by a name never removes the entries of one class: the
    empty name is falsy and clears the whole cache, as no argument does;
    any other name leaves the cache as it is, whether or not a cached class
    has that name. *)
Theorem flush_name_all_or_nothing :
  forall (self : Cache) (s : string),
    flush (FStr "") self = flush FNone self
    /\ flush (FStr "") self = ∅
    /\ (s <> "" -> flush (FStr s) self = self).
Proof.
  intros self s. rewrite !flush_name, flush_none. simpl.
  split; [reflexivity |]. split; [reflexivity |].
  intros Hne. destruct (String.eqb_spec s ""); [contradiction | reflexivity].
Qed.

Lemma flush_name_all_or_nothing_witness :
  flush (FStr "") Sample.user5 = ∅
  /\ flush (FStr "User") Sample.user5 = Sample.user5.
Proof.
  destruct (flush_name_all_or_nothing Sample.user5 "User") as [_ [H1 H2]].
  split; [exact H1 | apply H2; discriminate].
Defined.

(** ** [ValueWithCache.retrieve] on a single key *)

(** X3: resolving a single key that the cache holds for the type returns
    the cached entity and sends no query, whatever the persistence layer
    holds under that key. *)
Theorem retrieve_cached_key_no_query :
  forall (db : database) (p : process) (c : cache_ref) (m : model)
         (cm : gmap key entity) (k : key) (e : entity),
    cache_of p c !! m = Some cm ->
    cm !! k = Some e ->
    retrieve db p c m (value_of_key k) = (Ok (REntity e), p).
Proof.
  intros db p c m cm k e Hcm Hk. unfold retrieve. rewrite Hcm.
  assert (Hiter : iter_items (value_of_key k) = None) by now destruct k.
  rewrite Hiter, as_key_value_of_key. simpl. now rewrite Hk.
Qed.

Lemma retrieve_cached_key_no_query_witness :
  retrieve (fun _ _ => None) Sample.warm SharedCache Fixture.User (VInt 5)
  = (Ok (REntity (Fixture.row Fixture.User 5)), Sample.warm).
Proof.
  apply (retrieve_cached_key_no_query (fun _ _ => None) Sample.warm SharedCache
           Fixture.User {[ KInt 5 := Fixture.row Fixture.User 5 ]} (KInt 5)).
  - apply lookup_singleton_eq.
  - apply lookup_singleton_eq.
Defined.

(** X4: resolving a single key that the cache of the type does not hold
    sends one direct query and returns its outcome; the cache is not
    written, so resolving the same key again sends the query again. *)
Theorem retrieve_uncached_key_queries_each_time :
  forall (db : database) (p : process) (c : cache_ref) (m : model)
         (cm : gmap key entity) (k : key),
    cache_of p c !! m = Some cm ->
    cm !! k = None ->
    let v := value_of_key k in
    let once := retrieve db p c m v in
    once = (REntity <$> manager_get db m v,
            Process (shared p) (calls p ++ [SingleGet m v]))
    /\ retrieve db once.2 c m v
       = (REntity <$> manager_get db m v,
          Process (shared p) (calls p ++ [SingleGet m v; SingleGet m v])).
Proof.
  intros db p c m cm k Hcm Hk v once.
  assert (Hiter : iter_items v = None) by (subst v; now destruct k).
  assert (Hone : forall q : process,
             cache_of q c = cache_of p c ->
             retrieve db q c m v
             = (REntity <$> manager_get db m v,
                Process (shared q) (calls q ++ [SingleGet m v]))).
  { intros q Hq. unfold retrieve. rewrite Hq, Hcm, Hiter. subst v.
    rewrite as_key_value_of_key. simpl. now rewrite Hk. }
  assert (Honce : once = (REntity <$> manager_get db m v,
                          Process (shared p) (calls p ++ [SingleGet m v])))
    by (subst once; now apply Hone).
  split; [exact Honce |]. rewrite Honce. cbn [snd].
  rewrite Hone by now destruct c. cbn [shared calls].
  now rewrite <- app_assoc.
Qed.

Lemma retrieve_uncached_key_queries_each_time_witness :
  retrieve Fixture.rows Sample.warm SharedCache Fixture.User (VInt 6)
  = (Ok (REntity (Fixture.row Fixture.User 6)),
     Process Sample.user5 [SingleGet Fixture.User (VInt 6)]).
Proof.
  refine (proj1 (retrieve_uncached_key_queries_each_time Fixture.rows Sample.warm
                   SharedCache Fixture.User
                   {[ KInt 5 := Fixture.row Fixture.User 5 ]} (KInt 6) _ _)).
  - apply lookup_singleton_eq.
  - now apply lookup_singleton_ne.
Defined.

(** X5: after the shared cache is flushed, entirely or for the type,
    resolving a single-key placeholder of that type bound to the shared
    cache raises [AttributeError] (the per-type mapping is [None]) and sends
    no query, and resolving a placeholder bound to a sequence of keys yields
    the empty collection, whatever the persistence layer holds. *)
Theorem retrieve_after_flush :
  forall (db : database) (cache : Cache) (log : list db_call) (m : model)
         (k : key) (keys : list key) (arg : flush_arg),
    arg = FNone \/ arg = FClass m ->
    let p := Process (flush arg cache) log in
    retrieve db p SharedCache m (value_of_key k) = (Raise AttributeError, p)
    /\ retrieve db p SharedCache m (VList (value_of_key <$> keys))
       = (Ok (RQuerySet
                (QuerySet m (VList (value_of_key <$> keys)) false (Some []))),
          p).
Proof.
  intros db cache log m k keys arg Harg p.
  assert (Hnone : cache_of p SharedCache !! m = None).
  { subst p. cbn [cache_of shared]. destruct Harg as [-> | ->].
    - rewrite flush_none. apply lookup_empty.
    - rewrite flush_class. apply lookup_delete_eq. }
  unfold retrieve. rewrite Hnone. split.
  - now destruct k.
  - reflexivity.
Qed.

Lemma retrieve_after_flush_witness :
  retrieve Fixture.rows (Process (flush (FClass Fixture.User) Sample.user5) [])
    SharedCache Fixture.User (VInt 5)
  = (Raise AttributeError, Process (flush (FClass Fixture.User) Sample.user5) []).
Proof.
  exact (proj1 (retrieve_after_flush Fixture.rows Sample.user5 [] Fixture.User
                  (KInt 5) [] (FClass Fixture.User) (or_intror eq_refl))).
Defined.

(** ** Degenerate inputs of the collector *)

Section Raises.
Variable inspect : schema -> list (string * RelInfo).

(** A non-empty string is a sequence whose items are non-empty strings. *)
Lemma get_all_fk_data_string (limit : nat) :
  forall (self : schema) (s : string),
    s <> "" -> get_all_fk_data inspect limit self (VStr s) = Raise RecursionError.
Proof.
  induction limit as [| limit IH]; intros self s Hne; [reflexivity |].
  destruct s as [| a r]; [congruence |].
  cbn [get_all_fk_data sequence_items list_ascii_of_string].
  rewrite fmap_cons. cbn [seq_loop]. now rewrite IH.
Qed.

Section Loops.
Variable rec : schema -> value -> result fk_map.
Hypothesis rec_raises : forall s x e, rec s x = Raise e -> e = RecursionError.

Lemma seq_loop_raises (self : schema) (items : list value) :
  forall index acc e,
    seq_loop rec self items index acc = Raise e -> e = RecursionError.
Proof.
  induction items as [| v r IH]; intros index acc e H; [discriminate |].
  cbn [seq_loop] in H. destruct (rec self v) eqn:Hv; simpl in H; eauto.
  inversion H; subst. eauto.
Qed.

Lemma rl_loop_raises (s : schema) (f : string) (values : list value) :
  forall index acc e,
    rl_loop rec s f values index acc = Raise e -> e = RecursionError.
Proof.
  induction values as [| v r IH]; intros index acc e H; [discriminate |].
  cbn [rl_loop] in H. destruct (rec s v) eqn:Hv; simpl in H; eauto.
  inversion H; subst. eauto.
Qed.

Lemma fields_loop_raises (data : value) (fields : list (string * RelInfo)) :
  forall acc e, fields_loop rec data fields acc = Raise e -> e = RecursionError.
Proof.
  induction fields as [| [f info] rest IH]; intros acc e H; [discriminate |].
  destruct info as [m | m | s | s].
  - rewrite fields_loop_step_fk in H.
    destruct (truthy (fk_value m data f)); [| eauto].
    destruct (is_lazy (fk_value m data f)); [discriminate | eauto].
  - cbn [fields_loop] in H.
    destruct (pointed_getter data f (VList [])); eauto.
    destruct (existsb is_lazy l); [discriminate | eauto].
  - cbn [fields_loop] in H.
    destruct (pointed_getter data f (VList [])); eauto.
    destruct (rl_loop rec s f l 0 acc) eqn:Hl; simpl in H; eauto.
    inversion H; subst. eapply rl_loop_raises; eauto.
  - cbn [fields_loop] in H.
    destruct (rec s (pointed_getter data f VNone)) eqn:Hc; simpl in H; eauto.
    inversion H; subst. eauto.
Qed.

Lemma fields_ok_child (data : value) (fields : list (string * RelInfo)) :
  fields_ok rec data fields = true ->
  existsb (guard_hit data) fields = false ->
  forall field, field ∈ fields -> child_ok rec data field = true.
Proof.
  induction fields as [| g rest IH]; intros Hok Hg field Hin;
    [now apply elem_of_nil in Hin |].
  cbn [fields_ok existsb] in Hok, Hg.
  apply orb_false_iff in Hg as [Hg1 Hg2]. rewrite Hg1 in Hok. simpl in Hok.
  apply andb_true_iff in Hok as [Hc Hrest].
  apply elem_of_cons in Hin as [-> | Hin]; [exact Hc | now apply IH].
Qed.
End Loops.

(** The only exception the collector raises is the one of the recursion
    limit. *)
Lemma get_all_fk_data_raises (limit : nat) :
  forall self data e,
    get_all_fk_data inspect limit self data = Raise e -> e = RecursionError.
Proof.
  induction limit as [| limit IH]; intros self data e H;
    [now inversion H |].
  cbn [get_all_fk_data] in H. destruct (sequence_items data).
  - eapply seq_loop_raises; eauto.
  - unfold get_fk_data in H. destruct (negb (truthy data)); [discriminate |].
    eapply fields_loop_raises; eauto.
Qed.
End Raises.

(** X6: a non-empty string is a sequence of one-character strings, each a
    sequence again: the collector run on one never returns and ends in
    [RecursionError], whatever the recursion limit, and so does the pass.
    The same holds for a node one of whose nested-single fields holds a
    non-empty string, or one of whose nested-collection fields holds a list
    with such an element, when the node is truthy and no field trips the
    recursion guard. *)
Theorem string_node_exhausts_recursion :
  forall (inspect : schema -> list (string * RelInfo)) (limit : nat)
         (self : schema) (str : string),
    str <> "" ->
    get_all_fk_data inspect limit self (VStr str) = Raise RecursionError
    /\ (forall shared_flag db p,
           build_cache (Settings true shared_flag) inspect limit db self (VStr str) p
           = (Raise RecursionError, p))
    /\ (forall data field_name s,
           sequence_items data = None ->
           truthy data = true ->
           guard_free inspect self data ->
           ((field_name, RIField s) ∈ inspect self
            /\ pointed_getter data field_name VNone = VStr str)
           \/ ((field_name, RLField s) ∈ inspect self
               /\ exists l, pointed_getter data field_name (VList []) = VList l
                            /\ VStr str ∈ l) ->
           get_all_fk_data inspect limit self data = Raise RecursionError).
Proof.
  intros inspect limit self str Hne.
  pose proof (get_all_fk_data_string inspect limit self str Hne) as Hstr.
  split; [exact Hstr |]. split.
  - intros shared_flag db p. unfold build_cache. simpl. now rewrite Hstr.
  - intros data f s Hseq Ht Hg Hfield.
    destruct limit as [| limit]; [reflexivity |].
    destruct (get_all_fk_data inspect (S limit) self data) as [fk | e] eqn:Hall;
      [| now rewrite (get_all_fk_data_raises inspect _ _ _ _ Hall)].
    exfalso.
    assert (Hok : is_ok (get_all_fk_data inspect (S limit) self data) = true)
      by now rewrite Hall.
    rewrite is_ok_get_all, Hseq, Ht in Hok. simpl in Hok.
    pose proof (fields_ok_child _ _ _ Hok Hg) as Hchild.
    destruct Hfield as [[Hin Hv] | [Hin [l [Hv Hl]]]].
    + specialize (Hchild _ Hin). unfold child_ok in Hchild. simpl in Hchild.
      rewrite Hv, (get_all_fk_data_string inspect limit s str Hne) in Hchild.
      discriminate.
    + specialize (Hchild _ Hin). unfold child_ok in Hchild. simpl in Hchild.
      rewrite Hv in Hchild.
      apply list_elem_of_lookup in Hl as [i Hi].
      pose proof (forallb_lookup _ _ _ _ Hchild Hi) as Hx. simpl in Hx.
      rewrite (get_all_fk_data_string inspect limit s str Hne) in Hx.
      discriminate.
Qed.

Lemma string_node_exhausts_recursion_witness :
  get_all_fk_data Fixture.related 1000 "Post"
    (VDict [("address", VStr "Rome")])
  = Raise RecursionError.
Proof.
  refine (proj2 (proj2 (string_node_exhausts_recursion Fixture.related 1000 "Post"
                          "Rome" _))
            (VDict [("address", VStr "Rome")]) "address" "Address"
            eq_refl eq_refl _ _).
  - discriminate.
  - vm_compute; reflexivity.
  - left. split; [| vm_compute; reflexivity].
    unfold Fixture.related. simpl.
    do 3 apply list_elem_of_further. apply list_elem_of_here.
Defined.

(** X7: a falsy input (None, 0, the empty string, list or mapping) has
    nothing to collect: with the cache enabled and the recursion limit not
    used up at the call, the pass returns the input as it is and leaves the
    shared cache and the query log untouched. *)
Theorem build_cache_falsy_input :
  forall (shared_flag : bool) (inspect : schema -> list (string * RelInfo))
         (limit : nat) (db : database) (self : schema) (data : value) (p : process),
    truthy data = false ->
    (0 < limit)%nat ->
    get_all_fk_data inspect limit self data = Ok []
    /\ build_cache (Settings true shared_flag) inspect limit db self data p
       = (Ok data, p).
Proof.
  intros shared_flag inspect limit db self data p Hf Hl.
  destruct limit as [| limit]; [lia |].
  assert (Hall : get_all_fk_data inspect (S limit) self data = Ok []).
  { cbn [get_all_fk_data]. unfold get_fk_data.
    destruct data as [| z | s | l | d | e | c m k].
    - reflexivity.
    - cbn [sequence_items]. now rewrite Hf.
    - destruct s; [reflexivity | discriminate].
    - destruct l; [reflexivity | discriminate].
    - cbn [sequence_items]. now rewrite Hf.
    - discriminate.
    - discriminate. }
  split; [exact Hall |].
  unfold build_cache.
  cbn [STRUCTURED_FIELD_CACHE_ENABLED STRUCTURED_FIELD_SHARED_CACHE negb].
  rewrite Hall. destruct shared_flag, p; reflexivity.
Qed.

Lemma build_cache_falsy_input_witness :
  build_cache (Settings true true) Fixture.related 5 Fixture.rows "Post"
    (VDict []) Sample.warm
  = (Ok (VDict []), Sample.warm).
Proof.
  refine (proj2 (build_cache_falsy_input true Fixture.related 5 Fixture.rows "Post"
                   (VDict []) Sample.warm eq_refl _)).
  lia.
Defined.

(** ** The queries of a pass *)

(** The fetch loop sends batch fetches only, none of them empty, and at most
    one for each entry of the plainset, in the order of its entries. *)
Lemma fetch_loop_batches (db : database) (plainset : plainset_t) :
  forall cache log failure cache' log',
    fetch_loop db plainset cache log = (failure, cache', log') ->
    exists new,
      log' = log ++ new
      /\ Forall (fun c => exists m pks, c = BatchFetch m pks /\ pks <> []) new
      /\ sublist (call_model <$> new) plainset.*1.
Proof.
  induction plainset as [| [m values] rest IH];
    intros cache log failure cache' log' H.
  - inversion H; subst. exists []. rewrite app_nil_r.
    split; [reflexivity |]. split; [constructor | apply sublist_nil_l].
  - rewrite fetch_loop_cons in H.
    destruct (batch_pks cache m values) as [| pk pks] eqn:Hpks.
    + apply IH in H as [new [Hlog [Hall Hsub]]]. exists new.
      split; [exact Hlog |]. split; [exact Hall |].
      rewrite fmap_cons. now apply sublist_cons.
    + destruct (objects_filter db m (pk :: pks)) as [found | e].
      * apply IH in H as [new [Hlog [Hall Hsub]]].
        exists (BatchFetch m (pk :: pks) :: new).
        split; [now rewrite Hlog, <- app_assoc |]. split.
        -- constructor; [| exact Hall]. exists m, (pk :: pks). now split.
        -- rewrite !fmap_cons. now apply sublist_skip.
      * inversion H; subst. exists []. rewrite app_nil_r.
        split; [reflexivity |]. split; [constructor | apply sublist_nil_l].
Qed.

(** X8: the queries a pass sends are batch fetches only; none of them has
    an empty key list, and no two of them are for the same entity type: a
    pass sends at most one query per type, whatever its outcome. *)
Theorem build_cache_one_batch_per_type :
  forall (cfg : settings) (inspect : schema -> list (string * RelInfo))
         (limit : nat) (db : database) (self : schema) (data : value) (p : process),
    exists new,
      calls (build_cache cfg inspect limit db self data p).2 = calls p ++ new
      /\ Forall (fun c => exists m pks, c = BatchFetch m pks /\ pks <> []) new
      /\ NoDup (call_model <$> new).
Proof.
  intros cfg inspect limit db self data p.
  assert (Hnone : exists new : list db_call,
             calls p = calls p ++ new
             /\ Forall (fun c => exists m pks, c = BatchFetch m pks /\ pks <> []) new
             /\ NoDup (call_model <$> new)).
  { exists []. rewrite app_nil_r. split; [reflexivity |].
    split; [constructor | apply NoDup_nil_2]. }
  unfold build_cache.
  destruct (negb (STRUCTURED_FIELD_CACHE_ENABLED cfg)); [exact Hnone |].
  destruct (get_all_fk_data inspect limit self data) as [fk_data |];
    [| exact Hnone].
  destruct (build_plainset fk_data []) as [plainset |] eqn:Hps; [| exact Hnone].
  destruct (build_plainset_spec fk_data [] plainset Hps) as [Hok _].
  destruct (Hok plainset_ok_nil) as [Hnd _].
  destruct (fetch_loop db plainset
              (if STRUCTURED_FIELD_SHARED_CACHE cfg then shared p else ∅) (calls p))
    as [[failure cache] log] eqn:Hloop.
  apply fetch_loop_batches in Hloop as [new [Hlog [Hall Hsub]]].
  exists new. split; [now destruct failure |].
  split; [exact Hall |]. eapply sublist_NoDup; eauto.
Qed.

(** ** Paths through sequences *)

(** X9: paths through sequences.  What the collector records for element
    [index] of a list of nodes is recorded for the list at the index, a dot,
    and the path in the element; what it records for element [index] of the
    list held by a nested-collection field is recorded for the node at the
    field name, the index and the path in the element, dot-joined, when the
    node is truthy and no field trips the recursion guard. *)
Theorem sequence_paths :
  forall (inspect : schema -> list (string * RelInfo)) (limit : nat)
         (self : schema) (data : value) (fk_data : fk_map),
    get_all_fk_data inspect limit self data = Ok fk_data ->
    (forall l index x child_limit child_fk_data m sub_path k,
        data = VList l ->
        l !! index = Some x ->
        get_all_fk_data inspect child_limit self x = Ok child_fk_data ->
        has_tuple child_fk_data m (sub_path, k) ->
        has_tuple fk_data m (str_of_index index +:+ "." +:+ sub_path, k))
    /\ (forall field_name s l index x child_limit child_fk_data m sub_path k,
           sequence_items data = None ->
           truthy data = true ->
           guard_free inspect self data ->
           (field_name, RLField s) ∈ inspect self ->
           pointed_getter data field_name (VList []) = VList l ->
           l !! index = Some x ->
           get_all_fk_data inspect child_limit s x = Ok child_fk_data ->
           has_tuple child_fk_data m (sub_path, k) ->
           has_tuple fk_data m
             (field_name +:+ "." +:+ str_of_index index +:+ "." +:+ sub_path, k)).
Proof.
  intros inspect limit self data fk Hfk. split.
  - intros l index x child_limit child_fk m sub k -> Hx Hchild Hsub.
    apply (get_all_fk_data_records inspect child_limit _ _ _ Hchild) in Hsub
      as [segs [-> Hc]].
    apply (get_all_fk_data_records inspect limit self _ fk Hfk).
    exists (str_of_index index :: segs). split.
    + symmetry. apply dotted_cons. eapply collected_nonempty; eauto.
    + now apply col_seq with l x.
  - intros f s l index x child_limit child_fk m sub k
           Hseq Ht Hg Hin Hl Hx Hchild Hsub.
    apply (get_all_fk_data_records inspect child_limit _ _ _ Hchild) in Hsub
      as [segs [-> Hc]].
    apply (get_all_fk_data_records inspect limit self _ fk Hfk).
    exists (f :: str_of_index index :: segs). split.
    + symmetry. rewrite dotted_cons by discriminate.
      rewrite dotted_cons; [reflexivity |]. eapply collected_nonempty; eauto.
    + now apply col_rl with s l x.
Qed.

Lemma sequence_paths_witness :
  has_tuple
    [(Fixture.User, [("owner", VInt 5); ("children.0.owner", VInt 5)]);
     (Fixture.Item, [("items", VList []); ("children.0.items", VList [])])]
    Fixture.User ("children.0.owner", VInt 5).
Proof.
  refine (proj2 (sequence_paths Fixture.related 5 "Post" Fixture.twice _ _)
            "children" "Post" [VDict [("owner", VInt 5)]] 0%nat
            (VDict [("owner", VInt 5)]) 4%nat
            [(Fixture.User, [("owner", VInt 5)]);
             (Fixture.Item, [("items", VList [])])]
            Fixture.User "owner" (VInt 5) eq_refl eq_refl _ _ _ eq_refl _ _).
  - vm_compute; reflexivity.
  - vm_compute; reflexivity.
  - unfold Fixture.related. simpl.
    do 4 apply list_elem_of_further. apply list_elem_of_here.
  - vm_compute; reflexivity.
  - vm_compute; reflexivity.
  - exists [("owner", VInt 5)]. split; apply list_elem_of_here.
Defined.

(** ** What a pass leaves in the cache *)

(** When the loop ends without failure, the cache holds every integer key
    of the plainset that has a row. *)
Lemma fetch_loop_holds (db : database) (plainset : plainset_t) :
  forall cache log cache' log',
    fetch_loop db plainset cache log = (None, cache', log') ->
    forall m z e,
      VInt z ∈ plainset_get m plainset ->
      db_get db m (KInt z) = Some e ->
      holds_pk cache' m (KInt z).
Proof.
  induction plainset as [| [m0 values] rest IH];
    intros cache log cache' log' H m z e Hin Hdb.
  - now apply elem_of_nil in Hin.
  - rewrite fetch_loop_cons in H. cbn [plainset_get] in Hin.
    destruct (decide (m0 = m)) as [-> | Hne].
    + assert (Hturn : forall found log1,
                 (batch_pks cache m values <> [] ->
                  objects_filter db m (batch_pks cache m values) = Ok found) ->
                 fetch_loop db rest
                   (<[m := by_pk (batch_models cache m values ++ found)]> cache) log1
                 = (None, cache', log') ->
                 holds_pk cache' m (KInt z)).
      { intros found log1 Hfound Hrest.
        destruct (fetch_loop_log _ _ _ _ _ _ _ Hrest) as [new [_ [Hmono _]]].
        apply Hmono. apply holds_pk_by_pk.
        destruct (existsb (py_eq (VInt z))
                    ((fun obj => value_of_key (e_pk obj))
                       <$> batch_models cache m values)) eqn:Hex.
        - apply existsb_exists in Hex as [x [Hx Heq]].
          apply py_eq_int in Heq. subst x.
          apply list_elem_of_In, list_elem_of_fmap in Hx as [obj [Hpk Hobj]].
          exists obj. split; [apply elem_of_app; now left |].
          destruct (e_pk obj); simpl in Hpk; congruence.
        - assert (Hpks : VInt z ∈ batch_pks cache m values).
          { unfold batch_pks. apply list_elem_of_filter. split; [exact Hex |].
            apply list_elem_of_filter. now split. }
          exists e. split; [| exact (proj1 (db_get_pk _ _ _ _ Hdb))].
          apply elem_of_app. right.
          apply (objects_filter_found db m (batch_pks cache m values) found
                   (KInt z) e); [| exact Hpks | exact Hdb].
          apply Hfound. intros Hnil. rewrite Hnil in Hpks.
          now apply elem_of_nil in Hpks. }
      destruct (batch_pks cache m values) as [| pk pks] eqn:Hpks.
      * apply (Hturn [] log); [congruence |]. now rewrite app_nil_r.
      * destruct (objects_filter db m (pk :: pks)) as [found | e0] eqn:Hf;
          [| discriminate].
        now apply (Hturn found (log ++ [BatchFetch m (pk :: pks)])).
    + destruct (batch_pks cache m0 values) as [| pk pks]; [eauto |].
      destruct (objects_filter db m0 (pk :: pks)); [eauto | discriminate].
Qed.

(** X10: what a pass found is served from the cache.  After a pass that
    succeeds, resolving a placeholder of the pass for an integer key that
    the tree needs for a type, and that has a row in the persistence layer,
    returns an entity with that key from the cache the placeholders are
    bound to, and sends no query. *)
Theorem placeholder_resolves_without_query :
  forall (shared_flag : bool) (inspect : schema -> list (string * RelInfo))
         (limit : nat) (db : database) (self : schema) (data data' : value)
         (p p' : process) (fk_data : fk_map) (m : model) (z : Z) (e : entity),
    build_cache (Settings true shared_flag) inspect limit db self data p
    = (Ok data', p') ->
    get_all_fk_data inspect limit self data = Ok fk_data ->
    required fk_data m (VInt z) ->
    db_get db m (KInt z) = Some e ->
    exists c e',
      substitute c fk_data data = Ok data'
      /\ e_pk e' = KInt z
      /\ retrieve db p' c m (VInt z) = (Ok (REntity e'), p').
Proof.
  intros shared_flag inspect limit db self data data' p p' fk m z e
         H Hfk Hreq Hdb.
  apply build_cache_stages in H
    as [[e0 [Hr _]] | [fk' [ps [failure [cache [log [Hfk' [Hps [Hloop [-> Hr]]]]]]]]]];
    [discriminate |].
  rewrite Hfk in Hfk'. injection Hfk' as <-.
  destruct failure as [e0 |]; [discriminate |].
  exists (if shared_flag then SharedCache else OwnCache cache).
  destruct (build_plainset_spec fk [] ps Hps) as [Hok [_ [_ Hsup]]].
  destruct (Hok plainset_ok_nil) as [Hnd _].
  destruct (Hsup m (VInt z)) as [v' [Hv' Heq]];
    [now apply supplies_required |].
  assert (v' = VInt z) as -> by (destruct Heq; [assumption | now apply py_eq_int]).
  destruct (fetch_loop_holds _ _ _ _ _ _ Hloop m z e Hv' Hdb) as [e' [He' Hpk]].
  assert (Hm : m ∈ ps.*1).
  { destruct (decide (m ∈ ps.*1)) as [Hm | Hm]; [exact Hm |].
    rewrite (plainset_get_absent m ps Hm) in Hv'. now apply elem_of_nil in Hv'. }
  destruct (fetch_loop_cache db ps Hnd _ _ _ _ Hloop) as [_ Hcached].
  destruct (Hcached m Hm) as [found [Hcm _]].
  unfold cached_entities in He'. rewrite Hcm in He'. simpl in He'.
  apply list_elem_of_fmap in He' as [[k' e''] [-> Hin]].
  apply elem_of_map_to_list in Hin. simpl in Hpk.
  pose proof (by_pk_lookup _ _ _ Hin) as [_ Hk']. simpl in Hk'.
  exists e''. split; [now symmetry |]. split; [exact Hpk |].
  assert (Hc : cache_of (Process (if shared_flag then cache else shared p) log)
                 (if shared_flag then SharedCache else OwnCache cache) = cache)
    by now destruct shared_flag.
  unfold retrieve. rewrite Hc, Hcm. simpl.
  rewrite <- Hpk, Hk', Hin. reflexivity.
Qed.

Lemma placeholder_resolves_without_query_witness :
  exists data' p' c,
    Fixture.pass_address = (Ok data', p')
    /\ calls p' = [BatchFetch Fixture.Country [VInt 9]]
    /\ exists e',
        e_pk e' = KInt 9
        /\ retrieve Fixture.rows p' c Fixture.Country (VInt 9)
           = (Ok (REntity e'), p').
Proof.
  destruct Fixture.pass_address as [r p'] eqn:Hpass.
  assert (Hok : is_ok r = true).
  { replace r with (Fixture.pass_address.1) by now rewrite Hpass.
    vm_compute; reflexivity. }
  assert (Hcalls : calls p' = [BatchFetch Fixture.Country [VInt 9]]).
  { replace p' with (Fixture.pass_address.2) by now rewrite Hpass.
    vm_compute; reflexivity. }
  destruct r as [data' | e]; [| discriminate].
  destruct (placeholder_resolves_without_query false Fixture.related 5
              Fixture.rows "Post" Fixture.address_tree data' Fixture.fresh p'
              [(Fixture.Item, [("items", VList [])]);
               (Fixture.Country, [("address.country", VInt 9)])]
              Fixture.Country 9 (Fixture.row Fixture.Country 9) Hpass)
    as [c [e' [_ [Hpk Hres]]]].
  - vm_compute; reflexivity.
  - exists ("address.country", VInt 9). split; [| now left].
    exists [("address.country", VInt 9)]. split; [| apply list_elem_of_here].
    apply list_elem_of_further, list_elem_of_here.
  - reflexivity.
  - exists data', p', c. split; [reflexivity |]. split; [exact Hcalls |].
    exists e'. now split.
Defined.

(** X11: a pass never drops a primary key from the shared cache: every key
    the shared cache holds for a type before the pass it holds after it,
    whether the pass returns or raises; and with the shared-cache flag off
    the shared cache is not touched at all. *)
Theorem shared_cache_kept :
  forall (cfg : settings) (inspect : schema -> list (string * RelInfo))
         (limit : nat) (db : database) (self : schema) (data : value) (p : process),
    let p' := (build_cache cfg inspect limit db self data p).2 in
    (STRUCTURED_FIELD_SHARED_CACHE cfg = false -> shared p' = shared p)
    /\ (forall m k, holds_pk (shared p) m k -> holds_pk (shared p') m k).
Proof.
  intros cfg inspect limit db self data p. unfold build_cache.
  destruct (negb (STRUCTURED_FIELD_CACHE_ENABLED cfg)); [now split |].
  destruct (get_all_fk_data inspect limit self data) as [fk_data |];
    [| now split].
  destruct (build_plainset fk_data []) as [plainset |]; [| now split].
  destruct (fetch_loop db plainset
              (if STRUCTURED_FIELD_SHARED_CACHE cfg then shared p else ∅) (calls p))
    as [[failure cache] log] eqn:Hloop.
  apply fetch_loop_log in Hloop as [new [_ [Hmono _]]].
  assert (Hshared : forall r : result value * process,
             r.2 = Process (if STRUCTURED_FIELD_SHARED_CACHE cfg then cache
                            else shared p) log ->
             (STRUCTURED_FIELD_SHARED_CACHE cfg = false -> shared r.2 = shared p)
             /\ (forall m k, holds_pk (shared p) m k -> holds_pk (shared r.2) m k)).
  { intros r ->. cbn [shared].
    destruct (STRUCTURED_FIELD_SHARED_CACHE cfg); split; auto; discriminate. }
  destruct failure; apply Hshared; reflexivity.
Qed.

(** * Properties of [fetch_cache] *)

Lemma getattr_setattr (attrs : list (string * pyobj)) (f g : string)
    (v d : pyobj) :
  getattr (setattr f v attrs) g d
  = if String.eqb f g then v else getattr attrs g d.
Proof.
  induction attrs as [| [k x] r IH]; [reflexivity |].
  cbn [setattr]. destruct (String.eqb_spec k f) as [-> | Hkf]; cbn [getattr].
  - now destruct (String.eqb f g).
  - rewrite IH. destruct (String.eqb_spec k g) as [-> | Hkg]; [| reflexivity].
    destruct (String.eqb_spec f g); [congruence | reflexivity].
Qed.

Lemma setattr_same (attrs : list (string * pyobj)) (f : string) (x d : pyobj) :
  getattr attrs f d = x -> x <> d -> setattr f x attrs = attrs.
Proof.
  induction attrs as [| [k x0] r IH]; intros Hget Hne; [simpl in Hget; congruence |].
  cbn [getattr setattr] in *. destruct (String.eqb k f); [now subst |].
  now rewrite IH.
Qed.

(** An attribute value is a placeholder, an instance, or something the loop
    leaves alone. *)
Lemma pyobj_kind (x : pyobj) :
  (exists c m v, x = PVal (VLazy c m v))
  \/ (exists fs a, x = PModel fs a)
  \/ ((forall c m v, x <> PVal (VLazy c m v)) /\ (forall fs a, x <> PModel fs a)).
Proof.
  destruct x as [v | r | fs a | l]; [destruct v | | |];
    try (right; right; split; intros; discriminate).
  - left. eauto.
  - right; left. eauto.
Qed.

Section RetrieveFacts.
Variable db : database.

(** Resolving a placeholder leaves the shared cache as it is and adds at
    most one query, a direct one. *)
Lemma retrieve_process (p : process) (c : cache_ref) (m : model) (v : value) :
  exists new,
    (retrieve db p c m v).2 = Process (shared p) (calls p ++ new)
    /\ Forall (fun q => exists m' v', q = SingleGet m' v') new.
Proof.
  assert (Hsame : exists new : list db_call,
             p = Process (shared p) (calls p ++ new)
             /\ Forall (fun q => exists m' v', q = SingleGet m' v') new).
  { exists []. rewrite app_nil_r. split; [now destruct p | constructor]. }
  unfold retrieve. destruct (iter_items v); [exact Hsame |].
  destruct (cache_of p c !! m) as [cm |]; [| exact Hsame].
  destruct (as_key v ≫= (cm !!.)); [exact Hsame |].
  exists [SingleGet m v]. split; [reflexivity |].
  constructor; [eauto | constructor].
Qed.

(** What a placeholder resolves to depends on the process only through the
    shared cache. *)
Lemma retrieve_result_shared (p q : process) (c : cache_ref) (m : model)
    (v : value) :
  shared q = shared p -> (retrieve db q c m v).1 = (retrieve db p c m v).1.
Proof.
  intros Hs. assert (Hc : cache_of q c = cache_of p c) by now destruct c.
  unfold retrieve. rewrite Hc. destruct (iter_items v); [reflexivity |].
  destruct (cache_of p c !! m) as [cm |]; [| reflexivity].
  now destruct (as_key v ≫= (cm !!.)).
Qed.
End RetrieveFacts.

Lemma queried_from_refl (p : process) : queried_from p p.
Proof.
  split; [reflexivity |]. exists []. rewrite app_nil_r.
  split; [reflexivity | constructor].
Qed.

Lemma queried_from_trans (p q r : process) :
  queried_from p q -> queried_from q r -> queried_from p r.
Proof.
  intros [Hs1 [n1 [Hc1 Hf1]]] [Hs2 [n2 [Hc2 Hf2]]]. split; [congruence |].
  exists (n1 ++ n2). split; [now rewrite Hc2, Hc1, app_assoc |].
  now apply Forall_app.
Qed.

Lemma retrieve_queried_from (db : database) (p : process) (c : cache_ref)
    (m : model) (v : value) :
  queried_from p (retrieve db p c m v).2.
Proof.
  destruct (retrieve_process db p c m v) as [new [Hp Hnew]]. rewrite Hp.
  split; [reflexivity |]. now exists new.
Qed.

Section LoopFacts.
Variable db : database.
Variable rec : pyobj -> process -> option exn * pyobj * process.

Lemma loop_keep (f : string) (rest : list string) (attrs : list (string * pyobj))
    (q : process) :
  (forall c m v, getattr attrs f (PVal VNone) <> PVal (VLazy c m v)) ->
  (forall fs a, getattr attrs f (PVal VNone) <> PModel fs a) ->
  fields_set_loop db rec (f :: rest) attrs q = fields_set_loop db rec rest attrs q.
Proof.
  intros Hl Hm. cbn [fields_set_loop].
  destruct (getattr attrs f (PVal VNone)) as [v | r | fs a | l];
    try reflexivity; [| now destruct (Hm fs a)].
  destruct v; try reflexivity. now destruct (Hl c m v).
Qed.

Lemma loop_lazy (f : string) (rest : list string) (attrs : list (string * pyobj))
    (q : process) (c : cache_ref) (m : model) (v : value) :
  getattr attrs f (PVal VNone) = PVal (VLazy c m v) ->
  fields_set_loop db rec (f :: rest) attrs q
  = match retrieve db q c m v with
    | (Ok r, q1) => fields_set_loop db rec rest (setattr f (PRes r) attrs) q1
    | (Raise e, q1) => (Some e, attrs, q1)
    end.
Proof. intros H. cbn [fields_set_loop]. now rewrite H. Qed.

Lemma loop_model (f : string) (rest : list string) (attrs : list (string * pyobj))
    (q : process) (fs : list string) (a : list (string * pyobj)) :
  getattr attrs f (PVal VNone) = PModel fs a ->
  fields_set_loop db rec (f :: rest) attrs q
  = match rec (PModel fs a) q with
    | (None, val, q1) => fields_set_loop db rec rest (setattr f val attrs) q1
    | (Some e, val, q1) => (Some e, setattr f val attrs, q1)
    end.
Proof. intros H. cbn [fields_set_loop]. now rewrite H. Qed.

(** The loop changes no attribute outside the names it visits and no
    attribute that holds neither a placeholder nor an instance. *)
Lemma loop_frame (names : list string) :
  forall attrs q failure attrs' q',
    fields_set_loop db rec names attrs q = (failure, attrs', q') ->
    forall f,
      f ∉ names
      \/ ((forall c m v, getattr attrs f (PVal VNone) <> PVal (VLazy c m v))
          /\ (forall fs a, getattr attrs f (PVal VNone) <> PModel fs a)) ->
      forall d, getattr attrs' f d = getattr attrs f d.
Proof.
  induction names as [| f0 rest IH]; intros attrs q failure attrs' q' H f Hf d.
  - now inversion H.
  - assert (Hset : forall x,
               (exists c m v, getattr attrs f0 (PVal VNone) = PVal (VLazy c m v))
               \/ (exists fs a, getattr attrs f0 (PVal VNone) = PModel fs a) ->
               (forall d0, getattr (setattr f0 x attrs) f d0 = getattr attrs f d0)).
    { intros x Hkind d0. rewrite getattr_setattr.
      destruct (String.eqb_spec f0 f) as [-> | Hne]; [| reflexivity]. exfalso.
      destruct Hf as [Hf | [Hl Hm]].
      - apply Hf, list_elem_of_here.
      - destruct Hkind as [[c [m [v Hk]]] | [fs [a Hk]]];
          [now apply (Hl c m v) | now apply (Hm fs a)]. }
    assert (Hrest : forall x,
               (exists c m v, getattr attrs f0 (PVal VNone) = PVal (VLazy c m v))
               \/ (exists fs a, getattr attrs f0 (PVal VNone) = PModel fs a) ->
               f ∉ rest
               \/ ((forall c m v, getattr (setattr f0 x attrs) f (PVal VNone)
                                  <> PVal (VLazy c m v))
                   /\ (forall fs a, getattr (setattr f0 x attrs) f (PVal VNone)
                                    <> PModel fs a))).
    { intros x Hkind. destruct Hf as [Hf | Hf].
      - left. intros Hin. apply Hf. now apply list_elem_of_further.
      - right. now rewrite (Hset x Hkind). }
    destruct (pyobj_kind (getattr attrs f0 (PVal VNone)))
      as [[c [m [v Hk]]] | [[fs [a Hk]] | [Hl Hm]]].
    + rewrite (loop_lazy _ _ _ _ _ _ _ Hk) in H.
      destruct (retrieve db q c m v) as [[r | e] q1].
      * rewrite (IH _ _ _ _ _ H f); [apply Hset; eauto | apply Hrest; eauto].
      * now inversion H.
    + rewrite (loop_model _ _ _ _ _ _ Hk) in H.
      destruct (rec (PModel fs a) q) as [[[e |] val] q1].
      * inversion H; subst. apply Hset; eauto.
      * rewrite (IH _ _ _ _ _ H f); [apply Hset; eauto | apply Hrest; eauto].
    + rewrite (loop_keep _ _ _ _ Hl Hm) in H.
      apply (IH _ _ _ _ _ H f). destruct Hf as [Hf | Hf]; [left | now right].
      intros Hin. apply Hf. now apply list_elem_of_further.
Qed.

Hypothesis rec_queries :
  forall x q failure y q', rec x q = (failure, y, q') -> queried_from q q'.

(** The loop sends direct queries only and leaves the shared cache as it
    is. *)
Lemma loop_queries (names : list string) :
  forall attrs q failure attrs' q',
    fields_set_loop db rec names attrs q = (failure, attrs', q') ->
    queried_from q q'.
Proof.
  induction names as [| f0 rest IH]; intros attrs q failure attrs' q' H.
  - inversion H; subst. apply queried_from_refl.
  - destruct (pyobj_kind (getattr attrs f0 (PVal VNone)))
      as [[c [m [v Hk]]] | [[fs [a Hk]] | [Hl Hm]]].
    + rewrite (loop_lazy _ _ _ _ _ _ _ Hk) in H.
      pose proof (retrieve_queried_from db q c m v) as Hq.
      destruct (retrieve db q c m v) as [[r | e] q1]; simpl in Hq.
      * eapply queried_from_trans; eauto.
      * now inversion H; subst.
    + rewrite (loop_model _ _ _ _ _ _ Hk) in H.
      destruct (rec (PModel fs a) q) as [[[e |] val] q1] eqn:Hrec;
        apply rec_queries in Hrec.
      * now inversion H; subst.
      * eapply queried_from_trans; eauto.
    + rewrite (loop_keep _ _ _ _ Hl Hm) in H. eauto.
Qed.

(** When the loop returns, every name it visited that held a placeholder
    holds what the placeholder resolves to. *)
Lemma loop_resolves (names : list string) :
  forall attrs q attrs' q',
    fields_set_loop db rec names attrs q = (None, attrs', q') ->
    forall f c m v,
      f ∈ names ->
      getattr attrs f (PVal VNone) = PVal (VLazy c m v) ->
      exists r,
        getattr attrs' f (PVal VNone) = PRes r
        /\ (retrieve db q c m v).1 = Ok r.
Proof.
  induction names as [| f0 rest IH]; intros attrs q attrs' q' H f c m v Hin Hf.
  - now apply elem_of_nil in Hin.
  - destruct (pyobj_kind (getattr attrs f0 (PVal VNone)))
      as [[c0 [m0 [v0 Hk]]] | [[fs [a Hk]] | [Hl Hm]]].
    + rewrite (loop_lazy _ _ _ _ _ _ _ Hk) in H.
      pose proof (retrieve_queried_from db q c0 m0 v0) as [Hs _].
      destruct (retrieve db q c0 m0 v0) as [[r | e] q1] eqn:Hret;
        [| discriminate]. simpl in Hs.
      destruct (String.eqb_spec f0 f) as [-> | Hne].
      * rewrite Hf in Hk. injection Hk as <- <- <-. exists r. split.
        -- rewrite (loop_frame _ _ _ _ _ _ H f).
           ++ rewrite getattr_setattr. now rewrite String.eqb_refl.
           ++ right. rewrite getattr_setattr, String.eqb_refl.
              split; intros; discriminate.
        -- now rewrite Hret.
      * apply elem_of_cons in Hin as [-> | Hin]; [congruence |].
        destruct (IH _ _ _ _ H f c m v Hin) as [r' [Hr' Hres]].
        -- rewrite getattr_setattr.
           destruct (String.eqb_spec f0 f); [congruence | exact Hf].
        -- exists r'. split; [exact Hr' |].
           now rewrite <- (retrieve_result_shared db q q1 c m v Hs).
    + rewrite (loop_model _ _ _ _ _ _ Hk) in H.
      destruct (rec (PModel fs a) q) as [[[e |] val] q1] eqn:Hrec;
        [discriminate |].
      apply rec_queries in Hrec as [Hs _].
      assert (Hne : f0 <> f) by (intros ->; congruence).
      apply elem_of_cons in Hin as [-> | Hin]; [congruence |].
      destruct (IH _ _ _ _ H f c m v Hin) as [r' [Hr' Hres]].
      * rewrite getattr_setattr.
        destruct (String.eqb_spec f0 f); [congruence | exact Hf].
      * exists r'. split; [exact Hr' |].
        now rewrite <- (retrieve_result_shared db q q1 c m v Hs).
    + rewrite (loop_keep _ _ _ _ Hl Hm) in H.
      apply elem_of_cons in Hin as [-> | Hin]; [now destruct (Hl c m v) |].
      eauto.
Qed.

(** When the loop returns, a name it visited once that held an instance
    holds what the recursive call returned for that instance. *)
Lemma loop_nested (names : list string) :
  NoDup names ->
  forall attrs q attrs' q',
    fields_set_loop db rec names attrs q = (None, attrs', q') ->
    forall f fs a,
      f ∈ names ->
      getattr attrs f (PVal VNone) = PModel fs a ->
      exists q1 q2 child,
        queried_from q q1
        /\ rec (PModel fs a) q1 = (None, child, q2)
        /\ getattr attrs' f (PVal VNone) = child.
Proof.
  induction names as [| f0 rest IH]; intros Hnd attrs q attrs' q' H f fs a Hin Hf.
  - now apply elem_of_nil in Hin.
  - pose proof (NoDup_cons_1_1 _ _ Hnd) as Hnot. apply NoDup_cons_1_2 in Hnd.
    assert (Hother : forall x q1,
               f0 <> f -> queried_from q q1 ->
               fields_set_loop db rec rest (setattr f0 x attrs) q1
               = (None, attrs', q') ->
               exists q2 q3 child,
                 queried_from q q2
                 /\ rec (PModel fs a) q2 = (None, child, q3)
                 /\ getattr attrs' f (PVal VNone) = child).
    { intros x q1 Hne Hq Hloop.
      apply elem_of_cons in Hin as [-> | Hin]; [congruence |].
      destruct (IH Hnd _ _ _ _ Hloop f fs a Hin) as [q2 [q3 [child [Hq2 [Hc Hg]]]]].
      - rewrite getattr_setattr.
        destruct (String.eqb_spec f0 f); [congruence | exact Hf].
      - exists q2, q3, child. split; [| now split].
        eapply queried_from_trans; eauto. }
    destruct (pyobj_kind (getattr attrs f0 (PVal VNone)))
      as [[c0 [m0 [v0 Hk]]] | [[fs0 [a0 Hk]] | [Hl Hm]]].
    + rewrite (loop_lazy _ _ _ _ _ _ _ Hk) in H.
      pose proof (retrieve_queried_from db q c0 m0 v0) as Hq.
      destruct (retrieve db q c0 m0 v0) as [[r | e] q1]; [| discriminate].
      apply (Hother (PRes r) q1); [intros ->; congruence | exact Hq | exact H].
    + rewrite (loop_model _ _ _ _ _ _ Hk) in H.
      destruct (rec (PModel fs0 a0) q) as [[[e |] val] q1] eqn:Hrec;
        [discriminate |].
      destruct (String.eqb_spec f0 f) as [-> | Hne].
      * rewrite Hf in Hk. injection Hk as <- <-.
        exists q, q1, val. split; [apply queried_from_refl |].
        split; [exact Hrec |].
        rewrite (loop_frame _ _ _ _ _ _ H f) by now left.
        rewrite getattr_setattr. now rewrite String.eqb_refl.
      * apply (Hother val q1); [exact Hne | | exact H].
        eapply rec_queries; eauto.
    + rewrite (loop_keep _ _ _ _ Hl Hm) in H.
      apply elem_of_cons in Hin as [-> | Hin]; [now destruct (Hm fs a) |].
      eauto.
Qed.
End LoopFacts.

Section FetchCacheFacts.
Variable db : database.

Lemma fetch_cache_queries (limit : nat) :
  forall x q failure y q',
    fetch_cache db limit x q = (failure, y, q') -> queried_from q q'.
Proof.
  induction limit as [| limit IH]; intros x q failure y q' H.
  - inversion H; subst. apply queried_from_refl.
  - cbn [fetch_cache] in H.
    destruct x as [v | r | fs attrs | l];
      try (inversion H; subst; apply queried_from_refl).
    destruct (fields_set_loop db (fetch_cache db limit) fs attrs q)
      as [[failure0 attrs'] q1] eqn:Hloop.
    inversion H; subst. eapply loop_queries; eauto.
Qed.

(** The instance returned has the fields set of the instance given. *)
Lemma fetch_cache_model (limit : nat) (fs : list string)
    (attrs : list (string * pyobj)) (p : process) failure inst' p' :
  fetch_cache db limit (PModel fs attrs) p = (failure, inst', p') ->
  exists attrs',
    inst' = PModel fs attrs'
    /\ match limit with
       | O => failure = Some RecursionError /\ attrs' = attrs /\ p' = p
       | S limit =>
           fields_set_loop db (fetch_cache db limit) fs attrs p
           = (failure, attrs', p')
       end.
Proof.
  destruct limit as [| limit]; cbn [fetch_cache]; intros H.
  - inversion H; subst. now exists attrs.
  - destruct (fields_set_loop db (fetch_cache db limit) fs attrs p)
      as [[failure0 attrs'] q1] eqn:Hloop.
    inversion H; subst. now exists attrs'.
Qed.

Lemma fetch_cache_resolves (limit : nat) (fs : list string)
    (attrs attrs' : list (string * pyobj)) (p p' : process) :
  fetch_cache db limit (PModel fs attrs) p = (None, PModel fs attrs', p') ->
  forall f c m v,
    f ∈ fs ->
    getattr attrs f (PVal VNone) = PVal (VLazy c m v) ->
    exists r,
      getattr attrs' f (PVal VNone) = PRes r
      /\ (retrieve db p c m v).1 = Ok r.
Proof.
  intros H f c m v Hin Hf.
  apply fetch_cache_model in H as [attrs0 [Heq Hloop]].
  injection Heq as <-. destruct limit as [| limit]; [now destruct Hloop |].
  eapply loop_resolves; eauto. intros; eapply fetch_cache_queries; eauto.
Qed.
End FetchCacheFacts.

(** X12: fetch_cache resolves the placeholders of the set fields.  When
    [fetch_cache] returns, every field of [model_fields_set] that held a
    placeholder holds what the placeholder resolves to ([retrieve] on the
    shared cache as it was at the call); and if one of these placeholders
    does not resolve, [fetch_cache] does not return: it raises. *)
Theorem fetch_cache_resolves_set_fields :
  forall (db : database) (limit : nat) (fs : list string)
         (attrs : list (string * pyobj)) (p p' : process)
         (failure : option exn) (inst' : pyobj),
    fetch_cache db limit (PModel fs attrs) p = (failure, inst', p') ->
    exists attrs',
      inst' = PModel fs attrs'
      /\ forall f c m v,
          f ∈ fs ->
          getattr attrs f (PVal VNone) = PVal (VLazy c m v) ->
          (failure = None ->
           exists r,
             getattr attrs' f (PVal VNone) = PRes r
             /\ (retrieve db p c m v).1 = Ok r)
          /\ (forall e, (retrieve db p c m v).1 = Raise e -> failure <> None).
Proof.
  intros db limit fs attrs p p' failure inst' H.
  destruct (fetch_cache_model db _ _ _ _ _ _ _ H) as [attrs' [-> _]].
  exists attrs'. split; [reflexivity |]. intros f c m v Hin Hf.
  assert (Hres : failure = None ->
                 exists r,
                   getattr attrs' f (PVal VNone) = PRes r
                   /\ (retrieve db p c m v).1 = Ok r).
  { intros ->. eapply fetch_cache_resolves; eauto. }
  split; [exact Hres |]. intros e He Hnone.
  destruct (Hres Hnone) as [r [_ Hr]]. congruence.
Qed.

Lemma fetch_cache_resolves_set_fields_witness :
  exists attrs',
    (fetch_cache Fixture.rows 5 Sample.post Sample.ready).1
    = (None, PModel ["owner"; "address"; "children"] attrs')
    /\ getattr attrs' "owner" (PVal VNone)
       = PRes (REntity (Fixture.row Fixture.User 5)).
Proof.
  destruct (fetch_cache Fixture.rows 5 Sample.post Sample.ready)
    as [[failure inst'] p'] eqn:Hrun.
  assert (Hnone : failure = None).
  { replace failure with (fetch_cache Fixture.rows 5 Sample.post Sample.ready).1.1
      by now rewrite Hrun.
    vm_compute; reflexivity. }
  destruct (fetch_cache_resolves_set_fields Fixture.rows 5 _ _ _ _ _ _ Hrun)
    as [attrs' [-> Hall]].
  destruct (Hall "owner" SharedCache Fixture.User (VInt 5)) as [Hres _].
  - apply list_elem_of_here.
  - reflexivity.
  - destruct (Hres Hnone) as [r [Hr Hret]].
    exists attrs'. split; [now rewrite Hnone |].
    rewrite Hr. f_equal.
    assert (Hok : Ok r = Ok (REntity (Fixture.row Fixture.User 5)))
      by (rewrite <- Hret; vm_compute; reflexivity).
    now injection Hok.
Defined.

(** X13: fetch_cache leaves every other attribute as it is.  Whether it
    returns or raises, an attribute whose name is not in
    [model_fields_set] is unchanged, even if it holds a placeholder, and so
    is an attribute that holds neither a placeholder nor an instance: a
    list is not searched for the placeholders or instances in it. *)
Theorem fetch_cache_leaves_other_attributes :
  forall (db : database) (limit : nat) (fs : list string)
         (attrs : list (string * pyobj)) (p p' : process)
         (failure : option exn) (inst' : pyobj),
    fetch_cache db limit (PModel fs attrs) p = (failure, inst', p') ->
    exists attrs',
      inst' = PModel fs attrs'
      /\ forall f,
          f ∉ fs
          \/ ((forall c m v, getattr attrs f (PVal VNone) <> PVal (VLazy c m v))
              /\ (forall fs0 a0, getattr attrs f (PVal VNone) <> PModel fs0 a0)) ->
          forall d, getattr attrs' f d = getattr attrs f d.
Proof.
  intros db limit fs attrs p p' failure inst' H.
  apply fetch_cache_model in H as [attrs' [-> Hloop]].
  exists attrs'. split; [reflexivity |]. intros f Hf d.
  destruct limit as [| limit]; [now destruct Hloop as [_ [-> _]] |].
  eapply loop_frame; eauto.
Qed.

Lemma fetch_cache_leaves_other_attributes_witness :
  exists attrs',
    (fetch_cache Fixture.rows 5 Sample.post Sample.ready).1.2
    = PModel ["owner"; "address"; "children"] attrs'
    /\ getattr attrs' "editor" (PVal VNone)
       = PVal (VLazy SharedCache Fixture.User (VInt 6))
    /\ getattr attrs' "children" (PVal VNone)
       = PList [PModel ["owner"]
                  [("owner", PVal (VLazy SharedCache Fixture.User (VInt 5)))]].
Proof.
  destruct (fetch_cache Fixture.rows 5 Sample.post Sample.ready)
    as [[failure inst'] p'] eqn:Hrun.
  destruct (fetch_cache_leaves_other_attributes Fixture.rows 5 _ _ _ _ _ _ Hrun)
    as [attrs' [-> Hall]].
  exists attrs'. split; [reflexivity |]. split.
  - rewrite (Hall "editor"); [reflexivity |]. left.
    intros Hin. repeat (apply elem_of_cons in Hin as [Hin | Hin]; [discriminate |]).
    now apply elem_of_nil in Hin.
  - rewrite (Hall "children"); [reflexivity |]. right.
    split; intros; discriminate.
Defined.

(** X14: fetch_cache never writes to the cache and never sends a batch
    fetch: whether it returns or raises, the shared cache is as it was, and
    the queries it added to the log are direct single-key queries. *)
Theorem fetch_cache_direct_queries_only :
  forall (db : database) (limit : nat) (instance : pyobj) (p : process),
    let p' := (fetch_cache db limit instance p).2 in
    shared p' = shared p
    /\ exists new,
        calls p' = calls p ++ new
        /\ Forall (fun q => exists m v, q = SingleGet m v) new.
Proof.
  intros db limit instance p.
  destruct (fetch_cache db limit instance p) as [[failure inst'] p'] eqn:H.
  exact (fetch_cache_queries db limit _ _ _ _ _ H).
Qed.

(** X15: fetch_cache recurses into the nested instances of the set fields.
    When it returns, a field of [model_fields_set] that held a nested
    instance holds what [fetch_cache] returns for that instance, so that
    the placeholders of the set fields of the nested instance are resolved
    too. *)
Theorem fetch_cache_nested_instance :
  forall (db : database) (limit : nat) (fs : list string)
         (attrs attrs' : list (string * pyobj)) (p p' : process),
    NoDup fs ->
    fetch_cache db (S limit) (PModel fs attrs) p = (None, PModel fs attrs', p') ->
    forall f fs0 a0,
      f ∈ fs ->
      getattr attrs f (PVal VNone) = PModel fs0 a0 ->
      exists a0',
        getattr attrs' f (PVal VNone) = PModel fs0 a0'
        /\ (exists q q',
               shared q = shared p
               /\ fetch_cache db limit (PModel fs0 a0) q = (None, PModel fs0 a0', q'))
        /\ forall g c m v,
            g ∈ fs0 ->
            getattr a0 g (PVal VNone) = PVal (VLazy c m v) ->
            exists r,
              getattr a0' g (PVal VNone) = PRes r
              /\ (retrieve db p c m v).1 = Ok r.
Proof.
  intros db limit fs attrs attrs' p p' Hnd H f fs0 a0 Hin Hf.
  apply fetch_cache_model in H as [attrs0 [Heq Hloop]]. injection Heq as <-.
  destruct (loop_nested db (fetch_cache db limit) (fetch_cache_queries db limit)
              fs Hnd _ _ _ _ Hloop f fs0 a0 Hin Hf)
    as [q1 [q2 [child [[Hs _] [Hrec Hchild]]]]].
  destruct (fetch_cache_model db _ _ _ _ _ _ _ Hrec) as [a0' [-> _]].
  exists a0'. split; [exact Hchild |]. split; [now exists q1, q2 |].
  intros g c m v Hg Hlazy.
  destruct (fetch_cache_resolves db _ _ _ _ _ _ Hrec g c m v Hg Hlazy)
    as [r [Hr Hret]].
  exists r. split; [exact Hr |].
  now rewrite <- (retrieve_result_shared db p q1 c m v Hs).
Qed.

Lemma fetch_cache_nested_instance_witness :
  exists attrs' a0',
    (fetch_cache Fixture.rows 5 Sample.post Sample.ready).1
    = (None, PModel ["owner"; "address"; "children"] attrs')
    /\ getattr attrs' "address" (PVal VNone) = PModel ["country"] a0'
    /\ getattr a0' "country" (PVal VNone)
       = PRes (REntity (Fixture.row Fixture.Country 9)).
Proof.
  destruct (fetch_cache Fixture.rows 5 Sample.post Sample.ready)
    as [[failure inst'] p'] eqn:Hrun.
  assert (Hnone : failure = None).
  { replace failure with (fetch_cache Fixture.rows 5 Sample.post Sample.ready).1.1
      by now rewrite Hrun.
    vm_compute; reflexivity. }
  subst failure.
  destruct (fetch_cache_model Fixture.rows _ _ _ _ _ _ _ Hrun) as [attrs' [-> _]].
  assert (Hnd : NoDup ["owner"; "address"; "children"])
    by (apply NoDup_ListNoDup; repeat constructor; simpl; intuition discriminate).
  destruct (fetch_cache_nested_instance Fixture.rows 4 _ _ _ _ _ Hnd
              Hrun "address" ["country"]
              [("country", PVal (VLazy SharedCache Fixture.Country (VInt 9)))])
    as [a0' [Ha [_ Hall]]].
  - do 1 apply list_elem_of_further. apply list_elem_of_here.
  - reflexivity.
  - exists attrs', a0'. split; [reflexivity |]. split; [exact Ha |].
    destruct (Hall "country" SharedCache Fixture.Country (VInt 9))
      as [r [Hr Hret]]; [apply list_elem_of_here | reflexivity |].
    rewrite Hr. f_equal.
    assert (Hok : Ok r = Ok (REntity (Fixture.row Fixture.Country 9)))
      by (rewrite <- Hret; vm_compute; reflexivity).
    now injection Hok.
Defined.

(** ** A second [fetch_cache] *)

Section Settled.
Variable db : database.
Variable rec : pyobj -> process -> option exn * pyobj * process.

Lemma settled_other (x : pyobj) :
  (forall c m v, x <> PVal (VLazy c m v)) ->
  (forall fs a, x <> PModel fs a) ->
  settled rec x.
Proof.
  intros Hl Hm. destruct x as [v | r | fs a | l]; simpl; auto.
  - destruct v; auto. now destruct (Hl c m v).
  - now destruct (Hm fs a).
Qed.

(** The loop keeps an attribute settled. *)
Lemma loop_keeps_settled (names : list string) :
  forall attrs q attrs' q',
    fields_set_loop db rec names attrs q = (None, attrs', q') ->
    forall f,
      settled rec (getattr attrs f (PVal VNone)) ->
      settled rec (getattr attrs' f (PVal VNone)).
Proof.
  induction names as [| f0 rest IH]; intros attrs q attrs' q' H f Hf.
  - now inversion H; subst.
  - destruct (pyobj_kind (getattr attrs f0 (PVal VNone)))
      as [[c [m [v Hk]]] | [[fs [a Hk]] | [Hl Hm]]].
    + rewrite (loop_lazy _ _ _ _ _ _ _ _ _ Hk) in H.
      destruct (retrieve db q c m v) as [[r | e] q1]; [| discriminate].
      apply (IH _ _ _ _ H f). rewrite getattr_setattr.
      destruct (String.eqb_spec f0 f); [exact I | exact Hf].
    + rewrite (loop_model _ _ _ _ _ _ _ _ Hk) in H.
      destruct (rec (PModel fs a) q) as [[[e |] val] q1] eqn:Hrec;
        [discriminate |].
      apply (IH _ _ _ _ H f). rewrite getattr_setattr.
      destruct (String.eqb_spec f0 f) as [-> | Hne]; [| exact Hf].
      rewrite Hk in Hf. simpl in Hf. rewrite Hf in Hrec.
      injection Hrec as <- _. rewrite <- Hk. now rewrite Hk.
    + rewrite (loop_keep _ _ _ _ _ _ Hl Hm) in H. eauto.
Qed.

Hypothesis rec_settles :
  forall x q y q', rec x q = (None, y, q') -> settled rec y.

(** When the loop returns, every name it visited is settled. *)
Lemma loop_settles (names : list string) :
  forall attrs q attrs' q',
    fields_set_loop db rec names attrs q = (None, attrs', q') ->
    forall f, f ∈ names -> settled rec (getattr attrs' f (PVal VNone)).
Proof.
  induction names as [| f0 rest IH]; intros attrs q attrs' q' H f Hin.
  - now apply elem_of_nil in Hin.
  - destruct (String.eqb_spec f0 f) as [-> | Hne].
    + destruct (pyobj_kind (getattr attrs f (PVal VNone)))
        as [[c [m [v Hk]]] | [[fs [a Hk]] | [Hl Hm]]].
      * rewrite (loop_lazy _ _ _ _ _ _ _ _ _ Hk) in H.
        destruct (retrieve db q c m v) as [[r | e] q1]; [| discriminate].
        apply (loop_keeps_settled _ _ _ _ _ H).
        rewrite getattr_setattr, String.eqb_refl. exact I.
      * rewrite (loop_model _ _ _ _ _ _ _ _ Hk) in H.
        destruct (rec (PModel fs a) q) as [[[e |] val] q1] eqn:Hrec;
          [discriminate |].
        apply (loop_keeps_settled _ _ _ _ _ H).
        rewrite getattr_setattr, String.eqb_refl. eapply rec_settles; eauto.
      * rewrite (loop_keep _ _ _ _ _ _ Hl Hm) in H.
        apply (loop_keeps_settled _ _ _ _ _ H). now apply settled_other.
    + apply elem_of_cons in Hin as [-> | Hin]; [congruence |].
      destruct (pyobj_kind (getattr attrs f0 (PVal VNone)))
        as [[c [m [v Hk]]] | [[fs [a Hk]] | [Hl Hm]]].
      * rewrite (loop_lazy _ _ _ _ _ _ _ _ _ Hk) in H.
        destruct (retrieve db q c m v) as [[r | e] q1]; [| discriminate]. eauto.
      * rewrite (loop_model _ _ _ _ _ _ _ _ Hk) in H.
        destruct (rec (PModel fs a) q) as [[[e |] val] q1]; [discriminate |].
        eauto.
      * rewrite (loop_keep _ _ _ _ _ _ Hl Hm) in H. eauto.
Qed.

(** On settled attributes the loop does nothing. *)
Lemma loop_settled (names : list string) :
  forall attrs q,
    (forall f, f ∈ names -> settled rec (getattr attrs f (PVal VNone))) ->
    fields_set_loop db rec names attrs q = (None, attrs, q).
Proof.
  induction names as [| f0 rest IH]; intros attrs q Hall; [reflexivity |].
  assert (Hrest : forall f, f ∈ rest -> settled rec (getattr attrs f (PVal VNone)))
    by (intros f Hin; apply Hall; now apply list_elem_of_further).
  pose proof (Hall f0 (list_elem_of_here _ _)) as H0.
  destruct (pyobj_kind (getattr attrs f0 (PVal VNone)))
    as [[c [m [v Hk]]] | [[fs [a Hk]] | [Hl Hm]]].
  - rewrite Hk in H0. contradiction.
  - rewrite (loop_model _ _ _ _ _ _ _ _ Hk).
    rewrite Hk in H0. simpl in H0. rewrite H0.
    rewrite (setattr_same attrs f0 (PModel fs a) (PVal VNone) Hk) by discriminate.
    now apply IH.
  - rewrite (loop_keep _ _ _ _ _ _ Hl Hm). now apply IH.
Qed.
End Settled.

Lemma fetch_cache_settles (db : database) (limit : nat) :
  forall x q y q',
    fetch_cache db limit x q = (None, y, q') -> settled (fetch_cache db limit) y.
Proof.
  induction limit as [| limit IH]; intros x q y q' H; [discriminate |].
  destruct x as [v | r | fs attrs | l]; try discriminate.
  apply fetch_cache_model in H as [attrs' [-> Hloop]].
  intros q0. cbn [fetch_cache].
  rewrite (loop_settled db (fetch_cache db limit) fs attrs' q0); [reflexivity |].
  intros f Hin. eapply loop_settles; eauto.
Qed.

(** X16: fetch_cache is idempotent.  Run again on the instance it
    returned, with whatever process state, [fetch_cache] returns the same
    instance again and sends no query. *)
Theorem fetch_cache_idempotent :
  forall (db : database) (limit : nat) (instance instance' : pyobj)
         (p p' : process),
    fetch_cache db limit instance p = (None, instance', p') ->
    forall q, fetch_cache db limit instance' q = (None, instance', q).
Proof.
  intros db limit instance instance' p p' H q.
  pose proof (fetch_cache_settles db limit _ _ _ _ H) as Hs.
  destruct limit as [| limit]; [discriminate |].
  destruct instance as [v | r | fs attrs | l]; try discriminate.
  destruct (fetch_cache_model db _ _ _ _ _ _ _ H) as [attrs' [-> _]].
  exact (Hs q).
Qed.

Lemma fetch_cache_idempotent_witness :
  exists instance' p',
    fetch_cache Fixture.rows 5 Sample.post Sample.ready = (None, instance', p')
    /\ fetch_cache Fixture.rows 5 instance' p' = (None, instance', p').
Proof.
  destruct (fetch_cache Fixture.rows 5 Sample.post Sample.ready)
    as [[failure inst'] p'] eqn:Hrun.
  assert (Hnone : failure = None).
  { replace failure with (fetch_cache Fixture.rows 5 Sample.post Sample.ready).1.1
      by now rewrite Hrun.
    vm_compute; reflexivity. }
  subst failure. exists inst', p'. split; [reflexivity |].
  exact (fetch_cache_idempotent Fixture.rows 5 _ _ _ _ Hrun p').
Defined.

(** ** The recursion limit and the nesting of instances *)

Lemma depth_model (fs : list string) (a : list (string * pyobj)) :
  depth (PModel fs a) = S (attrs_depth a).
Proof. reflexivity. Qed.

Lemma getattr_depth (attrs : list (string * pyobj)) (f : string) :
  (depth (getattr attrs f (PVal VNone)) <= attrs_depth attrs)%nat.
Proof.
  induction attrs as [| [k x] r IH]; [reflexivity |].
  cbn [getattr attrs_depth]. destruct (String.eqb k f); lia.
Qed.

Lemma setattr_depth (attrs : list (string * pyobj)) (f : string) (v : pyobj) :
  (attrs_depth (setattr f v attrs) <= Nat.max (depth v) (attrs_depth attrs))%nat.
Proof.
  induction attrs as [| [k x] r IH]; [cbn [setattr attrs_depth]; lia |].
  cbn [setattr]. destruct (String.eqb k f); cbn [attrs_depth]; lia.
Qed.

Lemma cached_hits_raises (cm : gmap key entity) (items : list value) (e : exn) :
  cached_hits cm items = Raise e -> e = TypeError.
Proof.
  induction items as [| i r IH]; [discriminate |].
  cbn [cached_hits]. destruct (hashable i); [| congruence].
  destruct (cached_hits cm r); simpl; [| intros H; apply IH; congruence].
  now destruct (as_key i ≫= (cm !!.)).
Qed.

(** Resolving a placeholder never ends at the recursion limit. *)
Lemma retrieve_not_recursion (db : database) (p : process) (c : cache_ref)
    (m : model) (v : value) :
  (retrieve db p c m v).1 <> Raise RecursionError.
Proof.
  unfold retrieve. destruct (iter_items v) as [items |].
  - destruct (cache_of p c !! m) as [cm |]; [| discriminate].
    destruct (decide (cm = ∅)); [discriminate |]. simpl.
    destruct (cached_hits cm items) eqn:Hhits; simpl; [discriminate |].
    apply cached_hits_raises in Hhits. congruence.
  - destruct (cache_of p c !! m) as [cm |]; [| discriminate].
    destruct (as_key v ≫= (cm !!.)); [discriminate |]. simpl.
    unfold manager_get. destruct v; try discriminate;
      simpl; destruct (db_get db m _); discriminate.
Qed.

Section Fuel.
Variable db : database.
Variables rec1 rec2 : pyobj -> process -> option exn * pyobj * process.
Variable n : nat.
Hypothesis rec_agree :
  forall x q,
    (depth x <= n)%nat ->
    rec1 x q = rec2 x q
    /\ (depth (rec1 x q).1.2 <= depth x)%nat
    /\ (rec1 x q).1.1 <> Some RecursionError.

Lemma loop_fuel (names : list string) :
  forall attrs q,
    (attrs_depth attrs <= n)%nat ->
    fields_set_loop db rec1 names attrs q = fields_set_loop db rec2 names attrs q
    /\ (attrs_depth (fields_set_loop db rec1 names attrs q).1.2
        <= attrs_depth attrs)%nat
    /\ (fields_set_loop db rec1 names attrs q).1.1 <> Some RecursionError.
Proof.
  induction names as [| f0 rest IH]; intros attrs q Hn.
  - cbn [fields_set_loop fst snd]. split; [reflexivity |]. split; [lia | discriminate].
  - destruct (pyobj_kind (getattr attrs f0 (PVal VNone)))
      as [[c [m [v Hk]]] | [[fs [a Hk]] | [Hl Hm]]].
    + rewrite !(loop_lazy _ _ _ _ _ _ _ _ _ Hk).
      pose proof (retrieve_not_recursion db q c m v) as Hnot.
      destruct (retrieve db q c m v) as [[r | e] q1]; simpl in Hnot.
      * pose proof (setattr_depth attrs f0 (PRes r)) as Hd. simpl in Hd.
        destruct (IH (setattr f0 (PRes r) attrs) q1) as [H1 [H2 H3]]; [lia |].
        split; [exact H1 |]. split; [lia | exact H3].
      * cbn [fst snd]. split; [reflexivity |]. split; [lia | congruence].
    + rewrite !(loop_model _ _ _ _ _ _ _ _ Hk).
      pose proof (getattr_depth attrs f0) as Hx. rewrite Hk in Hx.
      destruct (rec_agree (PModel fs a) q) as [Heq [Hd Hnot]]; [lia |].
      rewrite <- Heq.
      destruct (rec1 (PModel fs a) q) as [[[e |] val] q1]; cbn [fst snd] in Hd, Hnot.
      * pose proof (setattr_depth attrs f0 val) as Hs. cbn [fst snd].
        split; [reflexivity |]. split; [lia | exact Hnot].
      * pose proof (setattr_depth attrs f0 val) as Hs.
        destruct (IH (setattr f0 val attrs) q1) as [H1 [H2 H3]]; [lia |].
        split; [exact H1 |]. split; [lia | exact H3].
    + rewrite !(loop_keep _ _ _ _ _ _ Hl Hm). now apply IH.
Qed.
End Fuel.

Lemma fetch_cache_fuel (db : database) (limit : nat) :
  forall limit' x q,
    (depth x < limit)%nat ->
    (depth x < limit')%nat ->
    fetch_cache db limit x q = fetch_cache db limit' x q
    /\ (depth (fetch_cache db limit x q).1.2 <= depth x)%nat
    /\ (fetch_cache db limit x q).1.1 <> Some RecursionError.
Proof.
  induction limit as [| limit IH]; intros limit' x q Hl Hl'; [lia |].
  destruct limit' as [| limit']; [lia |].
  destruct x as [v | r | fs attrs | l];
    try (cbn [fetch_cache fst snd]; split; [reflexivity |];
         split; [lia | discriminate]).
  rewrite depth_model in Hl, Hl'. cbn [fetch_cache].
  destruct (loop_fuel db (fetch_cache db limit) (fetch_cache db limit')
              (attrs_depth attrs)) with (names := fs) (attrs := attrs) (q := q)
    as [Heq [Hd Hnot]].
  - intros x q0 Hx. apply IH; lia.
  - lia.
  - rewrite <- Heq.
    destruct (fields_set_loop db (fetch_cache db limit) fs attrs q)
      as [[failure attrs'] q1].
    cbn [fst snd] in *. split; [reflexivity |].
    split; [rewrite !depth_model; lia | exact Hnot].
Qed.

(** X17: the recursion limit and the nesting of instances.  With a
    recursion limit above the depth to which instances are nested in the
    attributes, [fetch_cache] does not end at the limit (what it raises, if
    anything, is what resolving a placeholder raised, or [AttributeError]
    for an object that is no instance), and its outcome is the same for
    every such limit. *)
Theorem fetch_cache_within_limit :
  forall (db : database) (limit limit' : nat) (instance : pyobj) (p : process),
    (depth instance < limit)%nat ->
    (depth instance < limit')%nat ->
    fetch_cache db limit instance p = fetch_cache db limit' instance p
    /\ (fetch_cache db limit instance p).1.1 <> Some RecursionError.
Proof.
  intros db limit limit' instance p Hl Hl'.
  destruct (fetch_cache_fuel db limit limit' instance p Hl Hl') as [H1 [_ H2]].
  now split.
Qed.

Lemma fetch_cache_within_limit_witness :
  fetch_cache Fixture.rows 3 Sample.post Sample.ready
  = fetch_cache Fixture.rows 1000 Sample.post Sample.ready.
Proof.
  apply (fetch_cache_within_limit Fixture.rows 3 1000 Sample.post Sample.ready).
  - vm_compute; lia.
  - vm_compute. repeat constructor.
Defined.

(** * Properties of the validators that take mappings *)

(** X18: [ForeignKey.validate_from_dict] on a concrete target.  The
    function assigns [model_class] in the branch of the abstract target
    only, which makes the name local: for a declared target that is not
    abstract, every input other than [None] raises [UnboundLocalError],
    whatever the mapping holds and whatever the persistence layer has. *)
Theorem foreign_key_from_dict_unbound_local :
  forall (apps_get_model : value -> outcome model) (db : database)
         (source : model) (data : value),
    abstract source = false ->
    data <> VNone ->
    fk_validate_from_dict apps_get_model db source data = Raises UnboundLocalError.
Proof.
  intros apps db source data Habs Hdata. unfold fk_validate_from_dict.
  rewrite Habs. destruct data; congruence.
Qed.

Lemma foreign_key_from_dict_unbound_local_witness :
  fk_validate_from_dict Sample.registry Fixture.rows Fixture.User
    (VDict [("id", VInt 5)])
  = Raises UnboundLocalError.
Proof.
  apply (foreign_key_from_dict_unbound_local Sample.registry Fixture.rows
           Fixture.User (VDict [("id", VInt 5)])).
  - reflexivity.
  - discriminate.
Defined.

(** X19: [ForeignKey.validate_from_dict] never returns an entity.  It
    returns [None] for [None]; for any other input it raises: on an
    abstract target, once the class named by the mapping is found and the
    mapping has the primary-key entry of that class, the call of
    [validate_from_pk] raises [ValueError], because that function tests
    the abstractness of the declared target, not of the class found. *)
Theorem foreign_key_from_dict_returns_no_entity :
  forall (apps_get_model : value -> outcome model) (db : database)
         (source : model) (data : value),
    (forall obj,
        fk_validate_from_dict apps_get_model db source data <> Returns (Some obj))
    /\ (fk_validate_from_dict apps_get_model db source data = Returns None
        <-> data = VNone)
    /\ (forall names cls pk,
           abstract source = true ->
           getitem data "model" = Returns names ->
           apps_get_model names = Returns cls ->
           getitem data (pk_attname cls) = Returns pk ->
           fk_validate_from_dict apps_get_model db source data
           = Raises (Engine ValueError)).
Proof.
  intros apps db source data.
  assert (Hraise : data <> VNone ->
                   exists e, fk_validate_from_dict apps db source data = Raises e).
  { intros Hdata. unfold fk_validate_from_dict, validate_pk_of_dict.
    destruct data; try congruence;
      (destruct (abstract source); [| eauto];
       destruct (getitem _ "model") as [names | err]; [| eauto];
       destruct (apps names) as [cls | err]; [| eauto];
       destruct (getitem _ (pk_attname cls)) as [pk | err]; eauto). }
  split; [| split].
  - intros obj H. destruct data; try discriminate;
      (destruct Hraise as [err He]; [discriminate | congruence]).
  - split; [| now intros ->].
    intros H. destruct data; try reflexivity;
      (destruct Hraise as [err He]; [discriminate | congruence]).
  - intros names cls pk Habs Hnames Hcls Hpk.
    unfold fk_validate_from_dict, validate_pk_of_dict.
    destruct data; try discriminate.
    now rewrite Habs, Hnames, Hcls, Hpk.
Qed.

(** X20: [QuerySet.validate_from_dict] on a concrete target reads the
    primary-key entry of each mapping and hands the keys, in the order of
    the mappings, to [validate_from_pk_list]: the outcome is the queryset
    that the list of keys gives; the model registry is not consulted. *)
Theorem queryset_from_dict_concrete :
  forall (apps_get_model : value -> outcome model) (db : database)
         (source : model) (values : list value) (keys : list key),
    abstract source = false ->
    Forall2 (fun data k => getitem data (pk_attname source) = Returns (value_of_key k))
      values keys ->
    qs_validate_from_dict apps_get_model source values
    = match validate_from_pk_list source keys with
      | Ok qs => Returns (QSOne qs)
      | Raise e => Raises (Engine e)
      end.
Proof.
  intros apps db source values keys Habs Hall.
  assert (Hpks : pk_entries (pk_attname source) values
                 = Returns (value_of_key <$> keys)).
  { induction Hall as [| data k values keys Hd _ IH]; [reflexivity |].
    cbn [pk_entries]. now rewrite Hd, IH. }
  unfold qs_validate_from_dict, validate_pk_list_of_dict, validate_from_pk_list.
  now rewrite Habs, Hpks.
Qed.

Lemma queryset_from_dict_concrete_witness :
  qs_validate_from_dict Sample.registry Fixture.Item
    [VDict [("id", VInt 2)]; VDict [("id", VInt 1)]]
  = Returns (QSOne (QuerySet Fixture.Item (VList [VInt 2; VInt 1]) true None)).
Proof.
  apply (queryset_from_dict_concrete Sample.registry Fixture.rows Fixture.Item
           [VDict [("id", VInt 2)]; VDict [("id", VInt 1)]] [KInt 2; KInt 1]).
  - reflexivity.
  - repeat constructor.
Defined.

(** ** Grouping by class *)

Lemma stack_append_get (mclass m : model) (pk : value)
    (stack : list (model * list value)) :
  plainset_get m (stack_append mclass pk stack)
  = plainset_get m stack ++ (if decide (mclass = m) then [pk] else []).
Proof.
  induction stack as [| [m0 pks] r IH]; cbn [stack_append plainset_get].
  - destruct (decide (mclass = m)); reflexivity.
  - destruct (decide (m0 = mclass)) as [-> | Hne]; cbn [plainset_get].
    + destruct (decide (mclass = m)); [reflexivity | now rewrite app_nil_r].
    + destruct (decide (m0 = m)) as [-> | Hne']; [| exact IH].
      rewrite decide_False by congruence. now rewrite app_nil_r.
Qed.

Lemma stack_append_classes (mclass : model) (pk : value)
    (stack : list (model * list value)) :
  (forall m, m ∈ (stack_append mclass pk stack).*1 <-> m = mclass \/ m ∈ stack.*1)
  /\ (NoDup stack.*1 -> NoDup (stack_append mclass pk stack).*1).
Proof.
  induction stack as [| [m0 pks] r [IHin IHnd]]; cbn [stack_append].
  - split.
    + intros m. rewrite fmap_cons, elem_of_cons. simpl. tauto.
    + intros _. rewrite fmap_cons. apply NoDup_singleton.
  - destruct (decide (m0 = mclass)) as [-> | Hne]; rewrite !fmap_cons; simpl.
    + split; [| auto]. intros m. rewrite elem_of_cons. tauto.
    + split.
      * intros m. rewrite !elem_of_cons, IHin. tauto.
      * intros Hnd. pose proof (NoDup_cons_1_1 _ _ Hnd) as Hnot.
        apply NoDup_cons_1_2 in Hnd. apply NoDup_cons_2; [| auto].
        rewrite IHin. intros [-> | Hin]; [congruence | contradiction].
Qed.

Section Grouping.
Variable apps_get_model : value -> outcome model.

(** The loop of the abstract branch, when every mapping names a class the
    registry knows and has the primary-key entry of that class. *)
Lemma stack_loop_spec (values : list value) (pairs : list (model * value)) :
  Forall2 (fun data mv =>
             exists names,
               getitem data "model" = Returns names
               /\ apps_get_model names = Returns mv.1
               /\ getitem data (pk_attname mv.1) = Returns mv.2)
    values pairs ->
  forall stack,
    exists stack',
      stack_loop apps_get_model values stack = Returns stack'
      /\ (forall m, plainset_get m stack' = plainset_get m stack ++ keys_of m pairs)
      /\ (forall m, m ∈ stack'.*1 <-> m ∈ stack.*1 \/ m ∈ pairs.*1)
      /\ (NoDup stack.*1 -> NoDup stack'.*1).
Proof.
  induction 1 as [| data [mclass pk] values pairs [names [Hn [Hc Hpk]]] _ IH];
    intros stack.
  - exists stack. split; [reflexivity |]. split; [| split; [| auto]].
    + intros m. unfold keys_of. now rewrite app_nil_r.
    + intros m. rewrite fmap_nil, elem_of_nil. tauto.
  - simpl in Hc, Hpk. cbn [stack_loop]. rewrite Hn, Hc, Hpk.
    destruct (IH (stack_append mclass pk stack)) as [stack' [Hloop [Hget [Hin Hnd]]]].
    destruct (stack_append_classes mclass pk stack) as [Hin1 Hnd1].
    exists stack'. split; [exact Hloop |]. split; [| split; [| auto]].
    + intros m. rewrite Hget, stack_append_get, <- app_assoc. f_equal.
      unfold keys_of. rewrite filter_cons. simpl.
      destruct (decide (mclass = m)); reflexivity.
    + intros m. rewrite Hin, Hin1, fmap_cons, elem_of_cons. simpl. tauto.
Qed.
End Grouping.

(** X21: [QuerySet.validate_from_dict] on an abstract target groups the
    mappings by the class they name.  When every mapping names a class the
    registry knows and has the primary-key entry of that class, the result
    is the union of one queryset per class named, each filtered on the keys
    of the mappings of that class in the order of the list, none of them
    ordered by position; for the empty list there is no queryset to unite
    and the call raises [TypeError]. *)
Theorem queryset_from_dict_abstract :
  forall (apps_get_model : value -> outcome model) (source : model)
         (values : list value) (pairs : list (model * value)),
    abstract source = true ->
    Forall2 (fun data mv =>
               exists names,
                 getitem data "model" = Returns names
                 /\ apps_get_model names = Returns mv.1
                 /\ getitem data (pk_attname mv.1) = Returns mv.2)
      values pairs ->
    match qs_validate_from_dict apps_get_model source values with
    | Returns (QSUnion first others) =>
        NoDup (qs_model <$> first :: others)
        /\ (forall m, m ∈ qs_model <$> first :: others <-> m ∈ pairs.*1)
        /\ (forall q,
               q ∈ first :: others ->
               q = QuerySet (qs_model q) (VList (keys_of (qs_model q) pairs))
                     false None)
    | Raises (Engine TypeError) => values = []
    | _ => False
    end.
Proof.
  intros apps source values pairs Habs Hall.
  unfold qs_validate_from_dict. rewrite Habs. cbn [negb].
  destruct (stack_loop_spec apps values pairs Hall [])
    as [stack [Hloop [Hget [Hin Hnd]]]].
  rewrite Hloop. specialize (Hnd (NoDup_nil_2)).
  assert (Hmodels :
            qs_model <$> ((fun entry : model * list value =>
                             QuerySet entry.1 (VList entry.2) false None)
                            <$> stack)
            = stack.*1).
  { rewrite <- list_fmap_compose. apply list_fmap_ext. now intros i [m pks]. }
  remember ((fun entry : model * list value =>
               QuerySet entry.1 (VList entry.2) false None) <$> stack)
    as qs eqn:Hqs.
  destruct qs as [| first others]; cbn [queryset_union].
  - symmetry in Hqs. apply fmap_nil_inv in Hqs. subst stack.
    destruct Hall as [| data mv values pairs _ _]; [reflexivity |].
    exfalso. assert (Hm : mv.1 ∈ ([] : list (model * list value)).*1).
    { apply Hin. right. rewrite fmap_cons. apply list_elem_of_here. }
    now apply elem_of_nil in Hm.
  - rewrite Hmodels. split; [exact Hnd |]. split.
    + intros m. rewrite Hin, fmap_nil, elem_of_nil. tauto.
    + intros q Hq. rewrite Hqs in Hq.
      apply list_elem_of_fmap in Hq as [[m pks] [-> Hentry]].
      cbn [qs_model fst snd]. f_equal. f_equal.
      rewrite <- (plainset_get_in m stack pks Hnd Hentry).
      now rewrite Hget.
Qed.

Lemma queryset_from_dict_abstract_witness :
  qs_validate_from_dict Sample.registry Fixture.Shape Sample.mixed
  = Returns
      (QSUnion (QuerySet Fixture.User (VList [VInt 5; VInt 6]) false None)
         [QuerySet Fixture.Item (VList [VInt 1]) false None])
  /\ match qs_validate_from_dict Sample.registry Fixture.Shape Sample.mixed with
     | Returns (QSUnion first others) =>
         NoDup (qs_model <$> first :: others)
         /\ (forall m,
                m ∈ qs_model <$> first :: others
                <-> m ∈ [Fixture.User; Fixture.Item; Fixture.User])
         /\ (forall q,
                q ∈ first :: others ->
                q = QuerySet (qs_model q)
                      (VList (keys_of (qs_model q)
                                [(Fixture.User, VInt 5); (Fixture.Item, VInt 1);
                                 (Fixture.User, VInt 6)]))
                      false None)
     | Raises (Engine TypeError) => Sample.mixed = []
     | _ => False
     end.
Proof.
  split; [vm_compute; reflexivity |].
  apply (queryset_from_dict_abstract Sample.registry Fixture.Shape Sample.mixed
           [(Fixture.User, VInt 5); (Fixture.Item, VInt 1); (Fixture.User, VInt 6)]).
  - reflexivity.
  - repeat constructor; eexists; (split; [reflexivity |]); now split.
Defined.

(** * The forms of a single reference *)

(** X22: what the collector records for a single-reference field of a
    node (truthy, no field tripping the recursion guard).  A truthy scalar
    key is recorded as it is; a mapping is recorded under its primary-key
    entry when that is a truthy scalar; and a falsy value (None, the key 0,
    the empty string, a mapping without a primary-key entry) is not
    recorded: no tuple has the path of the field. *)
Theorem single_reference_forms :
  forall (inspect : schema -> list (string * RelInfo)) (limit : nat)
         (self : schema) (data : value) (fk_data : fk_map)
         (field_name : string) (m : model),
    fields_wf inspect ->
    get_all_fk_data inspect limit self data = Ok fk_data ->
    sequence_items data = None ->
    truthy data = true ->
    guard_free inspect self data ->
    (field_name, FKField m) ∈ inspect self ->
    (forall k,
        pointed_getter data field_name VNone = value_of_key k ->
        truthy (value_of_key k) = true ->
        has_tuple fk_data m (field_name, value_of_key k))
    /\ (forall d k,
           pointed_getter data field_name VNone = VDict d ->
           dict_get (pk_attname m) d = Some (value_of_key k) ->
           truthy (value_of_key k) = true ->
           has_tuple fk_data m (field_name, value_of_key k))
    /\ (truthy (fk_value m data field_name) = false ->
        forall m' k, ~ has_tuple fk_data m' (field_name, k)).
Proof.
  intros inspect limit self data fk f m wf Hfk Hseq Ht Hg Hin.
  pose proof (get_all_fk_data_records inspect limit self data fk Hfk) as Hrec.
  assert (Hrecorded : forall k,
             fk_value m data f = value_of_key k ->
             truthy (value_of_key k) = true ->
             has_tuple fk m (f, value_of_key k)).
  { intros k Hv Hk. apply Hrec. exists [f]. split; [reflexivity |].
    rewrite <- (pointed_getter_scalar k (pk_attname m)), <- Hv.
    apply col_fk; try assumption. now rewrite Hv. }
  split; [| split].
  - intros k Hv Hk. apply Hrecorded; [| exact Hk].
    unfold fk_value. rewrite Hv. now destruct k.
  - intros d k Hv Hd Hk. apply Hrecorded; [| exact Hk].
    unfold fk_value. now rewrite Hv, Hd.
  - intros Hfalsy m' k Htuple.
    apply Hrec in Htuple as [segs [Hpath Hc]].
    assert (Hsegs : segs = [f]).
    { rewrite <- (split_path_dotted segs).
      - rewrite <- Hpath. apply split_path_no_dot.
        eapply (field_no_dot inspect wf); eauto.
      - eapply collected_nonempty; eauto.
      - eapply (collected_no_dot inspect wf); eauto. }
    subst segs.
    apply (collected_node inspect self data [f] m' k Hseq) in Hc
      as [_ [_ [[g info] [Hfield Hcontrib]]]].
    unfold contributes in Hcontrib. cbn [fst snd] in Hcontrib.
    destruct info as [m0 | m0 | s | s].
    + destruct Hcontrib as [_ [Heq [Htruthy _]]]. injection Heq as <-.
      pose proof (field_unique inspect wf self f _ _ Hin Hfield) as Hm.
      injection Hm as <-. congruence.
    + destruct Hcontrib as [_ [Heq _]]. injection Heq as <-.
      pose proof (field_unique inspect wf self f _ _ Hin Hfield). discriminate.
    + destruct Hcontrib as [l [index [x [rest [_ [_ [Heq _]]]]]]]. discriminate.
    + destruct Hcontrib as [rest [Heq Hc]]. injection Heq as <- <-.
      now apply collected_nonempty in Hc.
Qed.

Lemma single_reference_forms_witness :
  has_tuple
    [(Fixture.User, [("owner", VInt 5)]); (Fixture.Item, [("items", VList [])])]
    Fixture.User ("owner", VInt 5)
  /\ forall m' k,
      ~ has_tuple
          [(Fixture.User, [("owner", VInt 5)]); (Fixture.Item, [("items", VList [])])]
          m' ("editor", k).
Proof.
  destruct (single_reference_forms Fixture.related 5 "Post"
              (VDict [("owner", VDict [("id", VInt 5)]); ("editor", VInt 0)])
              [(Fixture.User, [("owner", VInt 5)]);
               (Fixture.Item, [("items", VList [])])]
              "owner" Fixture.User related_wf)
    as [_ [Hdict _]]; try (vm_compute; reflexivity).
  { unfold Fixture.related. simpl. apply list_elem_of_here. }
  destruct (single_reference_forms Fixture.related 5 "Post"
              (VDict [("owner", VDict [("id", VInt 5)]); ("editor", VInt 0)])
              [(Fixture.User, [("owner", VInt 5)]);
               (Fixture.Item, [("items", VList [])])]
              "editor" Fixture.User related_wf)
    as [_ [_ Hfalsy]]; try (vm_compute; reflexivity).
  { unfold Fixture.related. simpl. apply list_elem_of_further, list_elem_of_here. }
  split.
  - apply (Hdict [("id", VInt 5)] (KInt 5)); vm_compute; reflexivity.
  - apply Hfalsy. vm_compute; reflexivity.
Defined.

(** * A pass after a flush *)

(** X23: after the shared cache is flushed entirely, a pass on the shared
    cache sends the queries that a pass on a new cache of its own sends for
    the same tree, and has the same outcome: the same exception, or the
    same tree up to the cache the placeholders are bound to. *)
Theorem flushed_shared_pass_like_transient :
  forall (inspect : schema -> list (string * RelInfo)) (limit : nat)
         (db : database) (self : schema) (data : value)
         (cache : Cache) (log : list db_call),
    let shared_run :=
      build_cache (Settings true true) inspect limit db self data
        (Process (flush FNone cache) log) in
    let own_run :=
      build_cache (Settings true false) inspect limit db self data
        (Process cache log) in
    calls shared_run.2 = calls own_run.2
    /\ match shared_run.1, own_run.1 with
       | Ok a, Ok b => erase a = erase b
       | Raise e1, Raise e2 => e1 = e2
       | _, _ => False
       end.
Proof.
  intros inspect limit db self data cache log. rewrite flush_none.
  unfold build_cache.
  cbn [STRUCTURED_FIELD_CACHE_ENABLED STRUCTURED_FIELD_SHARED_CACHE negb
       shared calls].
  destruct (get_all_fk_data inspect limit self data) as [fk | e];
    [| now split].
  destruct (build_plainset fk []) as [ps | e]; [| now split].
  destruct (fetch_loop db ps ∅ log) as [[failure cache'] log'].
  destruct failure as [e |]; cbn [fst snd calls]; [now split |].
  split; [reflexivity |].
  exact (substitute_erase SharedCache (OwnCache cache') fk data data eq_refl).
Qed.

(** * The forms of a reference collection *)

Lemma qs_keys_scalars (m : model) (keys : list key) :
  qs_keys m (value_of_key <$> keys)
  = VList (value_of_key <$> filter (fun k => truthy (value_of_key k) = true) keys).
Proof.
  unfold qs_keys. f_equal.
  induction keys as [| k r IH]; [reflexivity |].
  rewrite fmap_cons, !filter_cons.
  destruct (decide (truthy (value_of_key k) = true)) as [Hk | Hk].
  - rewrite !fmap_cons, IH. now rewrite pointed_getter_scalar.
  - exact IH.
Qed.

(** X24: what the collector records for a reference-collection field of a
    node (truthy, no field tripping the recursion guard).  A list of scalar
    keys is recorded with its falsy keys (0, the empty string) dropped and
    the others in order; a field the node does not have is recorded with
    the empty key list; and a value that is not a list (a single key, None)
    is not recorded: no tuple has the path of the field. *)
Theorem reference_collection_forms :
  forall (inspect : schema -> list (string * RelInfo)) (limit : nat)
         (self : schema) (data : value) (fk_data : fk_map)
         (field_name : string) (m : model),
    fields_wf inspect ->
    get_all_fk_data inspect limit self data = Ok fk_data ->
    sequence_items data = None ->
    truthy data = true ->
    guard_free inspect self data ->
    (field_name, QSField m) ∈ inspect self ->
    (forall keys,
        path_step data field_name = Some (VList (value_of_key <$> keys)) ->
        has_tuple fk_data m
          (field_name,
           VList (value_of_key
                    <$> filter (fun k => truthy (value_of_key k) = true) keys)))
    /\ (path_step data field_name = None ->
        has_tuple fk_data m (field_name, VList []))
    /\ ((forall l, pointed_getter data field_name (VList []) <> VList l) ->
        forall m' k, ~ has_tuple fk_data m' (field_name, k)).
Proof.
  intros inspect limit self data fk f m wf Hfk Hseq Ht Hg Hin.
  pose proof (get_all_fk_data_records inspect limit self data fk Hfk) as Hrec.
  pose proof (field_no_dot inspect wf self f _ Hin) as Hnd.
  assert (Hrecorded : forall l,
             pointed_getter data f (VList []) = VList l ->
             has_tuple fk m (f, qs_keys m l)).
  { intros l Hl. apply Hrec. exists [f]. split; [reflexivity |].
    now apply col_qs. }
  split; [| split].
  - intros keys Hstep. rewrite <- (qs_keys_scalars m). apply Hrecorded.
    rewrite pointed_getter_field by exact Hnd. now rewrite Hstep.
  - intros Hstep. apply (Hrecorded []).
    rewrite pointed_getter_field by exact Hnd. now rewrite Hstep.
  - intros Hnot m' k Htuple.
    apply Hrec in Htuple as [segs [Hpath Hc]].
    assert (Hsegs : segs = [f]).
    { rewrite <- (split_path_dotted segs).
      - rewrite <- Hpath. now apply split_path_no_dot.
      - eapply collected_nonempty; eauto.
      - eapply (collected_no_dot inspect wf); eauto. }
    subst segs.
    apply (collected_node inspect self data [f] m' k Hseq) in Hc
      as [_ [_ [[g info] [Hfield Hcontrib]]]].
    unfold contributes in Hcontrib. cbn [fst snd] in Hcontrib.
    destruct info as [m0 | m0 | s | s].
    + destruct Hcontrib as [_ [Heq _]]. injection Heq as <-.
      pose proof (field_unique inspect wf self f _ _ Hin Hfield). discriminate.
    + destruct Hcontrib as [_ [Heq [l [Hl _]]]]. injection Heq as <-.
      now destruct (Hnot l).
    + destruct Hcontrib as [l [index [x [rest [_ [_ [Heq _]]]]]]]. discriminate.
    + destruct Hcontrib as [rest [Heq Hc]]. injection Heq as <- <-.
      now apply collected_nonempty in Hc.
Qed.

Lemma reference_collection_forms_witness :
  has_tuple
    [(Fixture.Item, [("items", VList [VInt 3; VInt 1])])]
    Fixture.Item ("items", VList [VInt 3; VInt 1]).
Proof.
  destruct (reference_collection_forms Fixture.related 5 "Post"
              (VDict [("items", VList [VInt 3; VInt 0; VInt 1])])
              [(Fixture.Item, [("items", VList [VInt 3; VInt 1])])]
              "items" Fixture.Item related_wf)
    as [Hkeys _]; try (vm_compute; reflexivity).
  { unfold Fixture.related. simpl.
    do 2 apply list_elem_of_further. apply list_elem_of_here. }
  exact (Hkeys [KInt 3; KInt 0; KInt 1] eq_refl).
Defined.

(** * The recursion guard and the fields of a node *)

Lemma split_path_nonempty (s : string) : split_path s <> [].
Proof.
  induction s as [| c r IH]; [discriminate |]. cbn [split_path].
  destruct (Ascii.eqb c "."); [discriminate |].
  destruct (split_path r); [congruence | discriminate].
Qed.

(** Nothing can be read from a falsy value. *)
Lemma pointed_getter_falsy (data : value) (path : string) (dflt : value) :
  truthy data = false -> pointed_getter data path dflt = dflt.
Proof.
  intros Hf. unfold pointed_getter.
  pose proof (split_path_nonempty path) as Hne.
  destruct (split_path path) as [| seg rest]; [congruence |].
  cbn [get_segs].
  assert (Hstep : path_step data seg = None).
  { destruct data as [| z | s | l | d | e | c m k]; try reflexivity;
      simpl in Hf; try discriminate.
    - destruct l; [| discriminate]. cbn [path_step].
      destruct (index_of_str seg); reflexivity.
    - destruct d; [reflexivity | discriminate]. }
  now rewrite Hstep.
Qed.

(** Only a truthy node can trip the guard. *)
Lemma guard_hit_truthy (data : value) (field : string * RelInfo) :
  guard_hit data field = true -> truthy data = true.
Proof.
  intros Hhit. destruct (truthy data) eqn:Ht; [reflexivity |]. exfalso.
  unfold guard_hit, fk_value in Hhit.
  destruct field as [f info]. cbn [fst snd] in Hhit.
  destruct info as [m | m | s | s]; try discriminate;
    rewrite (pointed_getter_falsy data f _ Ht) in Hhit; discriminate.
Qed.

Section GuardedNode.
Variable rec : schema -> value -> result fk_map.

(** Up to the first field that trips the guard, the loop returns if and
    only if the recursive calls of the fields before it do. *)
Lemma fields_ok_guarded (data : value) (before : list (string * RelInfo))
    (field : string * RelInfo) (after : list (string * RelInfo)) :
  existsb (guard_hit data) before = false ->
  guard_hit data field = true ->
  fields_ok rec data (before ++ field :: after)
  = forallb (child_ok rec data) before.
Proof.
  intros Hbefore Hhit. induction before as [| g rest IH].
  - cbn [app fields_ok forallb]. now rewrite Hhit.
  - cbn [existsb] in Hbefore. apply orb_false_iff in Hbefore as [Hg Hrest].
    cbn [app fields_ok forallb]. rewrite Hg, (IH Hrest). reflexivity.
Qed.

Lemma existsb_guarded (data : value) (before : list (string * RelInfo))
    (field : string * RelInfo) (after : list (string * RelInfo)) :
  guard_hit data field = true ->
  existsb (guard_hit data) (before ++ field :: after) = true.
Proof.
  intros Hhit. rewrite existsb_app. cbn [existsb]. rewrite Hhit.
  now rewrite orb_true_r.
Qed.
End GuardedNode.

(** C8, as the code has it: the collector stops at the first field of the
    node whose value trips the recursion guard (a single reference that is
    already a placeholder, a reference collection with a placeholder among
    its elements).  If the recursive calls for the nested fields visited
    before it returned, the collector returns, and what it returns is the
    empty result for the whole node: what the earlier fields had collected
    is dropped, and the fields after it are not visited, so that neither
    what they hold nor what the recursive call would do with it matters.
    If one of those earlier recursive calls raised, the collector
    raises. *)
Theorem guard_empties_node :
  forall (inspect : schema -> list (string * RelInfo))
         (rec : schema -> value -> result fk_map) (self : schema) (data : value)
         (before : list (string * RelInfo)) (field : string * RelInfo)
         (after : list (string * RelInfo)),
    inspect self = before ++ field :: after ->
    existsb (guard_hit data) before = false ->
    guard_hit data field = true ->
    (forallb (child_ok rec data) before = true ->
     get_fk_data inspect rec self data = Ok []
     /\ forall after' acc,
         fields_loop rec data (before ++ field :: after') acc = Ok [])
    /\ (forallb (child_ok rec data) before = false ->
        exists e, get_fk_data inspect rec self data = Raise e).
Proof.
  intros inspect rec self data before field after Hfields Hbefore Hhit.
  pose proof (guard_hit_truthy data field Hhit) as Ht.
  assert (Hget : get_fk_data inspect rec self data
                 = fields_loop rec data (before ++ field :: after) []).
  { unfold get_fk_data. now rewrite Ht, Hfields. }
  assert (Hloop : forall after' acc,
             forallb (child_ok rec data) before = true ->
             fields_loop rec data (before ++ field :: after') acc = Ok []).
  { intros after' acc Hok.
    pose proof (is_ok_fields_loop rec data (before ++ field :: after') acc) as Hr.
    rewrite (fields_ok_guarded rec data before field after' Hbefore Hhit), Hok in Hr.
    destruct (fields_loop rec data (before ++ field :: after') acc) as [fk | e] eqn:Hl;
      [| discriminate].
    f_equal. eapply fields_loop_guard; eauto. now apply existsb_guarded. }
  split.
  - intros Hok. split; [rewrite Hget; now apply Hloop | intros; now apply Hloop].
  - intros Hbad. rewrite Hget.
    pose proof (is_ok_fields_loop rec data (before ++ field :: after) []) as Hr.
    rewrite (fields_ok_guarded rec data before field after Hbefore Hhit), Hbad in Hr.
    destruct (fields_loop rec data (before ++ field :: after) []) as [fk | e];
      [discriminate | eauto].
Qed.

Lemma guard_empties_node_witness :
  let lazy := VLazy SharedCache Fixture.User (VInt 5) in
  let rec := get_all_fk_data Sample.orders 3 in
  get_fk_data Sample.orders rec "Order"
    (VDict [("address", VDict [("country", VInt 9)]); ("buyer", lazy);
            ("notes", VStr "Rome")])
  = Ok []
  /\ rec "Address" (VStr "Rome") = Raise RecursionError
  /\ exists e,
      get_fk_data Sample.orders rec "Order"
        (VDict [("address", VStr "Rome"); ("buyer", lazy)])
      = Raise e.
Proof.
  intros lazy rec. split; [| split; [vm_compute; reflexivity |]].
  - refine (proj1 (proj1 (guard_empties_node Sample.orders rec "Order"
                      (VDict [("address", VDict [("country", VInt 9)]);
                              ("buyer", lazy); ("notes", VStr "Rome")])
                      [("address", RIField "Address")]
                      ("buyer", FKField Fixture.User)
                      [("notes", RIField "Address")] eq_refl eq_refl eq_refl) _)).
    vm_compute; reflexivity.
  - refine (proj2 (guard_empties_node Sample.orders rec "Order"
                     (VDict [("address", VStr "Rome"); ("buyer", lazy)])
                     [("address", RIField "Address")]
                     ("buyer", FKField Fixture.User)
                     [("notes", RIField "Address")] eq_refl eq_refl eq_refl) _).
    vm_compute; reflexivity.
Defined.

(** * A key without a row *)

(** C5, as the code has it: a key that the tree needs for a type and that
    has no entity in the persistence layer does not make the collection
    phase raise (a pass that succeeds succeeds whatever rows the persistence
    layer has).  If the cache in use did not hold an entity under the key
    before the pass, and no instance with the key is among the collected
    values, the key is absent from the batch cache after the pass;
    resolving a single-key placeholder that holds it then sends one direct
    query and raises the lookup error, while resolving a placeholder bound
    to a sequence of keys raises nothing and sends no query: the rows it
    resolves to include none under the missing key. *)
Theorem missing_key_deferred :
  forall (shared_flag : bool) (inspect : schema -> list (string * RelInfo))
         (limit : nat) (db : database) (self : schema) (data data' : value)
         (p p' : process) (fk_data : fk_map) (m : model) (k : key),
    build_cache (Settings true shared_flag) inspect limit db self data p
    = (Ok data', p') ->
    get_all_fk_data inspect limit self data = Ok fk_data ->
    required fk_data m (value_of_key k) ->
    db m k = None ->
    ~ holds_pk (if shared_flag then shared p else ∅) m k ->
    ~ (exists e, required fk_data m (VInst e) /\ e_model e = m /\ e_pk e = k) ->
    (forall db',
        failure_of (build_cache (Settings true shared_flag) inspect limit db'
                      self data p).1 = None)
    /\ exists c,
        substitute c fk_data data = Ok data'
        /\ default ∅ (cache_of p' c !! m) !! k = None
        /\ retrieve db p' c m (value_of_key k)
           = (Raise DoesNotExist,
              Process (shared p') (calls p' ++ [SingleGet m (value_of_key k)]))
        /\ forall keys,
            exists rows,
              retrieve db p' c m (VList (value_of_key <$> keys))
              = (Ok (RQuerySet
                       (QuerySet m (VList (value_of_key <$> keys)) false
                          (Some rows))),
                 p')
              /\ forall e, e ∈ rows -> e_pk e <> k.
Proof.
  intros shared_flag inspect limit db self data data' p p' fk m k
         H Hfk [t [Ht _]] Hdb Hheld Hinst.
  split.
  - intros db'.
    rewrite (build_cache_failure_db _ inspect limit db' db self data p).
    now rewrite H.
  - destruct (build_cache_cache _ _ _ _ _ _ _ _ _ _ H Hfk) as [c [Hsub Hcache]].
    exists c. split; [exact Hsub |].
    destruct (Hcache m (ex_intro _ _ Ht)) as [cm [Hcm Hentries]].
    assert (Hnone : cm !! k = None).
    { destruct (cm !! k) as [e |] eqn:Hk; [| reflexivity]. exfalso.
      destruct (Hentries k e Hk) as [Hpk [He | [[He Hm] | He]]].
      - apply Hheld. now exists e.
      - apply Hinst. now exists e.
      - unfold db_get in He. now rewrite Hdb in He. }
    rewrite Hcm. split; [exact Hnone |]. split.
    + unfold retrieve. rewrite Hcm.
      assert (Hiter : iter_items (value_of_key k) = None) by now destruct k.
      rewrite Hiter, as_key_value_of_key. simpl. rewrite Hnone.
      unfold manager_get. rewrite as_key_value_of_key.
      unfold db_get. rewrite Hdb. now destruct k.
    + intros keys. exists (omap (fun k' => cm !! k') keys). split.
      * unfold retrieve. rewrite Hcm. simpl.
        destruct (decide (cm = ∅)) as [-> | Hne]; simpl.
        -- now rewrite omap_lookup_empty.
        -- now rewrite cached_hits_keys.
      * intros e He Hpk. apply list_elem_of_omap in He as [k' [_ Hk']].
        destruct (Hentries k' e Hk') as [Hpk' _]. congruence.
Qed.

Lemma missing_key_deferred_witness :
  exists data' p',
    Fixture.pass_missing = (Ok data', p')
    /\ (forall db',
           failure_of (build_cache (Settings true false) Fixture.related 5 db'
                         "Post" (VDict [("owner", VInt 99)]) Fixture.fresh).1 = None)
    /\ exists c,
        default ∅ (cache_of p' c !! Fixture.User) !! KInt 99 = None
        /\ (retrieve Fixture.rows p' c Fixture.User (VInt 99)).1 = Raise DoesNotExist
        /\ exists rows,
            (retrieve Fixture.rows p' c Fixture.User (VList [VInt 99])).1
            = Ok (RQuerySet
                    (QuerySet Fixture.User (VList [VInt 99]) false (Some rows)))
            /\ forall e, e ∈ rows -> e_pk e <> KInt 99.
Proof.
  destruct Fixture.pass_missing as [r p'] eqn:Hpass.
  assert (Hok : is_ok r = true).
  { replace r with (Fixture.pass_missing.1) by now rewrite Hpass.
    vm_compute; reflexivity. }
  destruct r as [data' | e]; [| discriminate].
  exists data', p'. split; [reflexivity |].
  destruct (missing_key_deferred false Fixture.related 5 Fixture.rows "Post"
              (VDict [("owner", VInt 99)]) data' Fixture.fresh p'
              [(Fixture.User, [("owner", VInt 99)]);
               (Fixture.Item, [("items", VList [])])]
              Fixture.User (KInt 99))
    as [Hbuild [c [_ [Habsent [Hretrieve Hkeys]]]]].
  - exact Hpass.
  - vm_compute; reflexivity.
  - exists ("owner", VInt 99). split; [| now left].
    exists [("owner", VInt 99)]. split; apply list_elem_of_here.
  - reflexivity.
  - intros [e [He _]]. unfold cached_entities in He.
    rewrite lookup_empty in He. simpl in He. rewrite map_to_list_empty in He.
    now apply elem_of_nil in He.
  - intros [e [[t [[ts [Hts Ht]] Hreq]] _]].
    repeat (apply elem_of_cons in Hts as [Hts | Hts];
            [inversion Hts; subst; clear Hts |]);
      try (now apply elem_of_nil in Hts);
      apply list_elem_of_singleton in Ht; subst t; simpl in Hreq;
      destruct Hreq as [Hreq | [l [Hreq Hl]]]; try discriminate;
      inversion Hreq; subst l; now apply elem_of_nil in Hl.
  - split; [exact Hbuild |]. exists c. split; [exact Habsent |].
    split; [exact (f_equal fst Hretrieve) |].
    destruct (Hkeys [KInt 99]) as [rows [Hrows Hnot]].
    exists rows. split; [exact (f_equal fst Hrows) | exact Hnot].
Defined.

(** C5, counterexamples.  A reference collection names the keys 1 and 99,
    and 99 has no row: the pass succeeds and puts a placeholder bound to
    both keys at [items]; resolving it raises nothing, it returns the
    queryset with the one row found.  And a single reference names the key
    99 while the shared cache holds an entity under that key, left from
    before the row was deleted: the pass succeeds without a query, and
    resolving the placeholder returns that entity; no lookup error is
    raised at resolution time either. *)
Lemma missing_key_in_collection_resolves :
  Fixture.rows Fixture.Item (KInt 99) = None
  /\ match Fixture.pass_missing_item.1 with
     | Ok data' =>
         match pointed_getter data' "items" VNone with
         | VLazy c m v =>
             m = Fixture.Item /\ v = VList [VInt 1; VInt 99]
             /\ (retrieve Fixture.rows Fixture.pass_missing_item.2 c m v).1
                = Ok (RQuerySet
                        (QuerySet Fixture.Item (VList [VInt 1; VInt 99]) false
                           (Some [Fixture.row Fixture.Item 1])))
             /\ (retrieve Fixture.rows Fixture.pass_missing_item.2 c m v).1
                <> Raise DoesNotExist
         | _ => False
         end
     | Raise _ => False
     end
  /\ Fixture.rows Fixture.User (KInt 99) = None
  /\ let pass :=
       build_cache (Settings true true) Fixture.related 5 Fixture.rows "Post"
         (VDict [("owner", VInt 99)]) Sample.ghost in
     calls pass.2 = []
     /\ match pass.1 with
        | Ok data' =>
            pointed_getter data' "owner" VNone
            = VLazy SharedCache Fixture.User (VInt 99)
            /\ retrieve Fixture.rows pass.2 SharedCache Fixture.User (VInt 99)
               = (Ok (REntity Sample.gone99), pass.2)
        | Raise _ => False
        end.
Proof.
  split; [reflexivity |]. split; [vm_compute; repeat split; discriminate |].
  split; [reflexivity |]. vm_compute. repeat split.
Qed.

(** * Deduplication and the instances among the collected values *)




(** * Path fidelity *)



